(** * APIOptimizer: request cache, rate limiter, circuit breaker and queue

    A shallow embedding of the [APIOptimizer] class ("API Optimizer for
    managing API requests with caching, rate limiting, and circuit
    breaking"), the properties its specification states, and further
    properties of its methods: invariants of the private state, the
    book-keeping of promises, the retry loop, the queue loop and the cache.

    The class is asynchronous JavaScript running on a single-threaded event
    loop.  Its synchronous methods are state transformers that read the clock
    once.  Its asynchronous methods ([request], [queueRequest],
    [processQueue], [executeRequest], [batchRequests]) are cut at their
    suspension points ([await fetch], the [await] of the 100 ms pause) into
    the pieces the event loop runs without interruption, and the function
    [step] replays any interleaving of calls, network answers and timers.

    Conventions of the model:
    - [Date.now()] is the field [clock] of the world; it moves only between
      the pieces.  Times and counters are integers ([Z]).
    - The outcome of a [fetch] is chosen by the environment (the event
      [Fetch_settles]); so is the moment a due timer fires.
    - A promise returned by [request] is a number; [resolve]/[reject] and
      the continuations that run in the same turn of the event loop (the
      callback of [batchRequests]) are folded into the piece that settles
      the promise.
    - The two configuration tables are object literals: a lookup finds their
      own properties and, under the names [Object.prototype] has members
      for, those members. *)

From stdpp Require Import gmap strings list fin_maps pretty.
From Stdlib Require Import ZArith Lia Ascii Sorted.

Local Open Scope Z_scope.

(** ** Values *)

Set Warnings "-register-all".

(** A parsed JSON document ([response.json()], the payload type [any]).
    Numbers are restricted to integers. *)
Inductive JSON :=
| JNull
| JBool (b : bool)
| JNumber (n : Z)
| JString (s : string)
| JArray (items : list JSON)
| JObject (fields : list (string * JSON)).

(** JavaScript truthiness of a JSON value, as tested by [if (cached)] and
    [!!x]: [null], [false], [0] and the empty string are falsy. *)
Definition truthy (v : JSON) : bool :=
  match v with
  | JNull => false
  | JBool b => b
  | JNumber n => negb (n =? 0)
  | JString s => negb (String.eqb s "")
  | JArray _ | JObject _ => true
  end.

(** A number the code computes from the clock and the tables: an integer, or
    [NaN] (the sum of a number and [undefined]). *)
Inductive Number := num (n : Z) | NaN.

(** The names under which [Object.prototype] has members: functions, and
    under [__proto__] the prototype itself.  All of them are truthy, and
    none has a property [requests] or [window]. *)
Definition Object_prototype : list string :=
  [ "constructor"; "hasOwnProperty"; "isPrototypeOf"; "propertyIsEnumerable";
    "toLocaleString"; "toString"; "valueOf"; "__proto__";
    "__defineGetter__"; "__defineSetter__"; "__lookupGetter__";
    "__lookupSetter__" ].

(** What [table[key]] finds in an object literal: the value of a property of
    its own, else the member [Object.prototype] has under that name, else
    [undefined]. *)
Inductive Property (A : Type) :=
| own (v : A)
| inherited (name : string)
| undefined.

Arguments own {A} v.
Arguments inherited {A} name.
Arguments undefined {A}.

Definition property {A} (table : gmap string A) (key : string) : Property A :=
  match table !! key with
  | Some v => own v
  | None =>
      if bool_decide (key ∈ Object_prototype) then inherited key else undefined
  end.

(** [o.f] on what a lookup found: a member of [Object.prototype] has no such
    property. *)
Definition field {A} (f : A → Z) (o : Property A) : option Z :=
  match o with
  | own v => Some (f v)
  | inherited _ | undefined => None
  end.

(** [n + m], [n < m], [n >= m] and [n > m], the right operand possibly
    [undefined] or [NaN]: the sum is then [NaN], the comparison false. *)
Definition js_add (n : Z) (m : option Z) : Number :=
  match m with
  | Some m => num (n + m)
  | None => NaN
  end.

Definition js_lt (n : Z) (m : option Z) : bool :=
  match m with
  | Some m => n <? m
  | None => false
  end.

Definition js_ge (n : Z) (m : Number) : bool :=
  match m with
  | num m => m <=? n
  | NaN => false
  end.

Definition js_gt (n : Z) (m : Number) : bool :=
  match m with
  | num m => n >? m
  | NaN => false
  end.

(** An [Error] object: only [name] and [message] are inspected. *)
Record Error := { name : string; message : string }.

Definition new_Error (msg : string) : Error := {| name := "Error"; message := msg |}.

(** [s.includes(pat)] *)
Fixpoint includes (pat s : string) : bool :=
  if String.prefix pat s then true
  else match s with
       | EmptyString => false
       | String _ s' => includes pat s'
       end.

(** ** Interfaces *)

Inductive Method := GET | POST | PUT | DELETE.
Inductive Priority := high | medium | low.

Record RequestConfig := {
  url : string;
  method : option Method;
  headers : option (list (string * string));
  body : option JSON;
  timeout : option Z;
  retries : option Z;
  cacheKey : option string;
  priority : option Priority;
  skipCache : option bool
}.

Record RequestResult := {
  success : bool;
  data : option JSON;
  error : option string;
  duration : Z;
  fromCache : option bool
}.

(** What the slot [ttl] of a cache entry holds: the number of milliseconds
    [getCacheTTL] reads from its table, or the member of [Object.prototype]
    it reads there for a domain of that name. *)
Inductive TTL := ms (n : Z) | member (name : string).

Record CacheEntry := { ce_data : JSON; ce_timestamp : Z; ttl : TTL }.

Record RateLimiter := { count : Z; resetTime : Number }.

Record CircuitBreaker := { failures : Z; lastFailure : Z; isOpen : bool }.

(** [resolve]/[reject] of the promise handed to the caller are represented by
    the number of that promise. *)
Record QueuedRequest := {
  id : string;
  config : RequestConfig;
  promise : nat;
  qr_priority : Z;
  qr_timestamp : Z
}.

(** ** The private state of an [APIOptimizer] *)

Record APIOptimizer := {
  requestCache : gmap string CacheEntry;
  rateLimiter : gmap string RateLimiter;
  circuitBreaker : gmap string CircuitBreaker;
  requestQueue : list QueuedRequest;
  isProcessingQueue : bool
}.

Definition new_APIOptimizer : APIOptimizer :=
  {| requestCache := ∅; rateLimiter := ∅; circuitBreaker := ∅;
     requestQueue := []; isProcessingQueue := false |}.

Definition with_requestCache (c : gmap string CacheEntry) (s : APIOptimizer) :=
  {| requestCache := c; rateLimiter := rateLimiter s;
     circuitBreaker := circuitBreaker s; requestQueue := requestQueue s;
     isProcessingQueue := isProcessingQueue s |}.

Definition with_rateLimiter (r : gmap string RateLimiter) (s : APIOptimizer) :=
  {| requestCache := requestCache s; rateLimiter := r;
     circuitBreaker := circuitBreaker s; requestQueue := requestQueue s;
     isProcessingQueue := isProcessingQueue s |}.

Definition with_circuitBreaker (b : gmap string CircuitBreaker) (s : APIOptimizer) :=
  {| requestCache := requestCache s; rateLimiter := rateLimiter s;
     circuitBreaker := b; requestQueue := requestQueue s;
     isProcessingQueue := isProcessingQueue s |}.

Definition with_requestQueue (q : list QueuedRequest) (s : APIOptimizer) :=
  {| requestCache := requestCache s; rateLimiter := rateLimiter s;
     circuitBreaker := circuitBreaker s; requestQueue := q;
     isProcessingQueue := isProcessingQueue s |}.

Definition with_isProcessingQueue (b : bool) (s : APIOptimizer) :=
  {| requestCache := requestCache s; rateLimiter := rateLimiter s;
     circuitBreaker := circuitBreaker s; requestQueue := requestQueue s;
     isProcessingQueue := b |}.

(** ** Configuration tables *)

Record RateLimit := { requests : Z; window : Z }.

(** Rate limiting configuration per domain *)
Definition RATE_LIMITS : gmap string RateLimit :=
  list_to_map
    [ ("nominatim.openstreetmap.org", {| requests := 1; window := 1000 |});
      ("ipapi.co", {| requests := 1000; window := 60000 |});
      ("ip-api.com", {| requests := 45; window := 60000 |});
      ("timeapi.io", {| requests := 100; window := 60000 |});
      ("api.geonames.org", {| requests := 1000; window := 3600000 |}) ].

(** Circuit breaker configuration *)
Definition failureThreshold : Z := 5.
Definition resetTimeout : Z := 60000.

(** ** Synchronous methods

    Each takes the value [Date.now()] has while it runs. *)

Definition checkRateLimit (now : Z) (domain : string) (s : APIOptimizer)
  : bool * APIOptimizer :=
  match property RATE_LIMITS domain with
  | undefined => (true, s)
  | rateLimit =>
      let fresh :=
        with_rateLimiter
          (<[domain := {| count := 1;
                          resetTime := js_add now (field window rateLimit) |}]>
             (rateLimiter s)) s in
      match rateLimiter s !! domain with
      | None => (true, fresh)
      | Some limiter =>
          if js_ge now (resetTime limiter) then (true, fresh)
          else if js_lt (count limiter) (field requests rateLimit) then
            (true,
             with_rateLimiter
               (<[domain := {| count := count limiter + 1;
                               resetTime := resetTime limiter |}]>
                  (rateLimiter s)) s)
          else (false, s)
      end
  end.

Definition isCircuitOpen (now : Z) (domain : string) (s : APIOptimizer)
  : bool * APIOptimizer :=
  match circuitBreaker s !! domain with
  | None => (false, s)
  | Some breaker =>
      if isOpen breaker then
        if now - lastFailure breaker >? resetTimeout then
          (false,
           with_circuitBreaker
             (<[domain := {| failures := 0;
                             lastFailure := lastFailure breaker;
                             isOpen := false |}]> (circuitBreaker s)) s)
        else (true, s)
      else (false, s)
  end.

Definition recordFailure (now : Z) (domain : string) (s : APIOptimizer)
  : APIOptimizer :=
  let breaker :=
    default {| failures := 0; lastFailure := 0; isOpen := false |}
            (circuitBreaker s !! domain) in
  let failures' := failures breaker + 1 in
  with_circuitBreaker
    (<[domain := {| failures := failures';
                    lastFailure := now;
                    isOpen := if failureThreshold <=? failures' then true
                              else isOpen breaker |}]> (circuitBreaker s)) s.

Definition resetCircuitBreaker (domain : string) (s : APIOptimizer) : APIOptimizer :=
  with_circuitBreaker (delete domain (circuitBreaker s)) s.

(** [cached.timestamp + cached.ttl]: a sum of numbers, or, the [ttl] being a
    function or an object, the text of the number followed by the text of
    the member, which a comparison with a number reads as [NaN]. *)
Definition deadline (cached : CacheEntry) : Number :=
  match ttl cached with
  | ms n => num (ce_timestamp cached + n)
  | member _ => NaN
  end.

(** [getFromCache] answers the stored payload or [null]. *)
Definition getFromCache (now : Z) (key : string) (s : APIOptimizer)
  : JSON * APIOptimizer :=
  match requestCache s !! key with
  | None => (JNull, s)
  | Some cached =>
      if js_gt now (deadline cached) then
        (JNull, with_requestCache (delete key (requestCache s)) s)
      else (ce_data cached, s)
  end.

Definition cleanupCache (now : Z) (s : APIOptimizer) : APIOptimizer :=
  with_requestCache
    (filter (λ kc : string * CacheEntry, js_gt now (deadline kc.2) = false)
       (requestCache s)) s.

Definition setCache (now : Z) (key : string) (payload : JSON) (ttl_ms : TTL)
    (s : APIOptimizer) : APIOptimizer :=
  let s' :=
    with_requestCache
      (<[key := {| ce_data := payload; ce_timestamp := now; ttl := ttl_ms |}]>
         (requestCache s)) s in
  if (1000 <? size (requestCache s'))%nat then cleanupCache now s' else s'.

Definition ttlMap : gmap string Z :=
  list_to_map
    [ ("nominatim.openstreetmap.org", 60 * 60 * 1000);
      ("ipapi.co", 30 * 60 * 1000);
      ("ip-api.com", 30 * 60 * 1000);
      ("timeapi.io", 60 * 60 * 1000);
      ("api.geonames.org", 60 * 60 * 1000) ].

(** [v || d] on numbers: [undefined] and [0] are falsy. *)
Definition number_or (v : option Z) (d : Z) : Z :=
  match v with
  | Some n => if n =? 0 then d else n
  | None => d
  end.

(** [ttlMap[domain] || 15 * 60 * 1000]: a member of [Object.prototype] is
    truthy and is returned as it is. *)
Definition getCacheTTL (domain : string) : TTL :=
  match property ttlMap domain with
  | own n => ms (number_or (Some n) (15 * 60 * 1000))
  | inherited name => member name
  | undefined => ms (number_or None (15 * 60 * 1000))
  end.

Definition priorities (p : Priority) : Z :=
  match p with high => 0 | medium => 1 | low => 2 end.

Definition getPriorityIndex (p : Priority) : Z :=
  number_or (Some (priorities p)) 1.

(** [queue.findIndex(pred)], [None] standing for [-1]. *)
Fixpoint findIndex {A} (pred : A → bool) (l : list A) : option nat :=
  match l with
  | [] => None
  | x :: l' => if pred x then Some 0%nat else S <$> findIndex pred l'
  end.

(** [queue.splice(i, 0, x)] *)
Definition splice_in {A} (i : nat) (x : A) (l : list A) : list A :=
  take i l ++ x :: drop i l.

(** The insertion performed by [queueRequest]. *)
Definition enqueue (q : QueuedRequest) (queue : list QueuedRequest)
  : list QueuedRequest :=
  match findIndex (λ req, qr_priority q <? qr_priority req) queue with
  | None => queue ++ [q]
  | Some insertIndex => splice_in insertIndex q queue
  end.

(** [config.cacheKey] when it is truthy (present and not the empty string). *)
Definition truthy_key (cfg : RequestConfig) : option string :=
  match cacheKey cfg with
  | Some k => if String.eqb k "" then None else Some k
  | None => None
  end.

(** [clearCache()] *)
Definition clearCache (s : APIOptimizer) : APIOptimizer := with_requestCache ∅ s.

(** What [getStats()] reports.  ([Object.fromEntries] turns each map into an
    object with the same keys and values; the report is read at the moment
    of the call.) *)
Record Stats := {
  queueLength : nat;
  cacheSize : nat;
  rateLimiters : gmap string RateLimiter;
  circuitBreakers : gmap string CircuitBreaker
}.

Definition getStats (s : APIOptimizer) : Stats :=
  {| queueLength := length (requestQueue s);
     cacheSize := size (requestCache s);
     rateLimiters := rateLimiter s;
     circuitBreakers := circuitBreaker s |}.

(** ** The network *)

(** What one [fetch] call comes to: a response whose body parses
    ([response.json()]) or does not, or a rejection (network failure, or the
    [AbortError] raised when the timeout aborts the call). *)
Inductive FetchResult :=
| Responded (status : Z) (statusText : string) (json : Error + JSON)
| Failed (e : Error).

(** [response.ok] *)
Definition ok (status : Z) : bool := (200 <=? status) && (status <=? 299).

(** What the [try] block of one attempt yields: the parsed payload, or the
    error that reaches the [catch]. *)
Definition attempt_outcome (r : FetchResult) : Error + JSON :=
  match r with
  | Responded status statusText json =>
      if ok status then json
      else inl (new_Error ("HTTP " +:+ pretty status +:+ ": " +:+ statusText))
  | Failed e => inl e
  end.

(** "Don't retry on certain errors" *)
Definition no_retry (e : Error) : bool :=
  String.eqb (name e) "AbortError" || includes "404" (message e).

(** ** The event loop *)

(** Who awaits an [executeRequest] activation: [request] itself (the
    activation's promise is the caller's) or the loop of [processQueue],
    which settles the queued promise and pauses. *)
Inductive Caller := FromRequest | FromQueue.

(** An [executeRequest] activation suspended at [await fetch]. *)
Record Flight := { f_config : RequestConfig; f_attempt : Z; f_caller : Caller }.

(** A pending [setTimeout]: the 100 ms pause inside the loop of
    [processQueue], or the call of [processQueue] scheduled 1000 ms ahead. *)
Inductive Timer := Pause | Reprocess.

Inductive Settlement := Resolved (v : JSON) | Rejected (e : Error).

(** An entry of [Promise.allSettled]'s result. *)
Inductive PromiseSettledResult :=
| fulfilled (value : RequestResult)
| rejected.

(** One [fetch] call: when, for which promise, which attempt. *)
Record FetchCall := { fc_time : Z; fc_promise : nat; fc_url : string; fc_attempt : Z }.

Record World := {
  self : APIOptimizer;
  clock : Z;                                 (* Date.now() *)
  flights : gmap nat Flight;                 (* keyed by the promise served *)
  timers : list (Z * Timer);                 (* due time, purpose *)
  settled : gmap nat Settlement;             (* promises of request() *)
  wrappers : gmap nat (Z * RequestConfig);   (* batch callbacks: startTime, config *)
  outcomes : gmap nat PromiseSettledResult;  (* settled batch callbacks *)
  next_promise : nat;
  fetched : list FetchCall                   (* every fetch() so far, oldest first *)
}.

Definition new_World : World :=
  {| self := new_APIOptimizer; clock := 0; flights := ∅; timers := [];
     settled := ∅; wrappers := ∅; outcomes := ∅; next_promise := 0%nat;
     fetched := [] |}.

Definition with_self (s : APIOptimizer) (w : World) : World :=
  {| self := s; clock := clock w; flights := flights w; timers := timers w;
     settled := settled w; wrappers := wrappers w; outcomes := outcomes w;
     next_promise := next_promise w; fetched := fetched w |}.

Definition with_clock (t : Z) (w : World) : World :=
  {| self := self w; clock := t; flights := flights w; timers := timers w;
     settled := settled w; wrappers := wrappers w; outcomes := outcomes w;
     next_promise := next_promise w; fetched := fetched w |}.

Definition with_flights (f : gmap nat Flight) (w : World) : World :=
  {| self := self w; clock := clock w; flights := f; timers := timers w;
     settled := settled w; wrappers := wrappers w; outcomes := outcomes w;
     next_promise := next_promise w; fetched := fetched w |}.

Definition with_timers (t : list (Z * Timer)) (w : World) : World :=
  {| self := self w; clock := clock w; flights := flights w; timers := t;
     settled := settled w; wrappers := wrappers w; outcomes := outcomes w;
     next_promise := next_promise w; fetched := fetched w |}.

Definition with_settled (m : gmap nat Settlement) (w : World) : World :=
  {| self := self w; clock := clock w; flights := flights w; timers := timers w;
     settled := m; wrappers := wrappers w; outcomes := outcomes w;
     next_promise := next_promise w; fetched := fetched w |}.

Definition with_wrappers (m : gmap nat (Z * RequestConfig)) (w : World) : World :=
  {| self := self w; clock := clock w; flights := flights w; timers := timers w;
     settled := settled w; wrappers := m; outcomes := outcomes w;
     next_promise := next_promise w; fetched := fetched w |}.

Definition with_outcomes (m : gmap nat PromiseSettledResult) (w : World) : World :=
  {| self := self w; clock := clock w; flights := flights w; timers := timers w;
     settled := settled w; wrappers := wrappers w; outcomes := m;
     next_promise := next_promise w; fetched := fetched w |}.

Definition with_next_promise (n : nat) (w : World) : World :=
  {| self := self w; clock := clock w; flights := flights w; timers := timers w;
     settled := settled w; wrappers := wrappers w; outcomes := outcomes w;
     next_promise := n; fetched := fetched w |}.

Definition with_fetched (l : list FetchCall) (w : World) : World :=
  {| self := self w; clock := clock w; flights := flights w; timers := timers w;
     settled := settled w; wrappers := wrappers w; outcomes := outcomes w;
     next_promise := next_promise w; fetched := l |}.

Definition setTimeout (what : Timer) (delay : Z) (w : World) : World :=
  with_timers (timers w ++ [(clock w + delay, what)]) w.

(** The callback [batchRequests] maps over its input, from the point where
    [await this.request(config)] resumes. *)
Definition batch_callback (now startTime : Z) (cfg : RequestConfig)
    (r : Settlement) (s : APIOptimizer) : PromiseSettledResult * APIOptimizer :=
  match r with
  | Resolved payload =>
      let '(flag, s') :=
        match truthy_key cfg with
        | Some k => let '(c, s') := getFromCache now k s in (truthy c, s')
        | None => (false, s)
        end in
      (fulfilled {| success := true; data := Some payload; error := None;
                    duration := now - startTime; fromCache := Some flag |}, s')
  | Rejected e =>
      (fulfilled {| success := false; data := None; error := Some (message e);
                    duration := now - startTime; fromCache := None |}, s)
  end.

(** A promise of [request] settles; a batch callback awaiting it resumes in
    the same turn of the event loop.  (When the request settles before it
    suspends, the callback resumes after the synchronous code of the batch;
    that code adds nothing to the cache and removes only expired entries, so
    the callback finds there what it finds here.) *)
Definition settle (p : nat) (r : Settlement) (w : World) : World :=
  let w := with_settled (<[p := r]> (settled w)) w in
  match wrappers w !! p with
  | None => w
  | Some (startTime, cfg) =>
      let '(o, s) := batch_callback (clock w) startTime cfg r (self w) in
      with_outcomes (<[p := o]> (outcomes w)) (with_self s w)
  end.

(** [executeRequest] has come to its end with [r], and its awaiter goes on. *)
Definition finish (p : nat) (caller : Caller) (r : Settlement) (w : World) : World :=
  match caller with
  | FromRequest => settle p r w
  | FromQueue => setTimeout Pause 100 (settle p r w)
  end.

(** ** Events

    What the outside does to the optimizer: calls of its public methods,
    the settling of a pending [fetch], a due timer firing, time passing. *)

Inductive Event :=
| Call_request (cfg : RequestConfig)
| Call_batchRequests (cfgs : list RequestConfig)
| Call_clearCache
| Fetch_settles (p : nat) (r : FetchResult)
| Timer_fires (i : nat)
| Time_passes (dt : Z).

(** The network answers the fetches of promise [p] one after the other,
    each after some time. *)
Definition answers (p : nat) (script : list (Z * FetchResult)) : list Event :=
  flat_map (λ a, [Time_passes a.1; Fetch_settles p a.2]) script.

(** ** A sample platform

    Concrete runs need a concrete URL parser.  [sample_hostname] reads
    [https://host/...] and [http://host/...] and rejects everything else;
    on the URLs of the runs below it agrees with [new URL(url).hostname]
    (a string with no scheme makes the constructor throw). *)

Definition strip_prefix (p s : string) : option string :=
  if String.prefix p s
  then Some (String.substring (String.length p)
               (String.length s - String.length p) s)
  else None.

Fixpoint host_chars (s : string) : string :=
  match s with
  | EmptyString => EmptyString
  | String c s' =>
      if bool_decide (c ∈ ["/"; "?"; "#"; ":"]%list%char) then EmptyString
      else String c (host_chars s')
  end.

Definition sample_hostname (u : string) : option string :=
  match
    match strip_prefix "https://" u with
    | Some rest => Some rest
    | None => strip_prefix "http://" u
    end
  with
  | Some rest =>
      if String.eqb (host_chars rest) "" then None else Some (host_chars rest)
  | None => None
  end.

Definition sample_id (n : nat) : string := "id" +:+ pretty n.

(** A request description with every optional field left out. *)
Definition get (u : string) : RequestConfig :=
  {| url := u; method := None; headers := None; body := None; timeout := None;
     retries := None; cacheKey := None; priority := None; skipCache := None |}.

Definition with_priority (pr : Priority) (cfg : RequestConfig) : RequestConfig :=
  {| url := url cfg; method := method cfg; headers := headers cfg;
     body := body cfg; timeout := timeout cfg; retries := retries cfg;
     cacheKey := cacheKey cfg; priority := Some pr; skipCache := skipCache cfg |}.

Definition with_cacheKey (k : string) (cfg : RequestConfig) : RequestConfig :=
  {| url := url cfg; method := method cfg; headers := headers cfg;
     body := body cfg; timeout := timeout cfg; retries := retries cfg;
     cacheKey := Some k; priority := priority cfg; skipCache := skipCache cfg |}.

Definition with_skipCache (b : bool) (cfg : RequestConfig) : RequestConfig :=
  {| url := url cfg; method := method cfg; headers := headers cfg;
     body := body cfg; timeout := timeout cfg; retries := retries cfg;
     cacheKey := cacheKey cfg; priority := priority cfg; skipCache := Some b |}.

Definition with_retries (r : Z) (cfg : RequestConfig) : RequestConfig :=
  {| url := url cfg; method := method cfg; headers := headers cfg;
     body := body cfg; timeout := timeout cfg; retries := Some r;
     cacheKey := cacheKey cfg; priority := priority cfg; skipCache := skipCache cfg |}.

Definition http_500 : FetchResult := Responded 500 "Internal Server Error" (inr JNull).
Definition http_404 : FetchResult := Responded 404 "Not Found" (inr JNull).
Definition http_200 (payload : JSON) : FetchResult := Responded 200 "OK" (inr payload).

(** A request to the reverse-geocoding service, limited to one request per
    second. *)
Definition geo (path : string) : RequestConfig :=
  get ("https://nominatim.openstreetmap.org/" +:+ path).

Definition urls_queued (w : World) : list string :=
  (λ q, url (config q)) <$> requestQueue (self w).

Definition urls_fetched (w : World) : list string := fc_url <$> fetched w.

(** One request uses up the quota, three more are queued in the order low,
    high, medium, and the queue drains as the windows reset. *)
Definition low_high_medium : list Event :=
  [ Call_request (geo "first");
    Call_request (with_priority low (geo "low"));
    Call_request (with_priority high (geo "high"));
    Call_request (with_priority medium (geo "medium")) ].

Definition drain_three (p1 p2 p3 : nat) : list Event :=
  [ Fetch_settles 0 (http_200 (JString "first"));
    Time_passes 1000; Timer_fires 0; Fetch_settles p1 (http_200 (JString "1"));
    Time_passes 1000; Timer_fires 2; Fetch_settles p2 (http_200 (JString "2"));
    Time_passes 1000; Timer_fires 2; Fetch_settles p3 (http_200 (JString "3")) ].

(** The same with a medium request queued before a high one. *)
Definition medium_high : list Event :=
  [ Call_request (geo "first");
    Call_request (with_priority medium (geo "medium"));
    Call_request (with_priority high (geo "high")) ].

Definition drain_two (p1 p2 : nat) : list Event :=
  [ Fetch_settles 0 (http_200 (JString "first"));
    Time_passes 1000; Timer_fires 0; Fetch_settles p1 (http_200 (JString "1"));
    Time_passes 1000; Timer_fires 1; Fetch_settles p2 (http_200 (JString "2")) ].

(** A request to the IP-geolocation service, limited to 45 requests per
    minute. *)
Definition ip_api : RequestConfig := get "https://ip-api.com/json".

(** A first request fills the cache under "k".  Five failed attempts of one
    request then open the breaker; a request is turned away while a request
    for "k" is answered from the cache; the cooldown passes; two requests
    are let through at once, the first of them fails, and a further request
    is let through. *)
Definition breaker_story : list Event :=
  [ Call_request (with_cacheKey "k" ip_api);
    Fetch_settles 0 (http_200 (JString "Oslo"));
    Call_request (with_retries 4 ip_api) ]
    ++ answers 1 (replicate 5 (10, http_500))
    ++ [ Call_request ip_api;
         Call_request (with_cacheKey "k" ip_api);
         Time_passes 60001;
         Call_request (with_retries 0 ip_api);
         Call_request (with_retries 0 ip_api);
         Fetch_settles 4 http_500;
         Call_request ip_api ].

(** An optimizer at time [now] whose breaker for ip-api.com holds [b]. *)
Definition breaker_world (now : Z) (b : CircuitBreaker) : World :=
  with_clock now
    (with_self (with_circuitBreaker {["ip-api.com" := b]} new_APIOptimizer) new_World).

(** One request opens a window at time 0, 44 more follow at its very end,
    and two arrive one millisecond later, when the next window starts. *)
Definition burst : list Event :=
  [Call_request ip_api; Time_passes 59999]
    ++ replicate 44 (Call_request ip_api)
    ++ [Time_passes 1; Call_request ip_api; Call_request ip_api].

(** Requests with a URL that does not parse, every attempt failing. *)
Definition malformed : RequestConfig := get "not a url".

Definition parse_failure : FetchResult :=
  Failed {| name := "TypeError"; message := "Failed to parse URL from not a url" |}.

Definition malformed_story : list Event :=
  Call_request malformed
    :: answers 0 (replicate 4 (0, parse_failure))
    ++ Call_request malformed
    :: answers 1 (replicate 4 (0, parse_failure))
    ++ [Call_request malformed].

(** Two requests with the same cache key, the second one second after the
    answer to the first. *)
Definition same_key_twice (first : RequestConfig) (payload : JSON) : list Event :=
  [ Call_request first;
    Time_passes 25; Fetch_settles 0 (http_200 payload);
    Time_passes 1000;
    Call_request (with_cacheKey "k" ip_api) ].

(** A batch of one request with cache key [k], answered by the network. *)
Definition batch_of_one (k : string) (payload : JSON) : list Event :=
  [ Call_batchRequests [with_cacheKey k ip_api];
    Time_passes 25; Fetch_settles 0 (http_200 payload) ].

(** A batch of three: a success, a failure that is not retried, and a URL
    that does not parse. *)
Definition batch_of_three : list RequestConfig :=
  [ip_api; with_retries 0 (geo "reverse"); with_retries 0 malformed].

Definition batch_of_three_answers : list Event :=
  [ Time_passes 30; Fetch_settles 1 http_404;
    Fetch_settles 2 parse_failure;
    Time_passes 10; Fetch_settles 0 (http_200 (JString "Oslo")) ].

(** Two requests to the reverse-geocoding service in the same millisecond:
    the first is sent, the second waits in the queue as [queued_b]. *)
Definition two_to_geo : list Event :=
  [Call_request (geo "a"); Call_request (geo "b")].

Definition queued_b : QueuedRequest :=
  {| id := sample_id 1; config := geo "b"; promise := 1;
     qr_priority := 1; qr_timestamp := 0 |}.

(** An optimizer at time 1000 whose cache holds "Oslo" under "k", written
    at time 25 with half an hour to live. *)
Definition cached_oslo : World :=
  with_clock 1000
    (with_self (setCache 25 "k" (JString "Oslo") (ms 1800000) new_APIOptimizer)
       new_World).


(** A request is answered; a second one is made and time passes. *)
Definition answered_then_more : list Event * list Event :=
  ([Call_request ip_api; Time_passes 5; Fetch_settles 0 (http_200 (JString "Oslo"))],
   [Call_request ip_api; Time_passes 5; Fetch_settles 1 http_404]).

(** An optimizer whose cache holds 1002 entries, written at time 0 under
    the keys "0" to "1001": the first lives one second, the others five. *)
Definition crowded : APIOptimizer :=
  with_requestCache
    (list_to_map
       ((λ i : nat,
           (pretty i,
            {| ce_data := JNumber (Z.of_nat i); ce_timestamp := 0;
               ttl := ms (match i with O => 1000 | S _ => 5000 end) |}))
          <$> seq 0 1002))
    new_APIOptimizer.

(** A request to a host whose name is that of a member of
    [Object.prototype]: [new URL("https://constructor/x").hostname] is
    ["constructor"]. *)
Definition to_constructor : RequestConfig := get "https://constructor/x".

#[global] Instance Caller_eq_dec : EqDecision Caller.
Proof. solve_decision. Defined.

#[global] Instance Timer_eq_dec : EqDecision Timer.
Proof. solve_decision. Defined.

Section Optimizer.

(** The platform: [new URL(url).hostname], [None] when the constructor
    throws, and the strings [generateId] draws from [Math.random]. *)
Variable URL_hostname : string → option string.
Variable generateId : nat → string.

Definition extractDomain (u : string) : string :=
  default "unknown" (URL_hostname u).

(** The [for] loop of [executeRequest] from its test [attempt <= retries]
    to the next [await fetch]. *)
Definition executeRequest_loop (p : nat) (caller : Caller) (cfg : RequestConfig)
    (attempt : Z) (lastError : option Error) (w : World) : World :=
  if attempt <=? default 3 (retries cfg) then
    with_fetched
      (fetched w ++ [{| fc_time := clock w; fc_promise := p;
                        fc_url := url cfg; fc_attempt := attempt |}])
      (with_flights
         (<[p := {| f_config := cfg; f_attempt := attempt; f_caller := caller |}]>
            (flights w)) w)
  else
    finish p caller
      (Rejected (default (new_Error "Request failed after all retries") lastError)) w.

Definition executeRequest (p : nat) (caller : Caller) (cfg : RequestConfig)
    (w : World) : World :=
  executeRequest_loop p caller cfg 0 None w.

(** The rest of an attempt once its [fetch] has come back. *)
Definition executeRequest_resume (p : nat) (fl : Flight) (r : FetchResult)
    (w : World) : World :=
  let cfg := f_config fl in
  let domain := extractDomain (url cfg) in
  let w := with_flights (delete p (flights w)) w in
  match attempt_outcome r with
  | inr payload =>
      let s := self w in
      let s := match truthy_key cfg with
               | Some k => setCache (clock w) k payload (getCacheTTL domain) s
               | None => s
               end in
      let s := resetCircuitBreaker domain s in
      finish p (f_caller fl) (Resolved payload) (with_self s w)
  | inl e =>
      let w := with_self (recordFailure (clock w) domain (self w)) w in
      if no_retry e then finish p (f_caller fl) (Rejected e) w
      else executeRequest_loop p (f_caller fl) cfg (f_attempt fl + 1) (Some e) w
  end.

(** The end of [processQueue], behind its [while] loop. *)
Definition processQueue_end (w : World) : World :=
  let w := with_self (with_isProcessingQueue false (self w)) w in
  match requestQueue (self w) with
  | [] => w
  | _ :: _ => setTimeout Reprocess 1000 w
  end.

(** The [while] loop of [processQueue] from its test to the next suspension
    or to the end of the method. *)
Definition processQueue_loop (w : World) : World :=
  match requestQueue (self w) with
  | [] => processQueue_end w
  | request :: rest =>
      let s := with_requestQueue rest (self w) in
      let domain := extractDomain (url (config request)) in
      let '(free, s) := checkRateLimit (clock w) domain s in
      let '(go, s) :=
        if free then
          let '(open, s) := isCircuitOpen (clock w) domain s in (negb open, s)
        else (false, s) in
      if go then executeRequest (promise request) FromQueue (config request) (with_self s w)
      else processQueue_end
             (with_self (with_requestQueue (request :: requestQueue s) s) w)
  end.

Definition processQueue (w : World) : World :=
  if isProcessingQueue (self w) || bool_decide (requestQueue (self w) = []) then w
  else processQueue_loop (with_self (with_isProcessingQueue true (self w)) w).

Definition queueRequest (p : nat) (cfg : RequestConfig) (w : World) : World :=
  let queuedRequest :=
    {| id := generateId p; config := cfg; promise := p;
       qr_priority := getPriorityIndex (default medium (priority cfg));
       qr_timestamp := clock w |} in
  processQueue
    (with_self (with_requestQueue (enqueue queuedRequest (requestQueue (self w)))
                  (self w)) w).

(** [request(config)], answering promise [p], up to its first suspension. *)
Definition request (p : nat) (cfg : RequestConfig) (w : World) : World :=
  let domain := extractDomain (url cfg) in
  let '(cached, s) :=
    match truthy_key cfg with
    | Some k =>
        if negb (default false (skipCache cfg)) then getFromCache (clock w) k (self w)
        else (JNull, self w)
    | None => (JNull, self w)
    end in
  let w := with_self s w in
  if truthy cached then settle p (Resolved cached) w
  else
    let '(open, s) := isCircuitOpen (clock w) domain (self w) in
    let w := with_self s w in
    if open then
      settle p (Rejected (new_Error ("Circuit breaker is open for " +:+ domain))) w
    else
      let '(free, s) := checkRateLimit (clock w) domain (self w) in
      let w := with_self s w in
      if negb free then queueRequest p cfg w
      else executeRequest p FromRequest cfg w.

(** A call of [request] from outside: a new promise is handed out. *)
Definition call_request (cfg : RequestConfig) (w : World) : World :=
  let p := next_promise w in
  request p cfg (with_next_promise (S p) w).

(** [requests.map(async (config, index) => ...)]: each callback notes its
    start time and runs [request] up to its first suspension. *)
Definition batch_item (cfg : RequestConfig) (w : World) : World :=
  let p := next_promise w in
  request p cfg
    (with_wrappers (<[p := (clock w, cfg)]> (wrappers w)) (with_next_promise (S p) w)).

Definition call_batchRequests (cfgs : list RequestConfig) (w : World) : World :=
  foldl (λ w cfg, batch_item cfg w) w cfgs.

(** The value [batchRequests] resolves with, once every callback of the batch
    whose promises are [first], ..., [first + n - 1] has settled. *)
Definition batchRequests_result (first n : nat) (w : World)
  : option (list RequestResult) :=
  mapM (λ p, (λ result,
                match result with
                | fulfilled value => value
                | rejected => {| success := false; data := None;
                                 error := Some "Promise rejected";
                                 duration := 0; fromCache := None |}
                end) <$> outcomes w !! p)
       (seq first n).

Definition step (e : Event) (w : World) : option World :=
  match e with
  | Call_request cfg => Some (call_request cfg w)
  | Call_batchRequests cfgs => Some (call_batchRequests cfgs w)
  | Call_clearCache => Some (with_self (with_requestCache ∅ (self w)) w)
  | Fetch_settles p r =>
      fl ← flights w !! p; Some (executeRequest_resume p fl r w)
  | Timer_fires i =>
      '(due, what) ← timers w !! i;
      if due <=? clock w then
        let w := with_timers (delete i (timers w)) w in
        Some (match what with
              | Pause => processQueue_loop w
              | Reprocess => processQueue w
              end)
      else None
  | Time_passes dt =>
      if 0 <=? dt then Some (with_clock (clock w + dt) w) else None
  end.

Fixpoint run (es : list Event) (w : World) : option World :=
  match es with
  | [] => Some w
  | e :: es' => w' ← step e w; run es' w'
  end.

Definition reachable (w : World) : Prop := ∃ es, run es new_World = Some w.

(** ** Vocabulary of the statements *)

(** The consecutive-failure count the breaker of [domain] holds. *)
Definition failure_count (domain : string) (s : APIOptimizer) : Z :=
  from_option failures 0 (circuitBreaker s !! domain).

(** An answer that makes the attempt fail with an error the loop retries. *)
Definition retryable_failure (r : FetchResult) : bool :=
  match attempt_outcome r with
  | inl e => negb (no_retry e)
  | inr _ => false
  end.

(** The attempts [from], ..., [from + n - 1] of promise [p]. *)
Definition attempts (p : nat) (from : Z) (n : nat) : list (nat * Z) :=
  (λ i : nat, (p, from + Z.of_nat i)) <$> seq 0 n.

Definition attempt_of (c : FetchCall) : nat * Z := (fc_promise c, fc_attempt c).

(** The queue is ordered by the numeric priority of its entries. *)
Definition by_priority (l : list QueuedRequest) : Prop :=
  StronglySorted (λ a b, qr_priority a ≤ qr_priority b) l.






(** The record a batch callback makes of the way its request settled. *)
Definition reports (o : PromiseSettledResult) (r : Settlement) : Prop :=
  match o, r with
  | fulfilled v, Resolved payload =>
      success v = true ∧ data v = Some payload ∧ error v = None
  | fulfilled v, Rejected e =>
      success v = false ∧ data v = None ∧ error v = Some (message e)
  | rejected, _ => False
  end.

(** Book-keeping of promises: every promise in use has been handed out; a
    batch callback waits for the request of its own configuration; a
    callback has run exactly when its request has settled. *)
Record promises_ok (w : World) : Prop := {
  ok_flights : ∀ p fl, flights w !! p = Some fl →
    (p < next_promise w)%nat ∧
    ∀ st cfg, wrappers w !! p = Some (st, cfg) → f_config fl = cfg;
  ok_queue : ∀ q, q ∈ requestQueue (self w) →
    (promise q < next_promise w)%nat ∧
    ∀ st cfg, wrappers w !! promise q = Some (st, cfg) → config q = cfg;
  ok_settled : ∀ p, is_Some (settled w !! p) → (p < next_promise w)%nat;
  ok_wrappers : ∀ p, is_Some (wrappers w !! p) → (p < next_promise w)%nat;
  ok_fetched : ∀ c, c ∈ fetched w → (fc_promise c < next_promise w)%nat;
  ok_outcomes : ∀ p o, outcomes w !! p = Some o →
    ∃ st cfg r, wrappers w !! p = Some (st, cfg) ∧ settled w !! p = Some r ∧
                reports o r;
  ok_complete : ∀ p r, is_Some (wrappers w !! p) → settled w !! p = Some r →
    is_Some (outcomes w !! p)
}.

(** Whether [request] answers [cfg] from the cache: the test [if (cached)]
    on what the cache check of [request] finds. *)
Definition served_from_cache (cfg : RequestConfig) (w : World) : bool :=
  truthy
    (match truthy_key cfg with
     | Some k =>
         if negb (default false (skipCache cfg)) then getFromCache (clock w) k (self w)
         else (JNull, self w)
     | None => (JNull, self w)
     end).1.

(** Something will run the loop of [processQueue] again: its 100 ms pause
    is pending, or a fetch it made is in flight (when it settles the loop
    pauses), or, the loop not being under way, a [setTimeout] of
    [processQueue] is pending. *)
Definition wakeup_pending (w : World) : Prop :=
  (∃ due, (due, Pause) ∈ timers w) ∨
  (∃ p fl, flights w !! p = Some fl ∧ f_caller fl = FromQueue) ∨
  (isProcessingQueue (self w) = false ∧ ∃ due, (due, Reprocess) ∈ timers w).

(** The queue is never left waiting with nothing to wake its loop. *)
Definition worker_ok (w : World) : Prop :=
  isProcessingQueue (self w) = true ∨ requestQueue (self w) ≠ [] →
  wakeup_pending w.

(** One change a synchronous method makes to the private state at time
    [now].  Every piece of the event loop changes the state by a sequence of
    these ([clearCache] apart, which only its caller runs). *)
Inductive mutation (now : Z) (s : APIOptimizer) : APIOptimizer → Prop :=
| mut_checkRateLimit d : mutation now s (checkRateLimit now d s).2
| mut_isCircuitOpen d : mutation now s (isCircuitOpen now d s).2
| mut_recordFailure d : mutation now s (recordFailure now d s)
| mut_resetCircuitBreaker d : mutation now s (resetCircuitBreaker d s)
| mut_getFromCache k : mutation now s (getFromCache now k s).2
| mut_setCache k v d :
    k ≠ "" → mutation now s (setCache now k v (getCacheTTL d) s)
| mut_requestQueue q : mutation now s (with_requestQueue q s)
| mut_isProcessingQueue b : mutation now s (with_isProcessingQueue b s).

(** A breaker whose flag agrees with its count. *)
Definition breaker_ok (now : Z) (b : CircuitBreaker) : Prop :=
  0 ≤ failures b ∧ (isOpen b = true ↔ failureThreshold ≤ failures b) ∧
  lastFailure b ≤ now.

(** A limiter as [checkRateLimit] keeps them: for a domain of the table,
    within the quota, with a window that ends at most one window length from
    [now]; for a domain named like a member of [Object.prototype], with
    count 1 and no reset time at all. *)
Definition limiter_wf (now : Z) (domain : string) (l : RateLimiter) : Prop :=
  match property RATE_LIMITS domain with
  | own rl =>
      1 ≤ count l ≤ requests rl ∧ ∃ t, resetTime l = num t ∧ t ≤ now + window rl
  | inherited _ => l = {| count := 1; resetTime := NaN |}
  | undefined => False
  end.

(** The entry has not expired at [now]: the test [now > timestamp + ttl] of
    [getFromCache] and [cleanupCache] fails. *)
Definition valid (now : Z) (c : CacheEntry) : Prop := js_gt now (deadline c) = false.

(** A cache entry as [executeRequest] writes them: under a key that is not
    empty, not stamped in the future, and living 15, 30 or 60 minutes, or
    with a member of [Object.prototype] for its time to live. *)
Definition entry_ok (now : Z) (key : string) (c : CacheEntry) : Prop :=
  key ≠ "" ∧ ce_timestamp c ≤ now ∧
  (ttl c = ms (15 * 60 * 1000) ∨ ttl c = ms (30 * 60 * 1000) ∨
   ttl c = ms (60 * 60 * 1000) ∨
   ∃ name, name ∈ Object_prototype ∧ ttl c = member name).

(** [executeRequest], run for promise [p] on behalf of [caller], has come to
    its first suspension or to its end: the fetch of [p] is in flight, or
    [p] has settled, after which the loop of [processQueue] pauses. *)
Definition lands (caller : Caller) (p : nat) (w w' : World) : Prop :=
  (∃ fl, f_caller fl = caller ∧ flights w' = <[p := fl]> (flights w) ∧
         settled w' = settled w ∧ timers w' = timers w) ∨
  (∃ r, flights w' = flights w ∧ settled w' = <[p := r]> (settled w) ∧
        timers w' = timers w ++ match caller with
                                | FromQueue => [(clock w + 100, Pause)]
                                | FromRequest => []
                                end).

(** What a run of the loop of [processQueue] does up to its suspension: it
    ends, the queue being empty or its head not sendable, or it takes the
    head off and runs [executeRequest] for it. *)
Definition loop_shape (w w' : World) : Prop :=
  (flights w' = flights w ∧ settled w' = settled w ∧
   requestQueue (self w') = requestQueue (self w) ∧
   isProcessingQueue (self w') = false ∧
   timers w' = timers w ++ match requestQueue (self w) with
                           | [] => []
                           | _ :: _ => [(clock w + 1000, Reprocess)]
                           end) ∨
  (∃ q rest, requestQueue (self w) = q :: rest ∧
             requestQueue (self w') = rest ∧
             isProcessingQueue (self w') = isProcessingQueue (self w) ∧
             lands FromQueue (promise q) w w').

(** The promises waiting in the queue. *)
Definition waiting (w : World) : list nat := promise <$> requestQueue (self w).

(** A promise is in one place at most: no promise waits twice, a waiting
    promise has no fetch in flight and has not settled, a promise with a
    fetch in flight has not settled. *)
Record places_ok (w : World) : Prop := {
  po_nodup : NoDup (waiting w);
  po_queue : ∀ p, p ∈ waiting w → flights w !! p = None ∧ settled w !! p = None;
  po_flight : ∀ p, is_Some (flights w !! p) → settled w !! p = None
}.

(** The promise has settled, has a fetch in flight, or waits in the queue. *)
Definition placed (w : World) (p : nat) : Prop :=
  is_Some (settled w !! p) ∨ is_Some (flights w !! p) ∨ p ∈ waiting w.

(** From [w] to [w'] every promise has kept a place, no settled promise
    has changed, and no promise is in two places. *)
Definition advances (w w' : World) : Prop :=
  places_ok w' ∧ settled w ⊆ settled w' ∧ ∀ p, placed w p → placed w' p.

(** The continuations of the loop of [processQueue] that are pending: its
    100 ms pauses and the fetches it awaits. *)
Definition drain_wakeups (w : World) : nat :=
  (length (filter (λ t : Z * Timer, t.2 = Pause) (timers w)) +
   size (filter (λ pf : nat * Flight, f_caller pf.2 = FromQueue) (flights w)))%nat.

(** The request finds under its key a valid entry with a truthy payload, and
    does not skip the cache. *)
Definition cache_hit (now : Z) (s : APIOptimizer) (cfg : RequestConfig) : Prop :=
  ∃ k c, truthy_key cfg = Some k ∧ default false (skipCache cfg) = false ∧
         requestCache s !! k = Some c ∧ valid now c ∧
         truthy (ce_data c) = true.

(** The record a batch callback makes of a request answered from the cache
    in the turn of the call. *)
Definition hit_record (s : APIOptimizer) (cfg : RequestConfig) : RequestResult :=
  {| success := true;
     data := ce_data <$> (truthy_key cfg ≫= λ k, requestCache s !! k);
     error := None; duration := 0; fromCache := Some true |}.

(** A queue entry as [queueRequest] makes them: for a domain under which
    the lookup in the rate-limit table finds something, with the priority
    number of its configuration. *)
Definition queued_ok (q : QueuedRequest) : Prop :=
  property RATE_LIMITS (extractDomain (url (config q))) ≠ undefined ∧
  qr_priority q = getPriorityIndex (default medium (priority (config q))).

(** How a promise settles without an answer of the network: it resolves
    with the truthy payload of a cache entry, or it rejects because the
    breaker is open or because the retry count leaves no attempt. *)
Definition settled_at_admission (s : APIOptimizer) (r : Settlement) : Prop :=
  match r with
  | Resolved v => truthy v = true ∧ ∃ k c, requestCache s !! k = Some c ∧ ce_data c = v
  | Rejected err =>
      (∃ d, err = new_Error ("Circuit breaker is open for " +:+ d)) ∨
      err = new_Error "Request failed after all retries"
  end.


(** From [w] to [w'] the cache has gained nothing and every promise that
    has settled did so at admission, [s0] being the state the event
    found. *)
Definition only_admission (s0 : APIOptimizer) (w w' : World) : Prop :=
  requestCache (self w') ⊆ requestCache (self w) ∧
  ∀ p r, settled w' !! p = Some r →
         settled w !! p = Some r ∨ settled_at_admission s0 r.

(** While the flag of [processQueue] is set its loop has exactly one pending
    continuation; while it is clear the loop has none. *)
Definition one_cycle (w : World) : Prop :=
  drain_wakeups w = if isProcessingQueue (self w) then 1%nat else 0%nat.




(** In the queue [l] the entry [x] is [q] or waits behind it. *)
Definition behind (q x : QueuedRequest) (l : list QueuedRequest) : Prop :=
  ∃ l1 l2, l = l1 ++ q :: l2 ∧ x ∈ q :: l2.

(** * Properties *)

(** ** What each piece leaves alone *)

Lemma getFromCache_frame now k s :
  rateLimiter (getFromCache now k s).2 = rateLimiter s ∧
  circuitBreaker (getFromCache now k s).2 = circuitBreaker s ∧
  requestQueue (getFromCache now k s).2 = requestQueue s ∧
  isProcessingQueue (getFromCache now k s).2 = isProcessingQueue s.
Proof.
  unfold getFromCache. destruct (requestCache s !! k) as [c|]; [|done].
  by destruct (js_gt _ _).
Qed.

Lemma batch_callback_frame now st cfg r s :
  rateLimiter (batch_callback now st cfg r s).2 = rateLimiter s ∧
  circuitBreaker (batch_callback now st cfg r s).2 = circuitBreaker s ∧
  requestQueue (batch_callback now st cfg r s).2 = requestQueue s ∧
  isProcessingQueue (batch_callback now st cfg r s).2 = isProcessingQueue s.
Proof.
  unfold batch_callback. destruct r as [v|e]; [|done].
  destruct (truthy_key cfg) as [k|]; [|done].
  pose proof (getFromCache_frame now k s) as H.
  by destruct (getFromCache now k s).
Qed.

Lemma settle_frame p r w :
  clock (settle p r w) = clock w ∧ flights (settle p r w) = flights w ∧
  timers (settle p r w) = timers w ∧ fetched (settle p r w) = fetched w ∧
  wrappers (settle p r w) = wrappers w ∧
  next_promise (settle p r w) = next_promise w ∧
  settled (settle p r w) = <[p := r]> (settled w) ∧
  rateLimiter (self (settle p r w)) = rateLimiter (self w) ∧
  circuitBreaker (self (settle p r w)) = circuitBreaker (self w) ∧
  requestQueue (self (settle p r w)) = requestQueue (self w) ∧
  isProcessingQueue (self (settle p r w)) = isProcessingQueue (self w).
Proof.
  unfold settle; simpl. destruct (wrappers w !! p) as [[st cfg]|]; [|done].
  pose proof (batch_callback_frame (clock w) st cfg r (self w)) as H.
  by destruct (batch_callback (clock w) st cfg r (self w)).
Qed.

Lemma finish_frame p caller r w :
  clock (finish p caller r w) = clock w ∧ flights (finish p caller r w) = flights w ∧
  fetched (finish p caller r w) = fetched w ∧
  wrappers (finish p caller r w) = wrappers w ∧
  next_promise (finish p caller r w) = next_promise w ∧
  settled (finish p caller r w) = <[p := r]> (settled w) ∧
  rateLimiter (self (finish p caller r w)) = rateLimiter (self w) ∧
  circuitBreaker (self (finish p caller r w)) = circuitBreaker (self w) ∧
  requestQueue (self (finish p caller r w)) = requestQueue (self w) ∧
  isProcessingQueue (self (finish p caller r w)) = isProcessingQueue (self w).
Proof.
  destruct (settle_frame p r w) as (?&?&?&?&?&?&?&?&?&?&?).
  destruct caller; simpl; repeat split; assumption.
Qed.

Lemma failure_count_recordFailure now d s :
  failure_count d (recordFailure now d s) = failure_count d s + 1.
Proof.
  unfold failure_count, recordFailure; simpl. rewrite lookup_insert_eq; simpl.
  by destruct (circuitBreaker s !! d).
Qed.

(** ** Table lookups *)

Lemma property_own {A} (table : gmap string A) key v :
  table !! key = Some v → property table key = own v.
Proof. unfold property. by intros ->. Qed.

Lemma property_inv {A} (table : gmap string A) key :
  match property table key with
  | own v => table !! key = Some v
  | inherited name => name = key ∧ table !! key = None ∧ key ∈ Object_prototype
  | undefined => table !! key = None ∧ key ∉ Object_prototype
  end.
Proof.
  unfold property. destruct (table !! key); [done|].
  destruct (bool_decide _) eqn:H.
  - by apply bool_decide_eq_true in H.
  - by apply bool_decide_eq_false in H.
Qed.

(** For a domain of the table the limiter counts against the quota of the
    table, and a new window ends [window] milliseconds from now. *)
Lemma checkRateLimit_own now d s rl :
  RATE_LIMITS !! d = Some rl →
  checkRateLimit now d s
  = let fresh :=
      with_rateLimiter
        (<[d := {| count := 1; resetTime := num (now + window rl) |}]>
           (rateLimiter s)) s in
    match rateLimiter s !! d with
    | None => (true, fresh)
    | Some limiter =>
        if js_ge now (resetTime limiter) then (true, fresh)
        else if count limiter <? requests rl then
          (true,
           with_rateLimiter
             (<[d := {| count := count limiter + 1;
                        resetTime := resetTime limiter |}]> (rateLimiter s)) s)
        else (false, s)
    end.
Proof. intros H. unfold checkRateLimit. by rewrite (property_own _ _ _ H). Qed.

(** For a domain named like a member of [Object.prototype] the limiter lets
    one request through and none after it. *)
Lemma checkRateLimit_inherited now d s :
  RATE_LIMITS !! d = None → d ∈ Object_prototype →
  checkRateLimit now d s
  = match rateLimiter s !! d with
    | None =>
        (true,
         with_rateLimiter (<[d := {| count := 1; resetTime := NaN |}]> (rateLimiter s)) s)
    | Some limiter =>
        if js_ge now (resetTime limiter) then
          (true,
           with_rateLimiter (<[d := {| count := 1; resetTime := NaN |}]> (rateLimiter s)) s)
        else (false, s)
    end.
Proof.
  intros H1 H2. unfold checkRateLimit, property. rewrite H1.
  rewrite bool_decide_eq_true_2 by done. simpl.
  destruct (rateLimiter s !! d); [|done]. by destruct (js_ge _ _).
Qed.

(** For any other domain there is no limit. *)
Lemma checkRateLimit_undefined now d s :
  property RATE_LIMITS d = undefined → checkRateLimit now d s = (true, s).
Proof. intros H. unfold checkRateLimit. by rewrite H. Qed.

Lemma checkRateLimit_frame now d s :
  requestCache (checkRateLimit now d s).2 = requestCache s ∧
  circuitBreaker (checkRateLimit now d s).2 = circuitBreaker s ∧
  requestQueue (checkRateLimit now d s).2 = requestQueue s ∧
  isProcessingQueue (checkRateLimit now d s).2 = isProcessingQueue s.
Proof.
  unfold checkRateLimit.
  destruct (property RATE_LIMITS d); [| |done];
    (destruct (rateLimiter s !! d); [|done];
     destruct (js_ge _ _); [done|]; by destruct (js_lt _ _)).
Qed.

Lemma isCircuitOpen_frame now d s :
  requestCache (isCircuitOpen now d s).2 = requestCache s ∧
  rateLimiter (isCircuitOpen now d s).2 = rateLimiter s ∧
  requestQueue (isCircuitOpen now d s).2 = requestQueue s ∧
  isProcessingQueue (isCircuitOpen now d s).2 = isProcessingQueue s.
Proof.
  unfold isCircuitOpen. destruct (circuitBreaker s !! d) as [b|]; [|done].
  destruct (isOpen b); [|done]. by destruct (_ >? _).
Qed.

Lemma executeRequest_loop_frame p caller cfg a le w :
  clock (executeRequest_loop p caller cfg a le w) = clock w ∧
  wrappers (executeRequest_loop p caller cfg a le w) = wrappers w ∧
  next_promise (executeRequest_loop p caller cfg a le w) = next_promise w ∧
  rateLimiter (self (executeRequest_loop p caller cfg a le w)) = rateLimiter (self w) ∧
  circuitBreaker (self (executeRequest_loop p caller cfg a le w))
    = circuitBreaker (self w) ∧
  requestQueue (self (executeRequest_loop p caller cfg a le w))
    = requestQueue (self w) ∧
  isProcessingQueue (self (executeRequest_loop p caller cfg a le w))
    = isProcessingQueue (self w).
Proof.
  unfold executeRequest_loop. destruct (_ <=? _); [done|].
  destruct (finish_frame p caller
              (Rejected (default (new_Error "Request failed after all retries") le)) w)
    as (?&?&?&?&?&?&?&?&?&?).
  repeat split; assumption.
Qed.

Lemma setCache_frame now k v t s :
  rateLimiter (setCache now k v t s) = rateLimiter s ∧
  circuitBreaker (setCache now k v t s) = circuitBreaker s ∧
  requestQueue (setCache now k v t s) = requestQueue s ∧
  isProcessingQueue (setCache now k v t s) = isProcessingQueue s.
Proof. unfold setCache. by destruct (_ <? _)%nat. Qed.

Lemma executeRequest_resume_frame p fl r w :
  clock (executeRequest_resume p fl r w) = clock w ∧
  wrappers (executeRequest_resume p fl r w) = wrappers w ∧
  next_promise (executeRequest_resume p fl r w) = next_promise w ∧
  rateLimiter (self (executeRequest_resume p fl r w)) = rateLimiter (self w) ∧
  requestQueue (self (executeRequest_resume p fl r w)) = requestQueue (self w) ∧
  isProcessingQueue (self (executeRequest_resume p fl r w))
    = isProcessingQueue (self w).
Proof.
  unfold executeRequest_resume. destruct (attempt_outcome r) as [e|v].
  - destruct (no_retry e).
    + match goal with |- context [finish ?p ?c ?r ?w] =>
        destruct (finish_frame p c r w) as (?&?&?&?&?&?&?&?&?&?) end.
      repeat split; assumption.
    + match goal with |- context [executeRequest_loop ?p ?c ?g ?a ?l ?w] =>
        destruct (executeRequest_loop_frame p c g a l w) as (?&?&?&?&?&?&?) end.
      repeat split; assumption.
  - match goal with |- context [finish ?p ?c ?r ?w] =>
      destruct (finish_frame p c r w) as (?&?&?&?&?&?&Hrl&?&Hq&Hi) end.
    rewrite Hrl, Hq, Hi. simpl.
    destruct (truthy_key (f_config fl)) as [k|]; [|repeat split; assumption].
    match goal with |- context [setCache ?n ?k ?v ?t ?s] =>
      destruct (setCache_frame n k v t s) as (->&_&->&->) end.
    repeat split; assumption.
Qed.

(** ** The queue *)

(** The loop of [processQueue] either leaves the queue as it is or takes
    its head off. *)
Lemma processQueue_end_frame w :
  clock (processQueue_end w) = clock w ∧ flights (processQueue_end w) = flights w ∧
  fetched (processQueue_end w) = fetched w ∧ settled (processQueue_end w) = settled w ∧
  wrappers (processQueue_end w) = wrappers w ∧
  outcomes (processQueue_end w) = outcomes w ∧
  next_promise (processQueue_end w) = next_promise w ∧
  requestCache (self (processQueue_end w)) = requestCache (self w) ∧
  rateLimiter (self (processQueue_end w)) = rateLimiter (self w) ∧
  circuitBreaker (self (processQueue_end w)) = circuitBreaker (self w) ∧
  requestQueue (self (processQueue_end w)) = requestQueue (self w) ∧
  isProcessingQueue (self (processQueue_end w)) = false.
Proof.
  unfold processQueue_end; simpl.
  destruct (requestQueue (self w)) eqn:Hq; simpl; by rewrite ?Hq.
Qed.

Lemma processQueue_loop_queue w :
  requestQueue (self (processQueue_loop w)) = requestQueue (self w) ∨
  requestQueue (self (processQueue_loop w)) = tail (requestQueue (self w)).
Proof.
  unfold processQueue_loop.
  destruct (requestQueue (self w)) as [|q rest] eqn:Hq; simpl.
  { left. destruct (processQueue_end_frame w) as (_&_&_&_&_&_&_&_&_&_&->&_). done. }
  destruct (checkRateLimit_frame (clock w) (extractDomain (url (config q)))
              (with_requestQueue rest (self w))) as (_ & _ & Hq1 & _).
  destruct (checkRateLimit _ _ _) as [free s1]. simpl in Hq1.
  destruct free.
  - destruct (isCircuitOpen_frame (clock w) (extractDomain (url (config q))) s1)
      as (_ & _ & Hq2 & _).
    destruct (isCircuitOpen _ _ _) as [open s2]. simpl in Hq2.
    destruct open; simpl.
    + left. congruence.
    + right. unfold executeRequest.
      match goal with |- context [executeRequest_loop ?p ?c ?g ?a ?l ?w] =>
        destruct (executeRequest_loop_frame p c g a l w) as (_&_&_&_&_&->&_) end.
      simpl. congruence.
  - left. match goal with |- context [processQueue_end ?w] =>
      destruct (processQueue_end_frame w) as (_&_&_&_&_&_&_&_&_&_&->&_) end.
    simpl. congruence.
Qed.

Lemma processQueue_queue w :
  requestQueue (self (processQueue w)) = requestQueue (self w) ∨
  requestQueue (self (processQueue w)) = tail (requestQueue (self w)).
Proof.
  unfold processQueue. destruct (_ || _); [by left|].
  exact (processQueue_loop_queue
           (with_self (with_isProcessingQueue true (self w)) w)).
Qed.

(** [request] leaves the queue alone, or inserts its own entry, after which
    [processQueue] may take the head off. *)
Lemma request_queue p cfg w :
  let q := {| id := generateId p; config := cfg; promise := p;
              qr_priority := getPriorityIndex (default medium (priority cfg));
              qr_timestamp := clock w |} in
  requestQueue (self (request p cfg w)) = requestQueue (self w) ∨
  requestQueue (self (request p cfg w)) = enqueue q (requestQueue (self w)) ∨
  requestQueue (self (request p cfg w)) = tail (enqueue q (requestQueue (self w))).
Proof.
  intros q. unfold request.
  set (c := match truthy_key cfg with Some _ => _ | None => _ end).
  assert (requestQueue c.2 = requestQueue (self w)) as Hc.
  { subst c. destruct (truthy_key cfg) as [k|]; [|done].
    destruct (negb _); [|done]. apply getFromCache_frame. }
  destruct c as [cached s0]. simpl in Hc.
  destruct (truthy cached).
  { left. destruct (settle_frame p (Resolved cached) (with_self s0 w))
      as (_&_&_&_&_&_&_&_&_&->&_). done. }
  cbn [self clock with_self].
  destruct (isCircuitOpen_frame (clock w) (extractDomain (url cfg)) s0)
    as (_ & _ & Hq1 & _).
  destruct (isCircuitOpen _ _ _) as [open s1]. simpl in Hq1.
  destruct open.
  { left. match goal with |- context [settle ?p ?r ?w] =>
      destruct (settle_frame p r w) as (_&_&_&_&_&_&_&_&_&->&_) end.
    simpl. congruence. }
  destruct (checkRateLimit_frame (clock w) (extractDomain (url cfg)) s1)
    as (_ & _ & Hq2 & _).
  destruct (checkRateLimit _ _ _) as [free s2]. simpl in Hq2.
  destruct free; simpl.
  - left. unfold executeRequest.
    match goal with |- context [executeRequest_loop ?p ?c ?g ?a ?l ?w] =>
      destruct (executeRequest_loop_frame p c g a l w) as (_&_&_&_&_&->&_) end.
    simpl. congruence.
  - right. unfold queueRequest.
    match goal with |- context [processQueue ?w] =>
      destruct (processQueue_queue w) as [-> | ->] end;
      simpl; rewrite Hq2, Hq1, Hc; fold q; auto.
Qed.

Lemma enqueue_cons q x l :
  enqueue q (x :: l)
  = if qr_priority q <? qr_priority x then q :: x :: l else x :: enqueue q l.
Proof.
  unfold enqueue; simpl. destruct (_ <? _); [done|].
  by destruct (findIndex _ l).
Qed.

(** The new entry goes behind every entry whose priority number is not
    greater than its own and before the first one whose number is greater;
    the other entries keep their order. *)
Lemma enqueue_position q l :
  ∃ l1 l2,
    l = l1 ++ l2 ∧ enqueue q l = l1 ++ q :: l2 ∧
    Forall (λ x, qr_priority x ≤ qr_priority q) l1 ∧
    (by_priority l → Forall (λ x, qr_priority q < qr_priority x) l2).
Proof.
  induction l as [|x l IH].
  { exists [], []. repeat split; constructor. }
  rewrite enqueue_cons. destruct (qr_priority q <? qr_priority x) eqn:Hlt.
  - apply Z.ltb_lt in Hlt. exists [], (x :: l). repeat split; [constructor|].
    intros Hs. apply StronglySorted_inv in Hs as [_ Hx].
    constructor; [done|]. eapply Forall_impl; [exact Hx|]. simpl; intros; lia.
  - apply Z.ltb_ge in Hlt. destruct IH as (l1 & l2 & -> & -> & H1 & H2).
    exists (x :: l1), l2. repeat split; [by constructor|].
    intros Hs. apply StronglySorted_inv in Hs as [Hs _]. auto.
Qed.

Lemma enqueue_by_priority q l : by_priority l → by_priority (enqueue q l).
Proof.
  unfold by_priority. induction l as [|x l IH]; intros Hs.
  { repeat constructor. }
  rewrite enqueue_cons. destruct (qr_priority q <? qr_priority x) eqn:Hlt.
  - apply Z.ltb_lt in Hlt. constructor; [done|].
    apply StronglySorted_inv in Hs as [_ Hx].
    constructor; [lia|]. eapply Forall_impl; [exact Hx|]. simpl; intros; lia.
  - apply Z.ltb_ge in Hlt. apply StronglySorted_inv in Hs as [Hs Hx].
    constructor; [auto|].
    destruct (enqueue_position q l) as (l1 & l2 & -> & -> & _ & _).
    apply Forall_app in Hx as [Hx1 Hx2].
    apply Forall_app; split; [done|]. by constructor.
Qed.

Lemma tail_by_priority l : by_priority l → by_priority (tail l).
Proof.
  destruct l; [done|]. intros Hs. by apply StronglySorted_inv in Hs as [Hs _].
Qed.

Lemma request_by_priority p cfg w :
  by_priority (requestQueue (self w)) →
  by_priority (requestQueue (self (request p cfg w))).
Proof.
  intros Hs. destruct (request_queue p cfg w) as [-> | [-> | ->]];
    auto using enqueue_by_priority, tail_by_priority.
Qed.

Lemma call_batchRequests_by_priority cfgs w :
  by_priority (requestQueue (self w)) →
  by_priority (requestQueue (self (call_batchRequests cfgs w))).
Proof.
  unfold call_batchRequests. revert w.
  induction cfgs as [|cfg cfgs IH]; intros w Hs; [done|].
  simpl. apply IH. unfold batch_item. by apply request_by_priority.
Qed.

Lemma step_by_priority e w w' :
  by_priority (requestQueue (self w)) → step e w = Some w' →
  by_priority (requestQueue (self w')).
Proof.
  intros Hs Hstep. destruct e as [cfg|cfgs| |p r|i|dt]; simpl in Hstep.
  - injection Hstep as <-. by apply request_by_priority.
  - injection Hstep as <-. by apply call_batchRequests_by_priority.
  - by injection Hstep as <-.
  - destruct (flights w !! p) as [fl|]; [|done]. injection Hstep as <-.
    destruct (executeRequest_resume_frame p fl r w) as (_&_&_&_&->&_). done.
  - destruct (timers w !! i) as [[due what]|]; [|done]. simpl in Hstep.
    destruct (due <=? clock w); [|done]. injection Hstep as <-.
    destruct what.
    + match goal with |- context [processQueue_loop ?w] =>
        destruct (processQueue_loop_queue w) as [-> | ->] end;
        auto using tail_by_priority.
    + match goal with |- context [processQueue ?w] =>
        destruct (processQueue_queue w) as [-> | ->] end;
        auto using tail_by_priority.
  - destruct (0 <=? dt); [|done]. by injection Hstep as <-.
Qed.

(** ** Reachable worlds *)

Lemma run_app es1 es2 w : run (es1 ++ es2) w = run es1 w ≫= run es2.
Proof.
  revert w. induction es1 as [|e es1 IH]; intros w; [done|].
  simpl. destruct (step e w); simpl; auto.
Qed.


Lemma reachable_step e w w' : reachable w → step e w = Some w' → reachable w'.
Proof.
  intros [es Hes] Hstep. exists (es ++ [e]).
  rewrite run_app, Hes. simpl. by rewrite Hstep.
Qed.


(** Whatever holds of the new optimizer and survives every event holds of
    every reachable world. *)
Lemma reachable_invariant (P : World → Prop) :
  P new_World →
  (∀ e w w', reachable w → P w → step e w = Some w' → P w') →
  ∀ w, reachable w → P w.
Proof.
  intros Hnew Hstep w [es Hes]. revert w Hes.
  induction es as [|e es IH] using rev_ind; intros w Hes.
  - by injection Hes as <-.
  - rewrite run_app in Hes.
    destruct (run es new_World) as [w0|] eqn:Hw0; [|done]. simpl in Hes.
    destruct (step e w0) as [w1|] eqn:Hw1; [|done]. injection Hes as <-.
    apply (Hstep e w0); [by exists es|auto|done].
Qed.

(** In every reachable world the queue is ordered by priority number, and
    [enqueue_position] makes entries of one number leave in the order they
    came. *)
Lemma requestQueue_by_priority w :
  reachable w → by_priority (requestQueue (self w)).
Proof.
  apply (reachable_invariant (λ w, by_priority (requestQueue (self w)))).
  - constructor.
  - intros e w0 w1 _. apply step_by_priority.
Qed.

(** The priority number of [high] is that of [medium]: [priorities.high]
    is [0], which [||] replaces by [1]. *)
Lemma getPriorityIndex_values :
  getPriorityIndex high = 1 ∧ getPriorityIndex medium = 1 ∧ getPriorityIndex low = 2.
Proof. done. Qed.

(** ** The rate limiter *)

Lemma RATE_LIMITS_positive d rl :
  RATE_LIMITS !! d = Some rl → 1 ≤ requests rl ∧ 0 < window rl.
Proof.
  intros H. apply elem_of_list_to_map_2 in H.
  repeat (apply elem_of_cons in H as [H|H]; [injection H as -> ->; simpl; lia|]).
  by apply elem_of_nil in H.
Qed.





(** A check of the limiter leaves the limiters of the other domains as they
    are. *)
Lemma checkRateLimit_other now d s d' :
  d ≠ d' → rateLimiter (checkRateLimit now d s).2 !! d' = rateLimiter s !! d'.
Proof.
  intros Hne. unfold checkRateLimit.
  destruct (property RATE_LIMITS d); [| |done];
    (destruct (rateLimiter s !! d); [|by simpl; rewrite lookup_insert_ne];
     destruct (js_ge _ _); [by simpl; rewrite lookup_insert_ne|];
     destruct (js_lt _ _); [by simpl; rewrite lookup_insert_ne|done]).
Qed.
















(** ** Promises *)

Lemma batch_callback_reports now st cfg r s :
  reports (batch_callback now st cfg r s).1 r.
Proof.
  unfold batch_callback. destruct r as [v|e]; [|done].
  destruct (truthy_key cfg) as [k|]; [|done]. by destruct (getFromCache now k s).
Qed.

Lemma settle_outcomes p r w :
  outcomes (settle p r w)
  = match wrappers w !! p with
    | Some (st, cfg) =>
        <[p := (batch_callback (clock w) st cfg r (self w)).1]> (outcomes w)
    | None => outcomes w
    end.
Proof.
  unfold settle; simpl. destruct (wrappers w !! p) as [[st cfg]|]; [|done].
  by destruct (batch_callback (clock w) st cfg r (self w)).
Qed.

Lemma promises_ok_settle p r w :
  promises_ok w → (p < next_promise w)%nat → promises_ok (settle p r w).
Proof.
  intros [Hfl Hq Hs Hw Hf Ho Hc] Hp.
  destruct (settle_frame p r w) as (_&Efl&_&Efe&Ewr&Enp&Ese&_&_&Eq&_).
  pose proof (settle_outcomes p r w) as Eo.
  split; rewrite ?Efl, ?Efe, ?Ewr, ?Enp, ?Ese, ?Eq, ?Eo; try done.
  - intros p'. rewrite lookup_insert. destruct (decide (p = p')) as [<-|]; auto.
  - intros p' o. destruct (wrappers w !! p) as [[st cfg]|] eqn:Hwp.
    + rewrite !lookup_insert. destruct (decide (p = p')) as [<-|]; [|by apply Ho].
      intros [= <-]. exists st, cfg, r. split; [done|]. split; [done|].
      apply batch_callback_reports.
    + intros Hop. destruct (Ho p' o Hop) as (st & cfg & r' & Hwp' & Hsp' & Hrep).
      rewrite lookup_insert. destruct (decide (p = p')) as [<-|]; [congruence|].
      by exists st, cfg, r'.
  - intros p' r'. rewrite lookup_insert.
    destruct (decide (p = p')) as [<-|Hne].
    + intros [[st cfg] Hwp] _. rewrite Hwp, lookup_insert_eq. by eexists.
    + intros Hwp Hsp. destruct (wrappers w !! p) as [[st cfg]|]; [|by eapply Hc].
      rewrite lookup_insert_ne by done. by eapply Hc.
Qed.

Lemma promises_ok_timers t w : promises_ok w → promises_ok (with_timers t w).
Proof. by intros []. Qed.

Lemma promises_ok_finish p caller r w :
  promises_ok w → (p < next_promise w)%nat → promises_ok (finish p caller r w).
Proof.
  intros Hw Hp. destruct caller; simpl; [by apply promises_ok_settle|].
  by apply promises_ok_timers, promises_ok_settle.
Qed.

Lemma promises_ok_self s w :
  (∀ q, q ∈ requestQueue s → q ∈ requestQueue (self w)) →
  promises_ok w → promises_ok (with_self s w).
Proof. intros Hsub [Hfl Hq Hs Hw Hf Ho Hc]. split; simpl; auto. Qed.

Lemma promises_ok_flights_delete p w :
  promises_ok w → promises_ok (with_flights (delete p (flights w)) w).
Proof.
  intros [Hfl Hq Hs Hw Hf Ho Hc]. split; simpl; auto.
  intros p' fl' [_ H]%lookup_delete_Some. auto.
Qed.

Lemma promises_ok_loop p caller cfg a le w :
  promises_ok w → (p < next_promise w)%nat →
  (∀ st cfg', wrappers w !! p = Some (st, cfg') → cfg = cfg') →
  promises_ok (executeRequest_loop p caller cfg a le w).
Proof.
  intros Hw Hp Hcfg. unfold executeRequest_loop.
  destruct (_ <=? _); [|by apply promises_ok_finish].
  destruct Hw as [Hfl Hq Hs Hw Hf Ho Hc]. split; simpl; auto.
  - intros p' fl'. rewrite lookup_insert.
    destruct (decide (p = p')) as [<-|]; [|by apply Hfl].
    intros [= <-]. split; [done|]. simpl. eauto.
  - intros c [Hc'|Hc']%elem_of_app; [auto|].
    apply list_elem_of_singleton in Hc' as ->. done.
Qed.

Lemma promises_ok_resume p fl r w :
  promises_ok w → flights w !! p = Some fl →
  promises_ok (executeRequest_resume p fl r w).
Proof.
  intros Hw Hp. destruct (ok_flights w Hw p fl Hp) as [Hlt Hcfg].
  apply (promises_ok_flights_delete p) in Hw.
  unfold executeRequest_resume. destruct (attempt_outcome r) as [e|v].
  - assert (promises_ok
              (with_self
                 (recordFailure (clock (with_flights (delete p (flights w)) w))
                    (extractDomain (url (f_config fl)))
                    (self (with_flights (delete p (flights w)) w)))
                 (with_flights (delete p (flights w)) w))) as Hw'
      by (by apply promises_ok_self).
    destruct (no_retry e); [by apply promises_ok_finish|].
    apply promises_ok_loop; [done|done|]. simpl. intros st cfg' H. eauto.
  - apply promises_ok_finish; [|done]. apply promises_ok_self; [|done]. simpl.
    destruct (truthy_key (f_config fl)) as [k|]; [|done].
    match goal with |- context [setCache ?n ?k ?v ?t ?s] =>
      destruct (setCache_frame n k v t s) as (_&_&->&_) end. done.
Qed.

Lemma promises_ok_processQueue_end w :
  promises_ok w → promises_ok (processQueue_end w).
Proof.
  intros Hw. unfold processQueue_end. simpl.
  destruct (requestQueue (self w)) eqn:Hq.
  - apply promises_ok_self; [|done]. simpl. by rewrite Hq.
  - apply promises_ok_timers, promises_ok_self; [|done]. simpl. by rewrite Hq.
Qed.

Lemma promises_ok_processQueue_loop w :
  promises_ok w → promises_ok (processQueue_loop w).
Proof.
  intros Hw. unfold processQueue_loop.
  destruct (requestQueue (self w)) as [|q rest] eqn:Hq;
    [by apply promises_ok_processQueue_end|].
  destruct (ok_queue w Hw q) as [Hlt Hcfg]; [rewrite Hq; by left|].
  destruct (checkRateLimit_frame (clock w) (extractDomain (url (config q)))
              (with_requestQueue rest (self w))) as (_ & _ & Hq1 & _).
  destruct (checkRateLimit _ _ _) as [free s1]. simpl in Hq1.
  destruct free.
  - destruct (isCircuitOpen_frame (clock w) (extractDomain (url (config q))) s1)
      as (_ & _ & Hq2 & _).
    destruct (isCircuitOpen _ _ _) as [open s2]. simpl in Hq2.
    destruct open; cbn [negb].
    + apply promises_ok_processQueue_end, promises_ok_self; [|done]. simpl.
      by rewrite Hq2, Hq1, Hq.
    + apply promises_ok_loop; simpl; [|done|intros; eauto].
      apply promises_ok_self; [|done]. rewrite Hq2, Hq1, Hq. intros q'. by right.
  - apply promises_ok_processQueue_end, promises_ok_self; [|done]. simpl.
    by rewrite Hq1, Hq.
Qed.

Lemma promises_ok_processQueue w : promises_ok w → promises_ok (processQueue w).
Proof.
  intros Hw. unfold processQueue. destruct (_ || _); [done|].
  apply promises_ok_processQueue_loop, promises_ok_self; [|done]. done.
Qed.

Lemma elem_of_enqueue q0 l q : q ∈ enqueue q0 l → q = q0 ∨ q ∈ l.
Proof.
  destruct (enqueue_position q0 l) as (l1 & l2 & -> & -> & _).
  rewrite !elem_of_app, elem_of_cons. tauto.
Qed.

Lemma promises_ok_request p cfg w :
  promises_ok w → (p < next_promise w)%nat →
  (∀ st cfg', wrappers w !! p = Some (st, cfg') → cfg = cfg') →
  promises_ok (request p cfg w).
Proof.
  intros Hw Hp Hcfg. unfold request.
  set (c := match truthy_key cfg with Some _ => _ | None => _ end).
  assert (requestQueue c.2 = requestQueue (self w)) as Hc.
  { subst c. destruct (truthy_key cfg) as [k|]; [|done].
    destruct (negb _); [|done]. apply getFromCache_frame. }
  destruct c as [cached s0]. simpl in Hc.
  assert (promises_ok (with_self s0 w)) as Hw0
    by (apply promises_ok_self; [by rewrite Hc|done]).
  destruct (truthy cached); [by apply promises_ok_settle|].
  cbn [self clock with_self].
  destruct (isCircuitOpen_frame (clock w) (extractDomain (url cfg)) s0)
    as (_ & _ & Hq1 & _).
  destruct (isCircuitOpen _ _ _) as [open s1]. simpl in Hq1.
  assert (promises_ok (with_self s1 (with_self s0 w))) as Hw1
    by (apply promises_ok_self; [simpl; by rewrite Hq1|done]).
  destruct open; [by apply promises_ok_settle|].
  destruct (checkRateLimit_frame (clock w) (extractDomain (url cfg)) s1)
    as (_ & _ & Hq2 & _).
  destruct (checkRateLimit _ _ _) as [free s2]. simpl in Hq2.
  assert (promises_ok (with_self s2 (with_self s1 (with_self s0 w)))) as Hw2
    by (apply promises_ok_self; [simpl; by rewrite Hq2|done]).
  destruct free; cbn [negb].
  - by apply promises_ok_loop.
  - unfold queueRequest. apply promises_ok_processQueue.
    destruct Hw2 as [Hfl Hq Hs Hwr Hf Ho Hco]. split; simpl; auto.
    intros q [->|Hin]%elem_of_enqueue; simpl.
    + split; [done|]. intros st cfg' H. eauto.
    + by apply Hq.
Qed.

Lemma promises_ok_next w :
  promises_ok w → promises_ok (with_next_promise (S (next_promise w)) w).
Proof.
  intros [Hfl Hq Hs Hw Hf Ho Hc]. split; simpl; auto.
  - intros p fl H. destruct (Hfl p fl H). split; [lia|done].
  - intros q H. destruct (Hq q H). split; [lia|done].
  - intros p H. specialize (Hs p H). lia.
  - intros p H. specialize (Hw p H). lia.
  - intros c H. specialize (Hf c H). lia.
Qed.

Lemma promises_ok_call_request cfg w :
  promises_ok w → promises_ok (call_request cfg w).
Proof.
  intros Hw. unfold call_request.
  apply promises_ok_request; [by apply promises_ok_next|simpl; lia|].
  simpl. intros st cfg' H. pose proof (ok_wrappers w Hw (next_promise w)) as Hlt.
  rewrite H in Hlt. specialize (Hlt (mk_is_Some _ _ eq_refl)). lia.
Qed.

Lemma promises_ok_batch_item cfg w :
  promises_ok w → promises_ok (batch_item cfg w).
Proof.
  intros Hw. unfold batch_item.
  apply promises_ok_request; [|simpl; lia|].
  - destruct Hw as [Hfl Hq Hs Hw Hf Ho Hc]. split; simpl.
    + intros p fl H. destruct (Hfl p fl H) as [Hlt Hcfg]. split; [lia|].
      intros st cfg'. rewrite lookup_insert_ne by lia. apply Hcfg.
    + intros q H. destruct (Hq q H) as [Hlt Hcfg]. split; [lia|].
      intros st cfg'. rewrite lookup_insert_ne by lia. apply Hcfg.
    + intros p H. specialize (Hs p H). lia.
    + intros p. rewrite lookup_insert.
      destruct (decide (next_promise w = p)) as [<-|]; [lia|].
      intros H. specialize (Hw p H). lia.
    + intros c H. specialize (Hf c H). lia.
    + intros p o H. destruct (Ho p o H) as (st & cfg' & r & Hwp & Hsp & Hrep).
      exists st, cfg', r. split; [|done].
      rewrite lookup_insert_ne; [done|].
      specialize (Hw p (mk_is_Some _ _ Hwp)). lia.
    + intros p r. rewrite lookup_insert.
      destruct (decide (next_promise w = p)) as [<-|]; [|by apply Hc].
      intros _ H. specialize (Hs _ (mk_is_Some _ _ H)). lia.
  - simpl. intros st cfg'. rewrite lookup_insert_eq. by intros [= _ <-].
Qed.

Lemma promises_ok_call_batchRequests cfgs w :
  promises_ok w → promises_ok (call_batchRequests cfgs w).
Proof.
  unfold call_batchRequests. revert w.
  induction cfgs as [|cfg cfgs IH]; intros w Hw; [done|].
  simpl. by apply IH, promises_ok_batch_item.
Qed.

Lemma promises_ok_step e w w' :
  promises_ok w → step e w = Some w' → promises_ok w'.
Proof.
  intros Hw Hstep. destruct e as [cfg|cfgs| |p r|i|dt]; simpl in Hstep.
  - injection Hstep as <-. by apply promises_ok_call_request.
  - injection Hstep as <-. by apply promises_ok_call_batchRequests.
  - injection Hstep as <-. by apply promises_ok_self.
  - destruct (flights w !! p) as [fl|] eqn:Hp; [|done]. injection Hstep as <-.
    by apply promises_ok_resume.
  - destruct (timers w !! i) as [[due what]|]; [|done]. simpl in Hstep.
    destruct (due <=? clock w); [|done]. injection Hstep as <-.
    destruct what;
      [apply promises_ok_processQueue_loop|apply promises_ok_processQueue];
      by apply promises_ok_timers.
  - destruct (0 <=? dt); [|done]. injection Hstep as <-. by destruct Hw.
Qed.

Lemma reachable_promises_ok w : reachable w → promises_ok w.
Proof.
  apply (reachable_invariant promises_ok).
  - split; simpl; try done.
    + intros q H. by apply elem_of_nil in H.
    + intros p [x H]. done.
    + intros p [x H]. done.
    + intros c H. by apply elem_of_nil in H.
  - intros e w0 w1 _. apply promises_ok_step.
Qed.

(** ** Batches *)

Lemma processQueue_loop_frame w :
  clock (processQueue_loop w) = clock w ∧
  wrappers (processQueue_loop w) = wrappers w ∧
  next_promise (processQueue_loop w) = next_promise w.
Proof.
  unfold processQueue_loop.
  destruct (requestQueue (self w)) as [|q rest].
  { destruct (processQueue_end_frame w) as (?&_&_&_&?&_&?&_). done. }
  destruct (checkRateLimit _ _ _) as [free s1].
  assert (∀ s, clock (processQueue_end (with_self s w)) = clock w ∧
               wrappers (processQueue_end (with_self s w)) = wrappers w ∧
               next_promise (processQueue_end (with_self s w)) = next_promise w)
    as Hend.
  { intros s. destruct (processQueue_end_frame (with_self s w))
      as (?&_&_&_&?&_&?&_). done. }
  destruct free; [|apply Hend].
  destruct (isCircuitOpen _ _ _) as [open s2].
  destruct open; cbn [negb]; [apply Hend|].
  unfold executeRequest.
  match goal with |- context [executeRequest_loop ?p ?c ?g ?a ?l ?w] =>
    destruct (executeRequest_loop_frame p c g a l w) as (?&?&?&_) end.
  done.
Qed.

Lemma request_frame p cfg w :
  clock (request p cfg w) = clock w ∧
  wrappers (request p cfg w) = wrappers w ∧
  next_promise (request p cfg w) = next_promise w.
Proof.
  unfold request.
  destruct (match truthy_key cfg with Some _ => _ | None => _ end) as [cached s0].
  destruct (truthy cached).
  { destruct (settle_frame p (Resolved cached) (with_self s0 w))
      as (?&_&_&_&?&?&_). done. }
  cbn [self clock with_self].
  destruct (isCircuitOpen _ _ _) as [open s1].
  destruct open.
  { match goal with |- context [settle ?p ?r ?w] =>
      destruct (settle_frame p r w) as (?&_&_&_&?&?&_) end. done. }
  destruct (checkRateLimit _ _ _) as [free s2].
  destruct free; cbn [negb].
  - unfold executeRequest.
    match goal with |- context [executeRequest_loop ?p ?c ?g ?a ?l ?w] =>
      destruct (executeRequest_loop_frame p c g a l w) as (?&?&?&_) end.
    done.
  - unfold queueRequest, processQueue. destruct (_ || _); [done|].
    match goal with |- context [processQueue_loop ?w] =>
      destruct (processQueue_loop_frame w) as (?&?&?) end.
    done.
Qed.




Lemma run_promises_ok es w w' : promises_ok w → run es w = Some w' → promises_ok w'.
Proof.
  revert w. induction es as [|e es IH]; intros w Hw Hrun; simpl in Hrun.
  - by injection Hrun as <-.
  - destruct (step e w) as [w1|] eqn:Hstep; [|done]. simpl in Hrun.
    eapply IH; [|exact Hrun]. eauto using promises_ok_step.
Qed.



(** ** The cache *)

(** An entry that lives a number of milliseconds is valid up to its
    deadline; an entry whose [ttl] is a member of [Object.prototype] is
    valid for ever. *)
Lemma valid_ms now c n :
  ttl c = ms n → valid now c ↔ now ≤ ce_timestamp c + n.
Proof.
  intros H. unfold valid, deadline. rewrite H. simpl.
  destruct (now >? _) eqn:E.
  - apply Z.gtb_lt in E. split; [done|lia].
  - split; [|done]. intros _. rewrite Z.gtb_ltb in E. apply Z.ltb_ge in E. lia.
Qed.

Lemma valid_member now c name : ttl c = member name → valid now c.
Proof. intros H. unfold valid, deadline. by rewrite H. Qed.

(** An entry that is valid is valid at every earlier time. *)
Lemma valid_earlier now now' c : now' ≤ now → valid now c → valid now' c.
Proof.
  intros Hle. destruct (ttl c) as [n|name] eqn:H; [|intros _; by eapply valid_member].
  rewrite !(valid_ms _ c n H). lia.
Qed.

(** What [getCacheTTL] yields: the time to live the table gives the domain,
    a quarter of an hour for a domain the table does not know, and for a
    domain named like a member of [Object.prototype] that member. *)
Lemma getCacheTTL_values d :
  getCacheTTL d = ms (15 * 60 * 1000) ∨ getCacheTTL d = ms (30 * 60 * 1000) ∨
  getCacheTTL d = ms (60 * 60 * 1000) ∨
  (d ∈ Object_prototype ∧ getCacheTTL d = member d).
Proof.
  unfold getCacheTTL. pose proof (property_inv ttlMap d) as H.
  destruct (property ttlMap d) as [n|name|]; [| |by left].
  - apply elem_of_list_to_map_2 in H.
    repeat (apply elem_of_cons in H as [H|H];
            [injection H as -> ->; simpl; auto|]).
    by apply elem_of_nil in H.
  - destruct H as (-> & _ & H). right; right; right. done.
Qed.

(** What [getCacheTTL] yields keeps an entry valid for a quarter of an hour
    at least. *)
Lemma getCacheTTL_valid now v d dt :
  dt ≤ 15 * 60 * 1000 →
  valid (now + dt) {| ce_data := v; ce_timestamp := now; ttl := getCacheTTL d |}.
Proof.
  intros Hdt.
  destruct (getCacheTTL_values d) as [H|[H|[H|[_ H]]]];
    try (eapply valid_member; simpl; exact H);
    (eapply valid_ms; [simpl; exact H|simpl; lia]).
Qed.

(** [setCache] leaves the entry it writes in the cache, also when it goes
    on to clean up. *)
Lemma setCache_lookup now k v t s :
  valid now {| ce_data := v; ce_timestamp := now; ttl := t |} →
  requestCache (setCache now k v t s) !! k
  = Some {| ce_data := v; ce_timestamp := now; ttl := t |}.
Proof.
  intros Ht. unfold setCache. destruct (_ <? _)%nat; simpl.
  - apply map_lookup_filter_Some. rewrite lookup_insert_eq. split; [done|]. exact Ht.
  - by rewrite lookup_insert_eq.
Qed.

(** A valid entry is served as it is and stays where it is. *)
Lemma getFromCache_valid now k s c :
  requestCache s !! k = Some c → valid now c →
  getFromCache now k s = (ce_data c, s).
Proof.
  intros Hk Hnow. unfold getFromCache. by rewrite Hk, Hnow.
Qed.

(** No lookup removes a valid entry. *)
Lemma getFromCache_keeps now k' s k c :
  requestCache s !! k = Some c → valid now c →
  requestCache (getFromCache now k' s).2 !! k = Some c.
Proof.
  intros Hk Hnow. unfold getFromCache.
  destruct (requestCache s !! k') as [c'|] eqn:Hk'; [|done].
  destruct (js_gt _ _) eqn:Hexp; [|done]. simpl.
  rewrite lookup_delete_ne; [done|]. intros <-.
  assert (c' = c) as -> by congruence. unfold valid in Hnow. congruence.
Qed.

Lemma settle_keeps p r w k c :
  requestCache (self w) !! k = Some c → valid (clock w) c →
  requestCache (self (settle p r w)) !! k = Some c.
Proof.
  intros Hk Hnow. unfold settle; simpl.
  destruct (wrappers w !! p) as [[st cfg]|]; [|done].
  unfold batch_callback. destruct r as [v|e]; [|done].
  destruct (truthy_key cfg) as [k'|]; [|done].
  pose proof (getFromCache_keeps (clock w) k' (self w) k c Hk Hnow) as H.
  by destruct (getFromCache (clock w) k' (self w)).
Qed.

Lemma finish_keeps p caller r w k c :
  requestCache (self w) !! k = Some c → valid (clock w) c →
  requestCache (self (finish p caller r w)) !! k = Some c.
Proof. intros Hk Hnow. destruct caller; simpl; by apply settle_keeps. Qed.

(** A successful answer to a request that carries a cache key is written to
    the cache under that key, whatever [skipCache] says. *)
Lemma executeRequest_resume_caches p fl r w k payload :
  truthy_key (f_config fl) = Some k → attempt_outcome r = inr payload →
  requestCache (self (executeRequest_resume p fl r w)) !! k
  = Some {| ce_data := payload; ce_timestamp := clock w;
            ttl := getCacheTTL (extractDomain (url (f_config fl))) |}.
Proof.
  intros Hk Hr. unfold executeRequest_resume. rewrite Hr, Hk.
  pose proof (getCacheTTL_valid (clock w) payload
                (extractDomain (url (f_config fl))) 0) as Hv.
  rewrite Z.add_0_r in Hv. specialize (Hv ltac:(lia)).
  apply finish_keeps; simpl; [|exact Hv]. by apply setCache_lookup.
Qed.

(** A request whose key has a valid, truthy entry, and which does not skip
    the cache, resolves with that entry at once: no fetch, nothing queued,
    no limiter or breaker consulted. *)
Lemma request_served_from_cache p cfg w k c :
  truthy_key cfg = Some k → default false (skipCache cfg) = false →
  requestCache (self w) !! k = Some c → valid (clock w) c →
  truthy (ce_data c) = true →
  request p cfg w = settle p (Resolved (ce_data c)) w.
Proof.
  intros Hk Hskip Hc Hnow Ht. unfold request. rewrite Hk, Hskip. simpl.
  rewrite (getFromCache_valid _ _ _ _ Hc Hnow), Ht. by destruct w.
Qed.

(** A valid entry with a falsy payload is taken for a miss: the request
    goes on to the breaker and the limiter as if nothing were cached. *)
Lemma falsy_entry_is_a_miss cfg w k c :
  truthy_key cfg = Some k →
  requestCache (self w) !! k = Some c → valid (clock w) c →
  truthy (ce_data c) = false →
  served_from_cache cfg w = false.
Proof.
  intros Hk Hc Hnow Ht. unfold served_from_cache. rewrite Hk.
  destruct (negb _); [|done].
  by rewrite (getFromCache_valid _ _ _ _ Hc Hnow).
Qed.

(** After a successful answer with a truthy payload to a request that
    carries a cache key, a request with the same key that does not skip the
    cache and arrives within the time to live resolves with that payload
    and makes no fetch.  Whether the first request skipped the cache makes
    no difference. *)
Lemma success_then_served_from_cache p fl r w k payload dt p' cfg' :
  truthy_key (f_config fl) = Some k → attempt_outcome r = inr payload →
  truthy payload = true →
  truthy_key cfg' = Some k → default false (skipCache cfg') = false →
  valid (clock w + dt)
    {| ce_data := payload; ce_timestamp := clock w;
       ttl := getCacheTTL (extractDomain (url (f_config fl))) |} →
  settled (request p' cfg'
             (with_clock (clock w + dt) (executeRequest_resume p fl r w))) !! p'
  = Some (Resolved payload) ∧
  fetched (request p' cfg'
             (with_clock (clock w + dt) (executeRequest_resume p fl r w)))
  = fetched (executeRequest_resume p fl r w) ∧
  flights (request p' cfg'
             (with_clock (clock w + dt) (executeRequest_resume p fl r w)))
  = flights (executeRequest_resume p fl r w).
Proof.
  intros Hk Hr Ht Hk' Hskip Hdt.
  pose proof (executeRequest_resume_caches p fl r w k payload Hk Hr) as Hc.
  rewrite (request_served_from_cache p' cfg'
             (with_clock (clock w + dt) (executeRequest_resume p fl r w))
             k _ Hk' Hskip Hc);
    [|exact Hdt|done].
  match goal with |- context [settle ?p ?r ?w] =>
    destruct (settle_frame p r w) as (_&->&_&->&_&_&->&_) end.
  simpl. by rewrite lookup_insert_eq.
Qed.

(** The flag a batch callback computes after a fetched answer: the
    truthiness of what the cache now holds under the key, that is of the
    payload just written. *)
Lemma fetched_outcome w p fl st cfg k r payload :
  reachable w →
  flights w !! p = Some fl → wrappers w !! p = Some (st, cfg) →
  truthy_key cfg = Some k → attempt_outcome r = inr payload →
  outcomes (executeRequest_resume p fl r w) !! p
  = Some (fulfilled {| success := true; data := Some payload; error := None;
                       duration := clock w - st;
                       fromCache := Some (truthy payload) |}).
Proof.
  intros Hreach Hfl Hwr Hk Hr.
  destruct (ok_flights w (reachable_promises_ok w Hreach) p fl Hfl) as [_ Hcfg].
  specialize (Hcfg st cfg Hwr).
  unfold executeRequest_resume. rewrite Hr, Hcfg, Hk.
  set (d := extractDomain (url cfg)).
  set (s1 := resetCircuitBreaker d _).
  set (w1 := with_self s1 _).
  assert (outcomes (settle p (Resolved payload) w1) !! p
          = Some (fulfilled {| success := true; data := Some payload; error := None;
                               duration := clock w - st;
                               fromCache := Some (truthy payload) |})) as Hsettle.
  { rewrite settle_outcomes. subst w1; simpl. rewrite Hwr, lookup_insert_eq.
    unfold batch_callback. rewrite Hk.
    pose proof (getCacheTTL_valid (clock w) payload d 0) as Hv.
    rewrite Z.add_0_r in Hv. specialize (Hv ltac:(lia)).
    rewrite (getFromCache_valid (clock w) k s1
               {| ce_data := payload; ce_timestamp := clock w; ttl := getCacheTTL d |});
      [done| |exact Hv].
    subst s1. simpl. by apply setCache_lookup. }
  by destruct (f_caller fl).
Qed.

(** C9, as the code has it.  The callback of a batch computes [fromCache]
    by asking the cache again after its request has come back.  For a
    request that carries a cache key and whose answer was fetched from the
    network with a truthy payload, the record says [fromCache: true]. *)
Theorem C9_fromCache_after_fetch w p fl st cfg k r payload w' :
  reachable w →
  flights w !! p = Some fl → wrappers w !! p = Some (st, cfg) →
  truthy_key cfg = Some k → attempt_outcome r = inr payload →
  truthy payload = true →
  step (Fetch_settles p r) w = Some w' →
  settled w' !! p = Some (Resolved payload) ∧
  outcomes w' !! p
  = Some (fulfilled {| success := true; data := Some payload; error := None;
                       duration := clock w - st; fromCache := Some true |}).
Proof.
  intros Hreach Hfl Hwr Hk Hr Ht Hstep. simpl in Hstep. rewrite Hfl in Hstep.
  injection Hstep as <-. split.
  - unfold executeRequest_resume. rewrite Hr.
    match goal with |- context [finish ?p ?c ?r ?w] =>
      destruct (finish_frame p c r w) as (_&_&_&_&_&->&_) end.
    by rewrite lookup_insert_eq.
  - rewrite (fetched_outcome w p fl st cfg k r payload); try done. by rewrite Ht.
Qed.

(** ** The circuit breaker *)

(** While the breaker of its domain is open and has not cooled down, a
    request that the cache does not answer is rejected at once: no fetch,
    no flight, nothing queued. *)
Lemma request_circuit_open p cfg w b :
  served_from_cache cfg w = false →
  circuitBreaker (self w) !! extractDomain (url cfg) = Some b →
  isOpen b = true → clock w - lastFailure b ≤ resetTimeout →
  settled (request p cfg w) !! p
  = Some (Rejected (new_Error ("Circuit breaker is open for "
                               +:+ extractDomain (url cfg)))) ∧
  fetched (request p cfg w) = fetched w ∧
  flights (request p cfg w) = flights w ∧
  requestQueue (self (request p cfg w)) = requestQueue (self w) ∧
  circuitBreaker (self (request p cfg w)) = circuitBreaker (self w).
Proof.
  intros Hmiss Hb Hopen Hcool. unfold request, served_from_cache in *.
  set (c := match truthy_key cfg with Some _ => _ | None => _ end) in *.
  assert (circuitBreaker c.2 = circuitBreaker (self w) ∧
          requestQueue c.2 = requestQueue (self w)) as [Hcb Hq].
  { subst c. destruct (truthy_key cfg) as [k|]; [|done].
    destruct (negb _); [|done].
    destruct (getFromCache_frame (clock w) k (self w)) as (_&?&?&_). done. }
  destruct c as [cached s0]. simpl in Hmiss, Hcb, Hq. rewrite Hmiss.
  cbn [self clock with_self]. unfold isCircuitOpen. rewrite Hcb, Hb, Hopen.
  destruct (_ >? _) eqn:Hexp; [apply Z.gtb_lt in Hexp; lia|].
  match goal with |- context [settle ?p ?r ?w] =>
    destruct (settle_frame p r w) as (_&->&_&->&_&_&->&_&->&->&_) end.
  simpl. by rewrite lookup_insert_eq.
Qed.

(** A request to a domain under which the rate-limit table yields nothing is
    never queued. *)
Lemma request_unlimited p cfg w :
  property RATE_LIMITS (extractDomain (url cfg)) = undefined →
  requestQueue (self (request p cfg w)) = requestQueue (self w).
Proof.
  intros Hno. unfold request.
  set (c := match truthy_key cfg with Some _ => _ | None => _ end).
  assert (requestQueue c.2 = requestQueue (self w)) as Hc.
  { subst c. destruct (truthy_key cfg) as [k|]; [|done].
    destruct (negb _); [|done]. apply getFromCache_frame. }
  destruct c as [cached s0]. simpl in Hc.
  destruct (truthy cached).
  { destruct (settle_frame p (Resolved cached) (with_self s0 w))
      as (_&_&_&_&_&_&_&_&_&->&_). done. }
  cbn [self clock with_self].
  destruct (isCircuitOpen_frame (clock w) (extractDomain (url cfg)) s0)
    as (_ & _ & Hq1 & _).
  destruct (isCircuitOpen _ _ _) as [open s1]. simpl in Hq1.
  destruct open.
  { match goal with |- context [settle ?p ?r ?w] =>
      destruct (settle_frame p r w) as (_&_&_&_&_&_&_&_&_&->&_) end.
    simpl. congruence. }
  rewrite (checkRateLimit_undefined _ _ _ Hno). cbn [negb]. unfold executeRequest.
  match goal with |- context [executeRequest_loop ?p ?c ?g ?a ?l ?w] =>
    destruct (executeRequest_loop_frame p c g a l w) as (_&_&_&_&_&->&_) end.
  simpl. congruence.
Qed.

Lemma recordFailure_lookup now d s :
  circuitBreaker (recordFailure now d s) !! d
  = Some {| failures := failure_count d s + 1; lastFailure := now;
            isOpen := if failureThreshold <=? failure_count d s + 1 then true
                      else from_option isOpen false (circuitBreaker s !! d) |}.
Proof.
  unfold recordFailure, failure_count; simpl. rewrite lookup_insert_eq.
  by destruct (circuitBreaker s !! d).
Qed.


(** C5, as the code has it.  A request whose URL does not parse is filed
    under the domain "unknown".  That domain has no quota: the limiter
    always lets it through and the request is never queued.  Its breaker is
    the breaker of any domain: the failure that brings its count to 5 opens
    it, and while it is open and has not cooled down a request with a
    malformed URL is rejected with the circuit-open error without a fetch. *)
Theorem C5_unknown_domain cfg :
  URL_hostname (url cfg) = None →
  extractDomain (url cfg) = "unknown" ∧
  (∀ now s, checkRateLimit now "unknown" s = (true, s)) ∧
  (∀ p w, requestQueue (self (request p cfg w)) = requestQueue (self w)) ∧
  (∀ now s, failureThreshold ≤ failure_count "unknown" s + 1 →
     isOpen <$> circuitBreaker (recordFailure now "unknown" s) !! "unknown"
     = Some true) ∧
  (∀ p w b,
     served_from_cache cfg w = false →
     circuitBreaker (self w) !! "unknown" = Some b → isOpen b = true →
     clock w - lastFailure b ≤ resetTimeout →
     settled (request p cfg w) !! p
     = Some (Rejected (new_Error "Circuit breaker is open for unknown")) ∧
     fetched (request p cfg w) = fetched w ∧
     flights (request p cfg w) = flights w).
Proof.
  intros Hbad.
  assert (extractDomain (url cfg) = "unknown") as Hd
    by (unfold extractDomain; by rewrite Hbad).
  split; [done|]. split; [done|]. split; [|split].
  - intros p w. apply request_unlimited. by rewrite Hd.
  - intros now s Hth. rewrite recordFailure_lookup. simpl.
    apply Z.leb_le in Hth. by rewrite Hth.
  - intros p w b Hmiss Hb Hopen Hcool.
    destruct (request_circuit_open p cfg w b) as (H1 & H2 & H3 & _); try done.
    + by rewrite Hd.
    + rewrite Hd in H1. done.
Qed.

Lemma executeRequest_starts p caller cfg w :
  0 ≤ default 3 (retries cfg) →
  flights (executeRequest p caller cfg w) !! p
    = Some {| f_config := cfg; f_attempt := 0; f_caller := caller |} ∧
  fetched (executeRequest p caller cfg w)
    = fetched w ++ [{| fc_time := clock w; fc_promise := p;
                       fc_url := url cfg; fc_attempt := 0 |}] ∧
  self (executeRequest p caller cfg w) = self w.
Proof.
  intros Hr. unfold executeRequest, executeRequest_loop.
  apply Z.leb_le in Hr. rewrite Hr. simpl. by rewrite lookup_insert_eq.
Qed.

(** ** The queue is woken up *)



Lemma wakeup_pending_finish_FromQueue p r w :
  wakeup_pending (finish p FromQueue r w).
Proof.
  left. exists (clock (settle p r w) + 100). simpl.
  apply elem_of_app. right. by left.
Qed.

Lemma wakeup_pending_loop_FromQueue p cfg a le w :
  wakeup_pending (executeRequest_loop p FromQueue cfg a le w).
Proof.
  unfold executeRequest_loop.
  destruct (_ <=? _); [|apply wakeup_pending_finish_FromQueue].
  right; left. eexists p, _. simpl. by rewrite lookup_insert_eq.
Qed.


Lemma worker_ok_processQueue_loop w : worker_ok (processQueue_loop w).
Proof.
  assert (∀ w', worker_ok (processQueue_end w')) as Hend.
  { intros w'. unfold worker_ok, wakeup_pending, processQueue_end. simpl.
    destruct (requestQueue (self w')) as [|q rest] eqn:Hq; simpl; rewrite Hq.
    - by intros [?|?].
    - intros _. right; right. split; [done|]. exists (clock w' + 1000).
      apply elem_of_app. right. by left. }
  unfold processQueue_loop.
  destruct (requestQueue (self w)) as [|q rest]; [apply Hend|].
  destruct (checkRateLimit _ _ _) as [free s1].
  destruct free; [|apply Hend].
  destruct (isCircuitOpen _ _ _) as [open s2].
  destruct open; cbn [negb]; [apply Hend|].
  intros _. apply wakeup_pending_loop_FromQueue.
Qed.

Lemma worker_ok_processQueue w : worker_ok w → worker_ok (processQueue w).
Proof.
  intros Hw. unfold processQueue. destruct (_ || _); [done|].
  apply worker_ok_processQueue_loop.
Qed.









(** ** Waiting for the window *)

Lemma isCircuitOpen_ext now d s s' :
  circuitBreaker s = circuitBreaker s' →
  (isCircuitOpen now d s).1 = (isCircuitOpen now d s').1.
Proof.
  intros H. unfold isCircuitOpen. rewrite H.
  destruct (circuitBreaker s' !! d) as [b|]; [|done].
  destruct (isOpen b); [|done]. by destruct (_ >? _).
Qed.



(** What [executeRequest] does to the promises it does not serve. *)
Lemma executeRequest_loop_other p caller cfg a le w p' :
  p' ≠ p →
  settled (executeRequest_loop p caller cfg a le w) !! p' = settled w !! p' ∧
  flights (executeRequest_loop p caller cfg a le w) !! p' = flights w !! p' ∧
  ∃ cs, fetched (executeRequest_loop p caller cfg a le w) = fetched w ++ cs ∧
        Forall (λ c, fc_promise c = p) cs.
Proof.
  intros Hne. unfold executeRequest_loop. destruct (_ <=? _); simpl.
  - split; [done|]. split; [by rewrite lookup_insert_ne|].
    eexists. split; [done|]. by repeat constructor.
  - match goal with |- context [finish ?p ?c ?r ?w] =>
      destruct (finish_frame p c r w) as (_&->&->&_&_&->&_) end.
    split; [by rewrite lookup_insert_ne|]. split; [done|].
    exists []. by rewrite app_nil_r.
Qed.





(** ** The retry loop *)

Lemma attempts_cons p a n : attempts p a (S n) = (p, a) :: attempts p (a + 1) n.
Proof.
  unfold attempts. rewrite <- cons_seq, fmap_cons, <- fmap_S_seq, <- list_fmap_compose.
  f_equal; [f_equal; lia|]. apply list_fmap_ext; intros i x _; simpl. f_equal; lia.
Qed.

Lemma length_attempts p a n : length (attempts p a n) = n.
Proof. unfold attempts. by rewrite length_fmap, length_seq. Qed.

(** Every answer is a retryable failure and there are as many answers as
    the loop has iterations left: the loop runs to its end, fetching once
    per iteration and recording one failure per answer, and rejects with
    the error of the last answer. *)
Lemma run_answers_all_fail p script :
  ∀ w fl,
    flights w !! p = Some fl →
    f_attempt fl ≤ default 3 (retries (f_config fl)) →
    length script
      = Z.to_nat (default 3 (retries (f_config fl)) - f_attempt fl + 1) →
    Forall (λ a : Z * FetchResult, 0 ≤ a.1 ∧ retryable_failure a.2 = true) script →
    ∃ w' a e,
      run (answers p script) w = Some w' ∧
      flights w' !! p = None ∧
      attempt_of <$> fetched w'
        = (attempt_of <$> fetched w)
            ++ attempts p (f_attempt fl + 1) (length script - 1) ∧
      last script = Some a ∧ attempt_outcome a.2 = inl e ∧
      settled w' !! p = Some (Rejected e) ∧
      failure_count (extractDomain (url (f_config fl))) (self w')
        = failure_count (extractDomain (url (f_config fl))) (self w)
          + Z.of_nat (length script).
Proof.
  induction script as [|[dt r] rest IH]; intros w fl Hfl Hle Hlen Hall.
  { simpl in Hlen. lia. }
  apply Forall_cons in Hall as [[Hdt Hr] Hall]; simpl in Hdt, Hr.
  unfold retryable_failure in Hr.
  destruct (attempt_outcome r) as [e|] eqn:Hout; [|done].
  apply negb_true_iff in Hr.
  cbn [answers flat_map app run step fst snd].
  apply Z.leb_le in Hdt as Hdt'. rewrite Hdt'. cbn [mbind option_bind].
  cbn [flights with_clock]. rewrite Hfl. cbn [mbind option_bind].
  unfold executeRequest_resume. rewrite Hout, Hr.
  set (w1 := with_self _ _).
  unfold executeRequest_loop.
  destruct (f_attempt fl + 1 <=? default 3 (retries (f_config fl))) eqn:Hnext.
  - apply Z.leb_le in Hnext.
    set (fl' := {| f_config := f_config fl; f_attempt := f_attempt fl + 1;
                   f_caller := f_caller fl |}).
    set (w2 := with_fetched _ _).
    destruct (IH w2 fl') as (w' & a & e' & Hrun & Hgone & Hlog & Hlast & Hoa & Hset & Hcnt).
    + subst w2; simpl. by rewrite lookup_insert_eq.
    + simpl. lia.
    + simpl in *. lia.
    + done.
    + exists w', a, e'. split; [done|]. split; [done|].
      destruct rest as [|a0 rest']; [simpl in *; lia|].
      split; [|split; [done|split; [done|split; [done|]]]].
      * rewrite Hlog. subst w2; simpl. rewrite fmap_app, <- app_assoc. f_equal.
        simpl. replace (length rest' - 0)%nat with (length rest') by lia.
        rewrite attempts_cons. done.
      * change (f_config fl') with (f_config fl) in Hcnt.
        rewrite Hcnt. subst w2 w1; simpl.
        rewrite failure_count_recordFailure. lia.
  - apply Z.leb_gt in Hnext.
    destruct rest as [|a0 rest']; [|simpl in Hlen; lia].
    exists (finish p (f_caller fl) (Rejected e) w1), (dt, r), e.
    destruct (finish_frame p (f_caller fl) (Rejected e) w1)
      as (_ & Hf & Hfe & _ & _ & Hs & _ & Hcb & _).
    split; [done|]. rewrite Hf, Hfe, Hs.
    unfold failure_count at 1. rewrite Hcb.
    fold (failure_count (extractDomain (url (f_config fl))) (self w1)).
    subst w1; simpl.
    split; [by rewrite lookup_delete_eq|].
    split; [by rewrite app_nil_r|].
    split; [done|]. split; [done|]. split; [by rewrite lookup_insert_eq|].
    rewrite failure_count_recordFailure. lia.
Qed.

(** Answers that are retryable failures, fewer than the loop has iterations
    left: the loop is at its next attempt, one fetch and one failure later
    for each answer. *)
Lemma run_answers_fail_prefix p script :
  ∀ w fl,
    flights w !! p = Some fl →
    f_attempt fl + Z.of_nat (length script) ≤ default 3 (retries (f_config fl)) →
    Forall (λ a : Z * FetchResult, 0 ≤ a.1 ∧ retryable_failure a.2 = true) script →
    ∃ w',
      run (answers p script) w = Some w' ∧
      flights w' !! p
      = Some {| f_config := f_config fl;
                f_attempt := f_attempt fl + Z.of_nat (length script);
                f_caller := f_caller fl |} ∧
      attempt_of <$> fetched w'
        = (attempt_of <$> fetched w) ++ attempts p (f_attempt fl + 1) (length script) ∧
      settled w' = settled w ∧
      failure_count (extractDomain (url (f_config fl))) (self w')
        = failure_count (extractDomain (url (f_config fl))) (self w)
          + Z.of_nat (length script).
Proof.
  induction script as [|[dt r] rest IH]; intros w fl Hfl Hle Hall.
  { exists w. split; [done|]. split; [|split; [|split]].
    - rewrite Hfl. destruct fl; simpl. do 2 f_equal. lia.
    - by rewrite app_nil_r.
    - done.
    - simpl. lia. }
  apply Forall_cons in Hall as [[Hdt Hr] Hall]; simpl in Hdt, Hr.
  unfold retryable_failure in Hr.
  destruct (attempt_outcome r) as [e|] eqn:Hout; [|done].
  apply negb_true_iff in Hr.
  cbn [answers flat_map app run step fst snd].
  apply Z.leb_le in Hdt as Hdt'. rewrite Hdt'. cbn [mbind option_bind].
  cbn [flights with_clock]. rewrite Hfl. cbn [mbind option_bind].
  unfold executeRequest_resume. rewrite Hout, Hr.
  set (w1 := with_self _ _).
  unfold executeRequest_loop. cbn [length] in Hle.
  destruct (f_attempt fl + 1 <=? default 3 (retries (f_config fl))) eqn:Hnext;
    [|apply Z.leb_gt in Hnext; lia].
  set (fl' := {| f_config := f_config fl; f_attempt := f_attempt fl + 1;
                 f_caller := f_caller fl |}).
  set (w2 := with_fetched _ _).
  destruct (IH w2 fl') as (w' & Hrun & Hfl' & Hlog & Hset & Hcnt).
  - subst w2; simpl. by rewrite lookup_insert_eq.
  - simpl. lia.
  - done.
  - exists w'. split; [done|]. split; [|split; [|split]].
    + rewrite Hfl'. subst fl'; cbn [f_config f_attempt f_caller length].
      do 2 f_equal. lia.
    + rewrite Hlog. subst w2; simpl. rewrite fmap_app, <- app_assoc. f_equal.
      cbn [length]. by rewrite attempts_cons.
    + rewrite Hset. by subst w2 w1.
    + change (f_config fl') with (f_config fl) in Hcnt.
      rewrite Hcnt. subst w2 w1; cbn [self with_fetched with_flights with_self with_clock length].
      rewrite failure_count_recordFailure. lia.
Qed.

(** C6.  A request that [executeRequest] sends, for [request] or for the
    queue, configured with retry count [r >= 0] (3 when the field is left
    out), and whose every attempt fails with a retryable error, makes
    exactly [r + 1] fetches, the attempts [0] to [r]; it is then no longer
    in flight (no further answer is awaited), and it rejects with the error
    of the last attempt. *)
Theorem C6_retries_plus_one_attempts p caller cfg w script :
  0 ≤ default 3 (retries cfg) →
  length script = Z.to_nat (default 3 (retries cfg) + 1) →
  Forall (λ a : Z * FetchResult, 0 ≤ a.1 ∧ retryable_failure a.2 = true) script →
  ∃ w' a e,
    run (answers p script) (executeRequest p caller cfg w) = Some w' ∧
    attempt_of <$> fetched w'
      = (attempt_of <$> fetched w)
          ++ attempts p 0 (Z.to_nat (default 3 (retries cfg) + 1)) ∧
    flights w' !! p = None ∧
    last script = Some a ∧ attempt_outcome a.2 = inl e ∧
    settled w' !! p = Some (Rejected e).
Proof.
  intros Hr Hlen Hall.
  destruct (executeRequest_starts p caller cfg w Hr) as (Hfl & Hlog & _).
  destruct (run_answers_all_fail p script _ _ Hfl)
    as (w' & a & e & Hrun & Hgone & Hlog' & Hlast & Hout & Hset & _);
    [simpl; lia | simpl; rewrite Hlen; f_equal; lia | done |].
  exists w', a, e. repeat split; try done.
  rewrite Hlog', Hlog, fmap_app, <- app_assoc. f_equal. simpl.
  rewrite Hlen. destruct (Z.to_nat _) as [|n] eqn:Hn; [lia|].
  rewrite attempts_cons. simpl. by replace (n - 0)%nat with n by lia.
Qed.

(** C4, as the code has it.  When a send exhausts its [r + 1] attempts with
    retryable failures, one failure is recorded against the breaker of the
    target domain for each failed attempt, as the attempt fails: after the
    first [k] answers the count has grown by [k], and as long as [k] is not
    above [r] the request is at its attempt [k], with nothing settled.  The
    count has grown by [r + 1] when the request rejects with the error of
    the last attempt. *)
Theorem C4_one_failure_per_attempt p caller cfg w script :
  0 ≤ default 3 (retries cfg) →
  length script = Z.to_nat (default 3 (retries cfg) + 1) →
  Forall (λ a : Z * FetchResult, 0 ≤ a.1 ∧ retryable_failure a.2 = true) script →
  (∀ k, (k ≤ length script)%nat →
     ∃ wk,
       run (answers p (take k script)) (executeRequest p caller cfg w) = Some wk ∧
       failure_count (extractDomain (url cfg)) (self wk)
         = failure_count (extractDomain (url cfg)) (self w) + Z.of_nat k ∧
       ((k < length script)%nat →
        flights wk !! p
          = Some {| f_config := cfg; f_attempt := Z.of_nat k; f_caller := caller |} ∧
        settled wk = settled w)) ∧
  ∃ w' a e,
    run (answers p script) (executeRequest p caller cfg w) = Some w' ∧
    failure_count (extractDomain (url cfg)) (self w')
      = failure_count (extractDomain (url cfg)) (self w)
        + (default 3 (retries cfg) + 1) ∧
    last script = Some a ∧ attempt_outcome a.2 = inl e ∧
    settled w' !! p = Some (Rejected e).
Proof.
  intros Hr Hlen Hall.
  destruct (executeRequest_starts p caller cfg w Hr) as (Hfl & _ & Hself).
  destruct (run_answers_all_fail p script _ _ Hfl)
    as (w' & a & e & Hrun & _ & _ & Hlast & Hout & Hset & Hcnt);
    [simpl; lia | simpl; rewrite Hlen; f_equal; lia | done |].
  simpl in Hcnt. rewrite Hself in Hcnt.
  split.
  - intros k Hk. destruct (decide (k = length script)) as [->|Hne].
    + exists w'. rewrite firstn_all. split; [done|]. split; [done|]. lia.
    + destruct (run_answers_fail_prefix p (take k script) _ _ Hfl)
        as (wk & Hrunk & Hflk & _ & Hsetk & Hcntk).
      * rewrite length_take. simpl. lia.
      * by apply Forall_take.
      * rewrite length_take in Hflk, Hcntk.
        replace (k `min` length script)%nat with k in Hflk, Hcntk by lia.
        simpl in Hflk, Hcntk. rewrite Hself in Hcntk.
        exists wk. split; [done|]. split; [done|]. intros _.
        split; [done|]. rewrite Hsetk.
        unfold executeRequest, executeRequest_loop.
        apply Z.leb_le in Hr. by rewrite Hr.
  - exists w', a, e. repeat split; try done. rewrite Hcnt, Hlen. lia.
Qed.

(** ** Further properties *)

(** X1.  In every reachable world the queue is ordered by priority number,
    and a new entry goes behind every waiting entry whose number is not
    greater than its own and before every entry whose number is greater:
    entries of one number leave in the order they came. *)
Theorem queue_ordered_by_rank w :
  reachable w →
  by_priority (requestQueue (self w)) ∧
  ∀ q, ∃ l1 l2,
    requestQueue (self w) = l1 ++ l2 ∧
    enqueue q (requestQueue (self w)) = l1 ++ q :: l2 ∧
    Forall (λ x, qr_priority x ≤ qr_priority q) l1 ∧
    Forall (λ x, qr_priority q < qr_priority x) l2.
Proof.
  intros Hreach. pose proof (requestQueue_by_priority w Hreach) as Hs.
  split; [done|]. intros q.
  destruct (enqueue_position q (requestQueue (self w))) as (l1 & l2 & E1 & E2 & H1 & H2).
  exists l1, l2. auto.
Qed.

(** X2.  A valid entry with a truthy payload is served without a fetch and
    without the limiter, the breaker or the queue being touched. *)
Theorem cache_hit_touches_nothing p cfg w k c :
  truthy_key cfg = Some k → default false (skipCache cfg) = false →
  requestCache (self w) !! k = Some c → valid (clock w) c →
  truthy (ce_data c) = true →
  settled (request p cfg w) !! p = Some (Resolved (ce_data c)) ∧
  fetched (request p cfg w) = fetched w ∧
  flights (request p cfg w) = flights w ∧
  rateLimiter (self (request p cfg w)) = rateLimiter (self w) ∧
  circuitBreaker (self (request p cfg w)) = circuitBreaker (self w) ∧
  requestQueue (self (request p cfg w)) = requestQueue (self w).
Proof.
  intros Hk Hskip Hc Hnow Ht.
  rewrite (request_served_from_cache p cfg w k c Hk Hskip Hc Hnow Ht).
  destruct (settle_frame p (Resolved (ce_data c)) w)
    as (_&->&_&->&_&_&->&->&->&->&_).
  by rewrite lookup_insert_eq.
Qed.

(** X4.  An attempt that fails with an [AbortError], or with an error whose
    message contains "404", is the last: one failure is recorded, no
    further fetch is made, and the request rejects with that error. *)
Theorem abort_and_404_are_not_retried p fl r e w :
  flights w !! p = Some fl → attempt_outcome r = inl e → no_retry e = true →
  ∃ w', step (Fetch_settles p r) w = Some w' ∧
        flights w' !! p = None ∧ fetched w' = fetched w ∧
        settled w' !! p = Some (Rejected e) ∧
        failure_count (extractDomain (url (f_config fl))) (self w')
        = failure_count (extractDomain (url (f_config fl))) (self w) + 1.
Proof.
  intros Hfl Hr He. eexists. split; [cbn [step]; by rewrite Hfl|].
  unfold executeRequest_resume. rewrite Hr, He.
  match goal with |- context [finish ?p ?c ?r ?w] =>
    destruct (finish_frame p c r w) as (_&->&->&_&_&->&_&Hcb&_) end.
  unfold failure_count at 1. rewrite Hcb.
  cbn [flights fetched settled self clock with_self with_flights].
  split; [by rewrite lookup_delete_eq|]. split; [done|].
  split; [by rewrite lookup_insert_eq|].
  apply failure_count_recordFailure.
Qed.

(** * The private state under the event loop *)

(** ** Every event changes the state by mutations of the synchronous methods *)

Lemma truthy_key_Some cfg k : truthy_key cfg = Some k → k ≠ "".
Proof.
  unfold truthy_key. destruct (cacheKey cfg) as [k'|]; [|done].
  destruct (String.eqb k' "") eqn:E; [done|]. intros [= <-] ->. done.
Qed.

Lemma batch_callback_mutations now st cfg r s :
  rtc (mutation now) s (batch_callback now st cfg r s).2.
Proof.
  unfold batch_callback. destruct r as [v|e]; [|reflexivity].
  destruct (truthy_key cfg) as [k|]; [|reflexivity].
  pose proof (mut_getFromCache now s k) as H.
  destruct (getFromCache now k s). by apply rtc_once.
Qed.

Lemma settle_mutations p r w :
  rtc (mutation (clock w)) (self w) (self (settle p r w)).
Proof.
  unfold settle; simpl. destruct (wrappers w !! p) as [[st cfg]|]; [|reflexivity].
  pose proof (batch_callback_mutations (clock w) st cfg r (self w)) as H.
  by destruct (batch_callback (clock w) st cfg r (self w)).
Qed.

Lemma finish_mutations p caller r w :
  rtc (mutation (clock w)) (self w) (self (finish p caller r w)).
Proof. destruct caller; apply settle_mutations. Qed.

Lemma executeRequest_loop_mutations p caller cfg a le w :
  rtc (mutation (clock w)) (self w) (self (executeRequest_loop p caller cfg a le w)).
Proof.
  unfold executeRequest_loop. destruct (_ <=? _); [reflexivity|].
  apply finish_mutations.
Qed.

Lemma executeRequest_resume_mutations p fl r w :
  rtc (mutation (clock w)) (self w) (self (executeRequest_resume p fl r w)).
Proof.
  unfold executeRequest_resume. destruct (attempt_outcome r) as [e|v].
  - eapply rtc_l;
      [apply (mut_recordFailure _ _ (extractDomain (url (f_config fl))))|].
    destruct (no_retry e).
    + match goal with |- context [finish ?p ?c ?r ?w] =>
        exact (finish_mutations p c r w) end.
    + match goal with |- context [executeRequest_loop ?p ?c ?g ?a ?l ?w] =>
        exact (executeRequest_loop_mutations p c g a l w) end.
  - etrans;
      [|match goal with |- context [finish ?p ?c ?r ?w] =>
          exact (finish_mutations p c r w) end].
    cbn [self clock with_self with_flights].
    eapply rtc_r; [|apply mut_resetCircuitBreaker].
    destruct (truthy_key (f_config fl)) as [k|] eqn:Hk; [|reflexivity].
    apply rtc_once, mut_setCache. by eapply truthy_key_Some.
Qed.

Lemma processQueue_end_mutations w :
  rtc (mutation (clock w)) (self w) (self (processQueue_end w)).
Proof.
  unfold processQueue_end. cbn [self with_self].
  destruct (requestQueue _); apply rtc_once, mut_isProcessingQueue.
Qed.

Lemma processQueue_loop_mutations w :
  rtc (mutation (clock w)) (self w) (self (processQueue_loop w)).
Proof.
  unfold processQueue_loop.
  destruct (requestQueue (self w)) as [|q rest]; [apply processQueue_end_mutations|].
  eapply rtc_l; [apply (mut_requestQueue _ _ rest)|].
  eapply rtc_l;
    [apply (mut_checkRateLimit (clock w) _ (extractDomain (url (config q))))|].
  destruct (checkRateLimit _ _ _) as [free s1]. cbn [snd].
  destruct free.
  - eapply rtc_l;
      [apply (mut_isCircuitOpen (clock w) _ (extractDomain (url (config q))))|].
    destruct (isCircuitOpen _ _ _) as [open s2]. cbn [snd].
    destruct open; cbn [negb].
    + eapply rtc_l; [apply (mut_requestQueue _ _ (q :: requestQueue s2))|].
      match goal with |- context [processQueue_end ?w] =>
        exact (processQueue_end_mutations w) end.
    + match goal with |- context [executeRequest ?p ?c ?g ?w] =>
        exact (executeRequest_loop_mutations p c g 0 None w) end.
  - eapply rtc_l; [apply (mut_requestQueue _ _ (q :: requestQueue s1))|].
    match goal with |- context [processQueue_end ?w] =>
      exact (processQueue_end_mutations w) end.
Qed.

Lemma processQueue_mutations w :
  rtc (mutation (clock w)) (self w) (self (processQueue w)).
Proof.
  unfold processQueue. destruct (_ || _); [reflexivity|].
  eapply rtc_l; [apply (mut_isProcessingQueue _ _ true)|].
  match goal with |- context [processQueue_loop ?w] =>
    exact (processQueue_loop_mutations w) end.
Qed.

Lemma request_mutations p cfg w :
  rtc (mutation (clock w)) (self w) (self (request p cfg w)).
Proof.
  unfold request.
  set (c := match truthy_key cfg with Some _ => _ | None => _ end).
  assert (rtc (mutation (clock w)) (self w) c.2) as Hc.
  { subst c. destruct (truthy_key cfg) as [k|]; [|reflexivity].
    destruct (negb _); [|reflexivity]. apply rtc_once, mut_getFromCache. }
  destruct c as [cached s0]. cbn [snd] in Hc. etrans; [exact Hc|].
  destruct (truthy cached).
  { exact (settle_mutations p (Resolved cached) (with_self s0 w)). }
  cbn [self clock with_self].
  eapply rtc_l; [apply (mut_isCircuitOpen (clock w) _ (extractDomain (url cfg)))|].
  destruct (isCircuitOpen _ _ _) as [open s1]. cbn [snd].
  destruct open.
  { match goal with |- context [settle ?p ?r ?w] =>
      exact (settle_mutations p r w) end. }
  eapply rtc_l; [apply (mut_checkRateLimit (clock w) _ (extractDomain (url cfg)))|].
  destruct (checkRateLimit _ _ _) as [free s2]. cbn [snd].
  destruct free; cbn [negb].
  - match goal with |- context [executeRequest ?p ?c ?g ?w] =>
      exact (executeRequest_loop_mutations p c g 0 None w) end.
  - unfold queueRequest. cbn [self clock with_self].
    eapply rtc_l; [apply mut_requestQueue|].
    match goal with |- context [processQueue ?w] =>
      exact (processQueue_mutations w) end.
Qed.

Lemma call_batchRequests_mutations cfgs w :
  rtc (mutation (clock w)) (self w) (self (call_batchRequests cfgs w)) ∧
  clock (call_batchRequests cfgs w) = clock w.
Proof.
  unfold call_batchRequests. revert w.
  induction cfgs as [|cfg cfgs IH]; intros w; [done|].
  cbn [foldl]. destruct (IH (batch_item cfg w)) as [H1 H2].
  unfold batch_item in *.
  match type of H2 with _ = clock (request ?p ?c ?w0) =>
    destruct (request_frame p c w0) as (Hclock & _);
    pose proof (request_mutations p c w0) as Hm end.
  rewrite Hclock in H1, H2. split; [|done]. etrans; [exact Hm|exact H1].
Qed.

(** The state after an event comes from the state before it by mutations
    made at the time of the event, and time does not go back. *)
Lemma step_mutations e w w' :
  step e w = Some w' → e ≠ Call_clearCache →
  rtc (mutation (clock w)) (self w) (self w') ∧
  (clock w' = clock w ∨ (self w' = self w ∧ clock w ≤ clock w')).
Proof.
  intros Hstep Hne. destruct e as [cfg|cfgs| |p r|i|dt]; simpl in Hstep.
  - injection Hstep as <-. unfold call_request.
    match goal with |- context [request ?p ?c ?w0] =>
      destruct (request_frame p c w0) as (-> & _);
      split; [exact (request_mutations p c w0)|by left] end.
  - injection Hstep as <-.
    destruct (call_batchRequests_mutations cfgs w) as [H ->]. by split; [|left].
  - done.
  - destruct (flights w !! p) as [fl|]; [|done]. injection Hstep as <-.
    destruct (executeRequest_resume_frame p fl r w) as (-> & _).
    split; [apply executeRequest_resume_mutations|by left].
  - destruct (timers w !! i) as [[due what]|]; [|done]. simpl in Hstep.
    destruct (due <=? clock w); [|done]. injection Hstep as <-.
    destruct what.
    + match goal with |- context [processQueue_loop ?w0] =>
        destruct (processQueue_loop_frame w0) as (-> & _);
        split; [exact (processQueue_loop_mutations w0)|by left] end.
    + match goal with |- context [processQueue ?w0] =>
        pose proof (processQueue_mutations w0) as Hm end.
      split; [exact Hm|]. left.
      unfold processQueue. destruct (_ || _); [done|].
      match goal with |- context [processQueue_loop ?w0] =>
        destruct (processQueue_loop_frame w0) as (-> & _) end. done.
  - destruct (0 <=? dt) eqn:Hdt; [|done]. injection Hstep as <-.
    apply Z.leb_le in Hdt. simpl. split; [reflexivity|right; split; [done|lia]].
Qed.

(** Whatever holds of the empty state at time 0, survives every mutation and
    [clearCache], and keeps holding as time passes, holds of the state of
    every reachable world at its time. *)
Lemma reachable_state_invariant (P : Z → APIOptimizer → Prop) :
  P 0 new_APIOptimizer →
  (∀ now s s', mutation now s s' → P now s → P now s') →
  (∀ now s, P now s → P now (clearCache s)) →
  (∀ now now' s, now ≤ now' → P now s → P now' s) →
  ∀ w, reachable w → P (clock w) (self w).
Proof.
  intros Hnew Hmut Hclear Htime.
  apply (reachable_invariant (λ w, P (clock w) (self w))); [done|].
  intros e w w' _ HP Hstep.
  assert (e = Call_clearCache ∨ e ≠ Call_clearCache) as [->|Hne]
    by (destruct e; (by left) || (by right)).
  { injection Hstep as <-. by apply Hclear. }
  destruct (step_mutations e w w' Hstep Hne) as [Hm Hle].
  apply (Htime (clock w)); [destruct Hle as [->|[_ ?]]; [done|lia]|].
  clear Hstep Hle. induction Hm as [|s1 s2 s3 H12 _ IH]; [done|].
  apply IH. by apply (Hmut _ s1).
Qed.

(** ** The circuit breakers *)

Lemma recordFailure_breaker_ok now d s :
  (∀ d' b, circuitBreaker s !! d' = Some b → breaker_ok now b) →
  ∀ d' b, circuitBreaker (recordFailure now d s) !! d' = Some b → breaker_ok now b.
Proof.
  intros Hs d' b. unfold recordFailure; cbn [circuitBreaker with_circuitBreaker].
  destruct (decide (d' = d)) as [->|Hne].
  - rewrite lookup_insert_eq. intros [= <-].
    set (b0 := default {| failures := 0; lastFailure := 0; isOpen := false |}
                       (circuitBreaker s !! d)).
    assert (0 ≤ failures b0 ∧ (isOpen b0 = true ↔ failureThreshold ≤ failures b0))
      as (H0 & Hflag).
    { subst b0. destruct (circuitBreaker s !! d) as [b0|] eqn:Hd; simpl.
      - destruct (Hs d b0 Hd) as (? & ? & _). done.
      - unfold failureThreshold. split; [lia|]. split; [done|lia]. }
    unfold breaker_ok; cbn [failures isOpen lastFailure]. split; [lia|]. split; [|lia].
    destruct (failureThreshold <=? _) eqn:Hth.
    + apply Z.leb_le in Hth. done.
    + apply Z.leb_gt in Hth. rewrite Hflag. split; lia.
  - rewrite lookup_insert_ne by done. apply Hs.
Qed.

Lemma isCircuitOpen_breaker_ok now d s :
  (∀ d' b, circuitBreaker s !! d' = Some b → breaker_ok now b) →
  ∀ d' b, circuitBreaker (isCircuitOpen now d s).2 !! d' = Some b → breaker_ok now b.
Proof.
  intros Hs d' b. unfold isCircuitOpen.
  destruct (circuitBreaker s !! d) as [b0|] eqn:Hd; [|apply Hs].
  destruct (isOpen b0); [|apply Hs]. destruct (_ >? _); [|apply Hs].
  cbn [snd circuitBreaker with_circuitBreaker].
  destruct (decide (d' = d)) as [->|Hne].
  - rewrite lookup_insert_eq. intros [= <-].
    destruct (Hs d b0 Hd) as (_ & _ & Hlast).
    unfold breaker_ok, failureThreshold; simpl. split; [lia|]. split; [|done].
    split; [done|lia].
  - rewrite lookup_insert_ne by done. apply Hs.
Qed.

Lemma mutation_breaker_ok now s s' :
  mutation now s s' →
  (∀ d b, circuitBreaker s !! d = Some b → breaker_ok now b) →
  ∀ d b, circuitBreaker s' !! d = Some b → breaker_ok now b.
Proof.
  intros Hm Hs. destruct Hm as [d0|d0|d0|d0|k0|k0 v d0 Hk0|q|fl].
  - destruct (checkRateLimit_frame now d0 s) as (_ & -> & _). done.
  - by apply isCircuitOpen_breaker_ok.
  - by apply recordFailure_breaker_ok.
  - intros d b. unfold resetCircuitBreaker; cbn [circuitBreaker with_circuitBreaker].
    intros [_ H]%lookup_delete_Some. by apply (Hs d).
  - destruct (getFromCache_frame now k0 s) as (_ & -> & _). done.
  - destruct (setCache_frame now k0 v (getCacheTTL d0) s) as (_ & -> & _). done.
  - done.
  - done.
Qed.

Lemma reachable_breaker_ok w d b :
  reachable w → circuitBreaker (self w) !! d = Some b → breaker_ok (clock w) b.
Proof.
  intros Hreach. revert d b. revert w Hreach.
  apply (reachable_state_invariant
           (λ now s, ∀ d b, circuitBreaker s !! d = Some b → breaker_ok now b)).
  - intros d b. cbn [circuitBreaker new_APIOptimizer]. by rewrite lookup_empty.
  - intros now s s' Hm Hs. by apply (mutation_breaker_ok now s).
  - done.
  - intros now now' s Hle Hs d b Hd.
    destruct (Hs d b Hd) as (? & ? & ?). repeat split; try tauto. lia.
Qed.

(** X5.  The breakers [getStats] reports are consistent in every reachable
    world: the count of failures is not negative, a breaker is flagged open
    exactly when its count has reached the threshold of 5, and no failure
    is dated in the future. *)
Theorem circuitBreakers_consistent w d b :
  reachable w →
  circuitBreakers (getStats (self w)) !! d = Some b →
  breaker_ok (clock w) b.
Proof. apply reachable_breaker_ok. Qed.

(** ** The rate limiters *)

Lemma checkRateLimit_limiter_wf now d s :
  (∀ d' l, rateLimiter s !! d' = Some l → limiter_wf now d' l) →
  ∀ d' l, rateLimiter (checkRateLimit now d s).2 !! d' = Some l → limiter_wf now d' l.
Proof.
  intros Hs d' l.
  destruct (decide (d' = d)) as [->|Hne];
    [|rewrite checkRateLimit_other by done; apply Hs].
  pose proof (property_inv RATE_LIMITS d) as Hinv.
  unfold limiter_wf.
  destruct (property RATE_LIMITS d) as [rl|name|] eqn:Hp.
  - rewrite (checkRateLimit_own _ _ _ _ Hinv). cbn zeta.
    destruct (RATE_LIMITS_positive d rl Hinv) as [Hreq Hwin].
    destruct (rateLimiter s !! d) as [l0|] eqn:Hl0.
    + specialize (Hs d l0 Hl0). unfold limiter_wf in Hs. rewrite Hp in Hs.
      destruct Hs as (Hc & t & Ht & Hle).
      destruct (js_ge _ _).
      * simpl. rewrite lookup_insert_eq. intros [= <-]. simpl.
        split; [lia|]. eexists; split; [done|lia].
      * destruct (count l0 <? requests rl) eqn:Hlt.
        -- apply Z.ltb_lt in Hlt. simpl. rewrite lookup_insert_eq.
           intros [= <-]. simpl. split; [lia|]. by exists t.
        -- simpl. rewrite Hl0. intros [= <-]. split; [done|]. by exists t.
    + simpl. rewrite lookup_insert_eq. intros [= <-]. simpl.
      split; [lia|]. eexists; split; [done|lia].
  - destruct Hinv as (-> & Hnone & Hin).
    rewrite (checkRateLimit_inherited _ _ _ Hnone Hin).
    destruct (rateLimiter s !! d) as [l0|] eqn:Hl0.
    + specialize (Hs d l0 Hl0). unfold limiter_wf in Hs. rewrite Hp in Hs.
      subst l0. cbn [js_ge resetTime snd]. rewrite Hl0. by intros [= <-].
    + simpl. rewrite lookup_insert_eq. by intros [= <-].
  - rewrite (checkRateLimit_undefined _ _ _ Hp). simpl. intros Hl.
    specialize (Hs d l Hl). unfold limiter_wf in Hs. by rewrite Hp in Hs.
Qed.

Lemma mutation_limiter_wf now s s' :
  mutation now s s' →
  (∀ d l, rateLimiter s !! d = Some l → limiter_wf now d l) →
  ∀ d l, rateLimiter s' !! d = Some l → limiter_wf now d l.
Proof.
  intros Hm Hs. destruct Hm as [d0|d0|d0|d0|k0|k0 v d0 Hk0|q|fl].
  - by apply checkRateLimit_limiter_wf.
  - destruct (isCircuitOpen_frame now d0 s) as (_ & -> & _). done.
  - done.
  - done.
  - destruct (getFromCache_frame now k0 s) as (-> & _). done.
  - destruct (setCache_frame now k0 v (getCacheTTL d0) s) as (-> & _). done.
  - done.
  - done.
Qed.

Lemma limiter_wf_later now now' d l :
  now ≤ now' → limiter_wf now d l → limiter_wf now' d l.
Proof.
  intros Hle. unfold limiter_wf. destruct (property RATE_LIMITS d); [|done|done].
  intros (Hc & t & Ht & Hlt). split; [done|]. exists t. split; [done|lia].
Qed.

Lemma reachable_limiter_wf w d l :
  reachable w → rateLimiter (self w) !! d = Some l → limiter_wf (clock w) d l.
Proof.
  intros Hreach. revert d l. revert w Hreach.
  apply (reachable_state_invariant
           (λ now s, ∀ d l, rateLimiter s !! d = Some l → limiter_wf now d l)).
  - intros d l. cbn [rateLimiter new_APIOptimizer]. by rewrite lookup_empty.
  - intros now s s' Hm Hs. by apply (mutation_limiter_wf now s).
  - done.
  - intros now now' s Hle Hs d l Hd. eapply limiter_wf_later; [exact Hle|]. by apply Hs.
Qed.

(** X6.  The limiters [getStats] reports are well formed in every reachable
    world.  Only domains under which the lookup in the rate-limit table
    finds something have one.  For a domain of the table its count lies
    between 1 and the quota of the domain, and its window ends at most one
    window length from now.  For a domain named like a member of
    [Object.prototype] it has count 1 and [NaN] for its reset time, and
    from then on [checkRateLimit] refuses every request to the domain,
    whatever the time. *)
Theorem rateLimiters_well_formed w d l :
  reachable w →
  rateLimiters (getStats (self w)) !! d = Some l →
  limiter_wf (clock w) d l ∧
  (RATE_LIMITS !! d = None →
   ∀ now s, rateLimiter s = rateLimiter (self w) → checkRateLimit now d s = (false, s)).
Proof.
  intros Hreach Hl. cbn [rateLimiters getStats] in Hl.
  pose proof (reachable_limiter_wf w d l Hreach Hl) as Hwf.
  split; [done|]. intros Hno now s Hs.
  unfold limiter_wf in Hwf. pose proof (property_inv RATE_LIMITS d) as Hinv.
  destruct (property RATE_LIMITS d) as [rl|name|]; [congruence| |done].
  destruct Hinv as (_ & _ & Hin).
  rewrite (checkRateLimit_inherited _ _ _ Hno Hin), Hs, Hl, Hwf. done.
Qed.

(** ** The cache *)

(** What [setCache] leaves in the cache was written by it or was there. *)
Lemma setCache_lookup_Some now k v t s k' c :
  requestCache (setCache now k v t s) !! k' = Some c →
  (k' = k ∧ c = {| ce_data := v; ce_timestamp := now; ttl := t |}) ∨
  (k' ≠ k ∧ requestCache s !! k' = Some c).
Proof.
  unfold setCache.
  assert (<[k := {| ce_data := v; ce_timestamp := now; ttl := t |}]> (requestCache s)
            !! k' = Some c →
          (k' = k ∧ c = {| ce_data := v; ce_timestamp := now; ttl := t |}) ∨
          (k' ≠ k ∧ requestCache s !! k' = Some c)) as Hins.
  { destruct (decide (k' = k)) as [->|Hne].
    - rewrite lookup_insert_eq. intros [= <-]. by left.
    - rewrite lookup_insert_ne by done. by right. }
  destruct (_ <? _)%nat; cbn [requestCache with_requestCache cleanupCache]; [|done].
  intros [H _]%map_lookup_filter_Some. auto.
Qed.

(** [setCache] removes no entry that has not expired. *)
Lemma setCache_keeps now k v t s k' c :
  k' ≠ k → requestCache s !! k' = Some c → valid now c →
  requestCache (setCache now k v t s) !! k' = Some c.
Proof.
  intros Hne Hk' Hnow. unfold setCache.
  destruct (_ <? _)%nat; cbn [requestCache with_requestCache cleanupCache].
  - apply map_lookup_filter_Some. rewrite lookup_insert_ne by done.
    split; [done|]. exact Hnow.
  - by rewrite lookup_insert_ne.
Qed.

Lemma getCacheTTL_positive d n : getCacheTTL d = ms n → 0 < n.
Proof.
  intros H. destruct (getCacheTTL_values d) as [E|[E|[E|[_ E]]]];
    rewrite E in H; [injection H as <-; lia..|done].
Qed.

(** X7.  Insert and look up: what [setCache] writes under a key,
    [getFromCache] returns for that key until [ttl] milliseconds have
    passed, the last of them included, and leaves the cache as it is;
    later it answers [null] and removes the entry. *)
Theorem setCache_then_getFromCache now now' k v t s :
  0 ≤ t →
  (now' ≤ now + t →
   getFromCache now' k (setCache now k v (ms t) s) = (v, setCache now k v (ms t) s)) ∧
  (now + t < now' →
   getFromCache now' k (setCache now k v (ms t) s)
   = (JNull,
      with_requestCache (delete k (requestCache (setCache now k v (ms t) s)))
        (setCache now k v (ms t) s))).
Proof.
  intros Ht.
  assert (valid now {| ce_data := v; ce_timestamp := now; ttl := ms t |}) as Hv
    by (eapply valid_ms; [done|simpl; lia]).
  pose proof (setCache_lookup now k v (ms t) s Hv) as Hk. split; intros Hnow.
  - rewrite (getFromCache_valid now' k _ _ Hk); [done|].
    eapply valid_ms; [done|simpl; lia].
  - unfold getFromCache. rewrite Hk. cbn [deadline js_gt ce_timestamp ttl].
    apply Z.gtb_lt in Hnow. by rewrite Hnow.
Qed.

(** X8.  [setCache] and the size ceiling, for an entry that has not expired
    as it is written: the new entry is in the cache; nothing else is added;
    no other entry that has not expired is removed; an expired other entry
    is removed when the write leaves more than 1000 entries; while the
    cache holds at most 1000 entries after the write nothing is removed at
    all; and when more than 1000 entries are left, none of them has
    expired.  (The ceiling is no bound on the size.) *)
Theorem setCache_removes_only_expired now k v t s :
  valid now {| ce_data := v; ce_timestamp := now; ttl := t |} →
  requestCache (setCache now k v t s) !! k
  = Some {| ce_data := v; ce_timestamp := now; ttl := t |} ∧
  (∀ k' c, k' ≠ k → requestCache (setCache now k v t s) !! k' = Some c →
           requestCache s !! k' = Some c) ∧
  (∀ k' c, k' ≠ k → requestCache s !! k' = Some c → valid now c →
           requestCache (setCache now k v t s) !! k' = Some c) ∧
  (∀ k' c, k' ≠ k → requestCache s !! k' = Some c → ¬ valid now c →
           (1000 < size (<[k := {| ce_data := v; ce_timestamp := now; ttl := t |}]>
                           (requestCache s)))%nat →
           requestCache (setCache now k v t s) !! k' = None) ∧
  ((size (<[k := {| ce_data := v; ce_timestamp := now; ttl := t |}]>
            (requestCache s)) ≤ 1000)%nat →
   requestCache (setCache now k v t s)
   = <[k := {| ce_data := v; ce_timestamp := now; ttl := t |}]> (requestCache s)) ∧
  ((1000 < cacheSize (getStats (setCache now k v t s)))%nat →
   ∀ k' c, requestCache (setCache now k v t s) !! k' = Some c → valid now c).
Proof.
  intros Ht. split; [by apply setCache_lookup|].
  split.
  { intros k' c Hne H. apply setCache_lookup_Some in H as [[? _]|[_ ?]]; done. }
  split; [intros k' c; apply setCache_keeps|].
  unfold setCache, getStats; cbn [cacheSize].
  destruct (_ <? _)%nat eqn:Hsz; cbn [requestCache with_requestCache cleanupCache];
    cbn [requestCache with_requestCache] in Hsz.
  - apply Nat.ltb_lt in Hsz. split; [|split; [intros; lia|]].
    + intros k' c Hne Hk' Hexp _.
      destruct (filter _ _ !! k') as [c'|] eqn:E; [|done].
      apply map_lookup_filter_Some in E as [E Hv]. rewrite lookup_insert_ne in E by done.
      assert (c' = c) as -> by congruence. done.
    + intros _ k' c [_ H]%map_lookup_filter_Some. exact H.
  - apply Nat.ltb_ge in Hsz. split; [intros; lia|]. split; [done|]. intros; lia.
Qed.

Lemma mutation_entry_ok now s s' :
  mutation now s s' →
  (∀ k c, requestCache s !! k = Some c → entry_ok now k c) →
  ∀ k c, requestCache s' !! k = Some c → entry_ok now k c.
Proof.
  intros Hm Hs. destruct Hm as [d0|d0|d0|d0|k0|k0 v d0 Hk0|q|fl].
  - destruct (checkRateLimit_frame now d0 s) as (-> & _). done.
  - destruct (isCircuitOpen_frame now d0 s) as (-> & _). done.
  - done.
  - done.
  - intros k c. unfold getFromCache.
    destruct (requestCache s !! k0) as [c0|]; [|apply Hs].
    destruct (js_gt _ _); [|apply Hs]. cbn [snd requestCache with_requestCache].
    intros [_ H]%lookup_delete_Some. by apply Hs.
  - intros k c H. apply setCache_lookup_Some in H as [[-> ->]|[_ H]]; [|by apply Hs].
    split; [done|]. split; [simpl; lia|]. simpl.
    destruct (getCacheTTL_values d0) as [E|[E|[E|[Hin E]]]]; rewrite E; auto.
    right; right; right. by exists d0.
  - done.
  - done.
Qed.

Lemma reachable_entry_ok w k c :
  reachable w → requestCache (self w) !! k = Some c → entry_ok (clock w) k c.
Proof.
  intros Hreach. revert k c. revert w Hreach.
  apply (reachable_state_invariant
           (λ now s, ∀ k c, requestCache s !! k = Some c → entry_ok now k c)).
  - intros k c. cbn [requestCache new_APIOptimizer]. by rewrite lookup_empty.
  - intros now s s' Hm Hs. by apply (mutation_entry_ok now s).
  - intros now s _ k c. unfold clearCache; cbn [requestCache with_requestCache].
    by rewrite lookup_empty.
  - intros now now' s Hle Hs k c Hk.
    destruct (Hs k c Hk) as (? & ? & ?). repeat split; try tauto. lia.
Qed.

(** X9.  The entries of the cache are as [executeRequest] writes them, in
    every reachable world: no entry is filed under the empty key, none is
    dated in the future, and the time to live of each is one of the three
    numbers the table of [getCacheTTL] yields or, for an answer from a
    domain named like a member of [Object.prototype], that member.  An
    entry of the first kind is valid for a quarter of an hour at least from
    its time stamp and expires an hour after it at the latest; an entry of
    the second kind never expires. *)
Theorem cache_entries_well_formed w k c :
  reachable w →
  requestCache (self w) !! k = Some c →
  entry_ok (clock w) k c ∧
  (∀ n, ttl c = ms n →
        (∀ now, now ≤ ce_timestamp c + 15 * 60 * 1000 → valid now c) ∧
        (∀ now, ce_timestamp c + 60 * 60 * 1000 < now → ¬ valid now c)) ∧
  (∀ name, ttl c = member name →
           ∀ now s, requestCache s !! k = Some c →
                    getFromCache now k s = (ce_data c, s)).
Proof.
  intros Hreach Hk. pose proof (reachable_entry_ok w k c Hreach Hk) as Hok.
  split; [done|]. destruct Hok as (_ & _ & Httl). split.
  - intros n Hn. rewrite Hn in Httl.
    assert (n = 15 * 60 * 1000 ∨ n = 30 * 60 * 1000 ∨ n = 60 * 60 * 1000) as Hval.
    { destruct Httl as [E|[E|[E|(name & _ & E)]]]; [injection E; auto..|done]. }
    split; intros now Hnow; rewrite (valid_ms now c n Hn); lia.
  - intros name Hname now s Hs. apply getFromCache_valid; [done|].
    by eapply valid_member.
Qed.

(** A mutation keeps a valid entry or replaces it by one written now. *)
Lemma mutation_keeps_entry now k c s s' :
  mutation now s s' → valid now c →
  (∃ c', requestCache s !! k = Some c' ∧
         (c' = c ∨ (ce_timestamp c' = now ∧ valid now c' ∧ ∀ n, ttl c' = ms n → 0 < n))) →
  ∃ c', requestCache s' !! k = Some c' ∧
        (c' = c ∨ (ce_timestamp c' = now ∧ valid now c' ∧ ∀ n, ttl c' = ms n → 0 < n)).
Proof.
  intros Hm Hnow (c' & Hk & Hc').
  assert (valid now c') as Hv by (destruct Hc' as [->|(_ & ? & _)]; done).
  destruct Hm as [d0|d0|d0|d0|k0|k0 v d0 Hk0|q|fl].
  - destruct (checkRateLimit_frame now d0 s) as (-> & _). by exists c'.
  - destruct (isCircuitOpen_frame now d0 s) as (-> & _). by exists c'.
  - by exists c'.
  - by exists c'.
  - exists c'. split; [by apply getFromCache_keeps|done].
  - pose proof (getCacheTTL_valid now v d0 0) as Hv0.
    rewrite Z.add_0_r in Hv0. specialize (Hv0 ltac:(lia)).
    destruct (decide (k = k0)) as [->|Hne].
    + eexists. split; [by apply setCache_lookup|]. right.
      split; [done|]. split; [done|]. simpl. apply getCacheTTL_positive.
    + exists c'. split; [by apply setCache_keeps|done].
  - by exists c'.
  - by exists c'.
Qed.

(** X10.  Nothing but its expiry and [clearCache] takes a cached response
    away: after any other event, an entry that has not expired by then is
    still in the cache under its key, or a successful fetch with the same
    key has replaced it by an entry written at that moment. *)
Theorem valid_entry_survives e w w' k c :
  step e w = Some w' → e ≠ Call_clearCache →
  requestCache (self w) !! k = Some c → valid (clock w') c →
  ∃ c', requestCache (self w') !! k = Some c' ∧
        (c' = c ∨
         (ce_timestamp c' = clock w' ∧ valid (clock w') c' ∧
          ∀ n, ttl c' = ms n → 0 < n)).
Proof.
  intros Hstep Hne Hk Hnow.
  destruct (step_mutations e w w' Hstep Hne) as [Hm [Hclock|[Hself Hle]]].
  - rewrite Hclock in *.
    assert (∃ c', requestCache (self w) !! k = Some c' ∧
                  (c' = c ∨ (ce_timestamp c' = clock w ∧ valid (clock w) c' ∧
                             ∀ n, ttl c' = ms n → 0 < n))) as H
      by (exists c; auto).
    clear Hk Hstep. revert H.
    induction Hm as [|s1 s2 s3 H12 _ IH]; intros H; [done|].
    apply IH. by apply (mutation_keeps_entry _ _ _ s1).
  - rewrite Hself. exists c. auto.
Qed.

(** X11.  [clearCache] empties the cache and touches nothing else: every
    request misses the cache afterwards, while the queue (its entries, their
    order and the flag of its loop), the limiters, the breakers, the fetches
    in flight, the settled promises, the pending timers and the log of
    fetches stay as they are.  A fetch that was in flight still writes its
    answer to the cache when it succeeds. *)
Theorem clearCache_forgets_only_the_cache w :
  ∃ w', step Call_clearCache w = Some w' ∧
        cacheSize (getStats (self w')) = 0%nat ∧
        (∀ cfg, served_from_cache cfg w' = false) ∧
        requestQueue (self w') = requestQueue (self w) ∧
        isProcessingQueue (self w') = isProcessingQueue (self w) ∧
        queueLength (getStats (self w')) = queueLength (getStats (self w)) ∧
        rateLimiters (getStats (self w')) = rateLimiters (getStats (self w)) ∧
        circuitBreakers (getStats (self w')) = circuitBreakers (getStats (self w)) ∧
        flights w' = flights w ∧ settled w' = settled w ∧ timers w' = timers w ∧
        fetched w' = fetched w ∧ clock w' = clock w ∧
        ∀ p fl r k payload,
          flights w !! p = Some fl → truthy_key (f_config fl) = Some k →
          attempt_outcome r = inr payload →
          ∃ w'', step (Fetch_settles p r) w' = Some w'' ∧
                 requestCache (self w'') !! k
                 = Some {| ce_data := payload; ce_timestamp := clock w;
                           ttl := getCacheTTL (extractDomain (url (f_config fl))) |}.
Proof.
  eexists. split; [reflexivity|].
  cbn [self flights settled timers fetched clock with_self getStats cacheSize
       queueLength rateLimiters circuitBreakers requestCache rateLimiter
       circuitBreaker requestQueue isProcessingQueue with_requestCache].
  split; [apply map_size_empty|]. split.
  { intros cfg. unfold served_from_cache. destruct (truthy_key cfg) as [k|]; [|done].
    destruct (negb _); [|done]. unfold getFromCache.
    cbn [self with_self requestCache with_requestCache]. by rewrite lookup_empty. }
  do 10 (split; [done|]).
  intros p fl r k payload Hfl Hk Hr. eexists. split.
  { cbn [step flights with_self]. rewrite Hfl. reflexivity. }
  by rewrite (executeRequest_resume_caches p fl r _ k payload Hk Hr).
Qed.

(** ** The retry loop *)

(** X12.  A retry count below zero: [executeRequest] makes no fetch at all
    and rejects with the error "Request failed after all retries"; no
    failure is recorded against the breaker. *)
Theorem negative_retries_send_nothing p caller cfg w :
  default 3 (retries cfg) < 0 →
  fetched (executeRequest p caller cfg w) = fetched w ∧
  flights (executeRequest p caller cfg w) = flights w ∧
  settled (executeRequest p caller cfg w) !! p
  = Some (Rejected (new_Error "Request failed after all retries")) ∧
  circuitBreaker (self (executeRequest p caller cfg w)) = circuitBreaker (self w).
Proof.
  intros Hneg. unfold executeRequest, executeRequest_loop.
  destruct (0 <=? _) eqn:H; [apply Z.leb_le in H; lia|].
  match goal with |- context [finish ?p ?c ?r ?w] =>
    destruct (finish_frame p c r w) as (_&->&->&_&_&->&_&->&_) end.
  simpl. by rewrite lookup_insert_eq.
Qed.

(** X13.  A failed attempt that may be retried is retried at once: the next
    fetch is made in the same turn, at the same time, without a pause and
    whatever the limiter and the breaker of the domain hold (neither is
    asked: the retry is made also when the quota is used up or the breaker
    open).  The only change to the state of the optimizer is the failure the
    attempt records against the breaker, which counts one more and opens at
    the threshold; the limiters and the queue stay as they are. *)
Theorem retry_is_immediate_and_unchecked p fl r e w :
  flights w !! p = Some fl → attempt_outcome r = inl e → no_retry e = false →
  f_attempt fl < default 3 (retries (f_config fl)) →
  ∃ w', step (Fetch_settles p r) w = Some w' ∧
        fetched w'
        = fetched w ++ [{| fc_time := clock w; fc_promise := p;
                           fc_url := url (f_config fl);
                           fc_attempt := f_attempt fl + 1 |}] ∧
        flights w' !! p
        = Some {| f_config := f_config fl; f_attempt := f_attempt fl + 1;
                  f_caller := f_caller fl |} ∧
        settled w' = settled w ∧ timers w' = timers w ∧
        rateLimiter (self w') = rateLimiter (self w) ∧
        requestQueue (self w') = requestQueue (self w) ∧
        self w' = recordFailure (clock w) (extractDomain (url (f_config fl))) (self w) ∧
        circuitBreaker (self w') !! extractDomain (url (f_config fl))
        = Some {| failures := failure_count (extractDomain (url (f_config fl))) (self w) + 1;
                  lastFailure := clock w;
                  isOpen :=
                    if failureThreshold
                       <=? failure_count (extractDomain (url (f_config fl))) (self w) + 1
                    then true
                    else from_option isOpen false
                           (circuitBreaker (self w)
                              !! extractDomain (url (f_config fl))) |}.
Proof.
  intros Hfl Hr He Hlt. eexists. split; [cbn [step]; by rewrite Hfl|].
  unfold executeRequest_resume. rewrite Hr, He. unfold executeRequest_loop.
  destruct (_ <=? _) eqn:Hle; [|apply Z.leb_gt in Hle; lia].
  cbn [fetched flights settled timers self with_fetched with_flights with_self
       clock f_config f_attempt f_caller].
  rewrite lookup_insert_eq. do 6 (split; [done|]). split; [done|].
  apply recordFailure_lookup.
Qed.

(** X14.  The retry loop stops at the first success: when [n] attempts fail
    with errors that may be retried, [n] not above the retry count, and the
    next one succeeds, the request has made exactly [n + 1] fetches and
    resolves with the payload of the last; the breaker of the domain is
    removed, so the failures of the earlier attempts leave no trace, and
    the payload is in the cache under the key of the request. *)
Theorem retry_until_success p caller cfg w script dt r payload :
  Z.of_nat (length script) ≤ default 3 (retries cfg) →
  Forall (λ a : Z * FetchResult, 0 ≤ a.1 ∧ retryable_failure a.2 = true) script →
  0 ≤ dt → attempt_outcome r = inr payload →
  ∃ w',
    run (answers p (script ++ [(dt, r)])) (executeRequest p caller cfg w) = Some w' ∧
    attempt_of <$> fetched w'
      = (attempt_of <$> fetched w) ++ attempts p 0 (S (length script)) ∧
    flights w' !! p = None ∧
    settled w' !! p = Some (Resolved payload) ∧
    circuitBreaker (self w') !! extractDomain (url cfg) = None ∧
    ∀ k, truthy_key cfg = Some k →
         requestCache (self w') !! k
         = Some {| ce_data := payload; ce_timestamp := clock w';
                   ttl := getCacheTTL (extractDomain (url cfg)) |}.
Proof.
  intros Hlen Hall Hdt Hr.
  assert (0 ≤ default 3 (retries cfg)) as Hretries by lia.
  destruct (executeRequest_starts p caller cfg w Hretries) as (Hfl & Hlog & _).
  destruct (run_answers_fail_prefix p script _ _ Hfl)
    as (w1 & Hrun & Hfl1 & Hlog1 & Hset1 & _); [simpl; lia|done|].
  cbn [f_config f_attempt f_caller] in Hfl1.
  set (fl1 := {| f_config := cfg; f_attempt := 0 + Z.of_nat (length script);
                 f_caller := caller |}) in Hfl1.
  exists (executeRequest_resume p fl1 r (with_clock (clock w1 + dt) w1)).
  split.
  { unfold answers. rewrite flat_map_app. fold (answers p script).
    rewrite run_app, Hrun. cbn [mbind option_bind flat_map app run step fst snd].
    apply Z.leb_le in Hdt. rewrite Hdt. cbn [mbind option_bind flights with_clock].
    by rewrite Hfl1. }
  assert (∀ w0, fetched (executeRequest_resume p fl1 r w0) = fetched w0 ∧
                flights (executeRequest_resume p fl1 r w0) = delete p (flights w0) ∧
                settled (executeRequest_resume p fl1 r w0) !! p = Some (Resolved payload) ∧
                circuitBreaker (self (executeRequest_resume p fl1 r w0))
                  !! extractDomain (url cfg) = None ∧
                clock (executeRequest_resume p fl1 r w0) = clock w0)
    as Hres.
  { intros w0. unfold executeRequest_resume. rewrite Hr.
    match goal with |- context [finish ?p ?c ?r ?w] =>
      destruct (finish_frame p c r w) as (->&->&->&_&_&->&_&->&_) end.
    cbn [fetched flights settled self clock with_self with_flights f_config fl1].
    repeat split; [by rewrite lookup_insert_eq|].
    unfold resetCircuitBreaker; cbn [circuitBreaker with_circuitBreaker].
    by rewrite lookup_delete_eq. }
  destruct (Hres (with_clock (clock w1 + dt) w1)) as (-> & -> & -> & -> & Hclock).
  cbn [fetched flights with_clock].
  split.
  { rewrite Hlog1, Hlog, fmap_app, <- app_assoc. f_equal. simpl.
    by rewrite (attempts_cons p 0). }
  split; [by rewrite lookup_delete_eq|]. split; [done|]. split; [done|].
  intros k Hk. rewrite Hclock.
  by rewrite (executeRequest_resume_caches p fl1 r _ k payload Hk Hr).
Qed.

(** ** Admission and the queue *)

(** The answer of the limiter, and what it does to its map, depend on the
    map of limiters alone. *)
Lemma checkRateLimit_ext now d s s' :
  rateLimiter s = rateLimiter s' →
  (checkRateLimit now d s).1 = (checkRateLimit now d s').1 ∧
  rateLimiter (checkRateLimit now d s).2 = rateLimiter (checkRateLimit now d s').2.
Proof.
  intros H. unfold checkRateLimit.
  destruct (property RATE_LIMITS d); [| |done];
    (rewrite H; destruct (rateLimiter s' !! d); [|done];
     destruct (js_ge _ _); [done|]; destruct (js_lt _ _); simpl; auto).
Qed.


(** X16.  Head-of-line blocking: when the request at the head of the queue
    cannot be sent, the limiter having no slot left or the breaker of its
    domain being open, the loop of [processQueue] stops there.  It sends
    nothing and settles nothing, the entries behind the head wait with it
    whatever their domains, the flag of the loop is cleared and
    [processQueue] is scheduled 1000 ms ahead.  The limiter is consulted
    before the breaker, so a request the breaker holds back has used a slot
    of its window all the same. *)
Theorem blocked_head_blocks_the_queue w q rest :
  requestQueue (self w) = q :: rest →
  (checkRateLimit (clock w) (extractDomain (url (config q))) (self w)).1 = false ∨
  (isCircuitOpen (clock w) (extractDomain (url (config q))) (self w)).1 = true →
  requestQueue (self (processQueue_loop w)) = q :: rest ∧
  fetched (processQueue_loop w) = fetched w ∧
  flights (processQueue_loop w) = flights w ∧
  settled (processQueue_loop w) = settled w ∧
  isProcessingQueue (self (processQueue_loop w)) = false ∧
  timers (processQueue_loop w) = timers w ++ [(clock w + 1000, Reprocess)] ∧
  circuitBreaker (self (processQueue_loop w)) = circuitBreaker (self w) ∧
  rateLimiter (self (processQueue_loop w))
  = rateLimiter (checkRateLimit (clock w) (extractDomain (url (config q))) (self w)).2.
Proof.
  intros Hq Hblocked. unfold processQueue_loop. rewrite Hq.
  set (d := extractDomain (url (config q))) in *.
  destruct (checkRateLimit_ext (clock w) d (with_requestQueue rest (self w)) (self w))
    as [Hfree Hlim]; [done|].
  destruct (checkRateLimit_frame (clock w) d (with_requestQueue rest (self w)))
    as (_ & Hcb1 & Hq1 & _).
  destruct (checkRateLimit (clock w) d (with_requestQueue rest (self w)))
    as [free s1]. cbn [fst snd] in Hfree, Hlim, Hcb1, Hq1.
  cbn [circuitBreaker requestQueue with_requestQueue] in Hcb1, Hq1.
  assert (∀ s, requestQueue s = rest → circuitBreaker s = circuitBreaker (self w) →
               rateLimiter s = rateLimiter s1 →
               let w' := processQueue_end
                           (with_self (with_requestQueue (q :: requestQueue s) s) w) in
               requestQueue (self w') = q :: rest ∧ fetched w' = fetched w ∧
               flights w' = flights w ∧ settled w' = settled w ∧
               isProcessingQueue (self w') = false ∧
               timers w' = timers w ++ [(clock w + 1000, Reprocess)] ∧
               circuitBreaker (self w') = circuitBreaker (self w) ∧
               rateLimiter (self w')
               = rateLimiter (checkRateLimit (clock w) d (self w)).2) as Hend.
  { intros s Hs Hcb Hrl. unfold processQueue_end, setTimeout.
    cbn. rewrite Hs. repeat split; try done. congruence. }
  destruct free.
  - destruct Hblocked as [Hno|Hopen]; [congruence|].
    assert ((isCircuitOpen (clock w) d s1).1 = true) as Hopen1
      by (by rewrite <- Hopen; apply isCircuitOpen_ext).
    destruct (isCircuitOpen_frame (clock w) d s1) as (_ & Hr2 & Hq2 & _).
    assert (circuitBreaker (isCircuitOpen (clock w) d s1).2 = circuitBreaker s1) as Hcb2.
    { revert Hopen1. unfold isCircuitOpen.
      destruct (circuitBreaker s1 !! d) as [b|]; [|done].
      destruct (isOpen b); [|done]. by destruct (_ >? _). }
    destruct (isCircuitOpen (clock w) d s1) as [open s2].
    cbn [fst snd] in Hopen1, Hr2, Hq2, Hcb2. rewrite Hopen1. cbn [negb].
    apply Hend; congruence.
  - apply Hend; congruence.
Qed.

(** ** Where the promises are *)

Lemma finish_lands p caller r w : lands caller p w (finish p caller r w).
Proof.
  right. exists r.
  destruct (settle_frame p r w) as (Hc & Hf & Ht & _ & _ & _ & Hs & _).
  destruct caller; cbn [finish setTimeout flights settled timers with_timers].
  - by rewrite app_nil_r.
  - by rewrite Hc, Ht.
Qed.

Lemma executeRequest_loop_lands p caller cfg a le w :
  lands caller p w (executeRequest_loop p caller cfg a le w).
Proof.
  unfold executeRequest_loop. destruct (_ <=? _); [|apply finish_lands].
  left. eexists. split; [|done]. done.
Qed.

Lemma executeRequest_resume_lands p fl r w :
  lands (f_caller fl) p (with_flights (delete p (flights w)) w)
        (executeRequest_resume p fl r w).
Proof.
  unfold executeRequest_resume. destruct (attempt_outcome r) as [e|v].
  - destruct (no_retry e).
    + match goal with |- context [finish ?p ?c ?r ?w] =>
        exact (finish_lands p c r w) end.
    + match goal with |- context [executeRequest_loop ?p ?c ?g ?a ?l ?w] =>
        exact (executeRequest_loop_lands p c g a l w) end.
  - match goal with |- context [finish ?p ?c ?r ?w] =>
      exact (finish_lands p c r w) end.
Qed.

Lemma processQueue_end_timers w :
  timers (processQueue_end w)
  = timers w ++ match requestQueue (self w) with
                | [] => []
                | _ :: _ => [(clock w + 1000, Reprocess)]
                end.
Proof.
  unfold processQueue_end. cbn [self with_self requestQueue with_isProcessingQueue].
  destruct (requestQueue (self w)); [by rewrite app_nil_r|done].
Qed.

Lemma processQueue_end_shape w : loop_shape w (processQueue_end w).
Proof.
  left. destruct (processQueue_end_frame w) as (_&?&_&?&_&_&_&_&_&_&?&?).
  repeat split; try done. apply processQueue_end_timers.
Qed.

Lemma processQueue_loop_shape w : loop_shape w (processQueue_loop w).
Proof.
  unfold processQueue_loop.
  destruct (requestQueue (self w)) as [|q rest] eqn:Hq.
  { apply processQueue_end_shape. }
  set (d := extractDomain (url (config q))).
  destruct (checkRateLimit_frame (clock w) d (with_requestQueue rest (self w)))
    as (_ & _ & Hq1 & Hp1).
  destruct (checkRateLimit (clock w) d (with_requestQueue rest (self w)))
    as [free s1]. cbn [snd requestQueue isProcessingQueue with_requestQueue] in Hq1, Hp1.
  assert (∀ s, requestQueue s = rest →
               loop_shape w (processQueue_end
                               (with_self (with_requestQueue (q :: requestQueue s) s) w)))
    as Hend.
  { intros s Hs. left.
    match goal with |- context [processQueue_end ?w0] =>
      destruct (processQueue_end_frame w0) as (_&?&_&?&_&_&_&_&_&_&Hq'&?);
      pose proof (processQueue_end_timers w0) as Ht end.
    rewrite Hq. cbn [self with_self requestQueue with_requestQueue clock timers] in *.
    rewrite Hs in *. done. }
  destruct free; [|by apply Hend].
  destruct (isCircuitOpen_frame (clock w) d s1) as (_ & _ & Hq2 & Hp2).
  destruct (isCircuitOpen (clock w) d s1) as [open s2].
  cbn [snd] in Hq2, Hp2. destruct open; cbn [negb]; [apply Hend; congruence|].
  right. exists q, rest. split; [done|].
  unfold executeRequest.
  match goal with |- context [executeRequest_loop ?p ?c ?g ?a ?l ?w0] =>
    destruct (executeRequest_loop_frame p c g a l w0) as (_&_&_&_&_&->&->);
    pose proof (executeRequest_loop_lands p c g a l w0) as Hl end.
  cbn [self with_self]. split; [congruence|]. split; [congruence|]. exact Hl.
Qed.

Lemma processQueue_shape w :
  (processQueue w = w ∧
   (isProcessingQueue (self w) = true ∨ requestQueue (self w) = [])) ∨
  (isProcessingQueue (self w) = false ∧ requestQueue (self w) ≠ [] ∧
   loop_shape (with_self (with_isProcessingQueue true (self w)) w) (processQueue w)).
Proof.
  unfold processQueue.
  destruct (isProcessingQueue (self w)) eqn:Hp; [by left; auto|].
  destruct (requestQueue (self w)) as [|q rest] eqn:Hq; [by left; auto|].
  right. cbn [orb]. rewrite bool_decide_eq_false_2 by done.
  split; [done|]. split; [done|]. apply processQueue_loop_shape.
Qed.

Lemma request_shape p cfg w :
  (requestQueue (self (request p cfg w)) = requestQueue (self w) ∧
   isProcessingQueue (self (request p cfg w)) = isProcessingQueue (self w) ∧
   lands FromRequest p w (request p cfg w)) ∨
  (∃ s,
     requestQueue s
     = enqueue {| id := generateId p; config := cfg; promise := p;
                  qr_priority := getPriorityIndex (default medium (priority cfg));
                  qr_timestamp := clock w |} (requestQueue (self w)) ∧
     isProcessingQueue s = isProcessingQueue (self w) ∧
     request p cfg w = processQueue (with_self s w)).
Proof.
  unfold request.
  set (c := match truthy_key cfg with Some _ => _ | None => _ end).
  assert (requestQueue c.2 = requestQueue (self w) ∧
          isProcessingQueue c.2 = isProcessingQueue (self w)) as [Hc1 Hc2].
  { subst c. destruct (truthy_key cfg) as [k|]; [|done].
    destruct (negb _); [|done].
    destruct (getFromCache_frame (clock w) k (self w)) as (_&_&?&?). done. }
  destruct c as [cached s0]. cbn [snd] in Hc1, Hc2.
  assert (∀ r s, requestQueue s = requestQueue (self w) →
                 isProcessingQueue s = isProcessingQueue (self w) →
                 requestQueue (self (settle p r (with_self s w))) = requestQueue (self w) ∧
                 isProcessingQueue (self (settle p r (with_self s w)))
                 = isProcessingQueue (self w) ∧
                 lands FromRequest p w (settle p r (with_self s w))) as Hsettle.
  { intros r s Hs1 Hs2.
    destruct (settle_frame p r (with_self s w)) as (_&_&_&_&_&_&_&_&_&->&->).
    split; [done|]. split; [done|]. exact (finish_lands p FromRequest r (with_self s w)). }
  destruct (truthy cached); [left; by apply Hsettle|].
  cbn [self clock with_self].
  destruct (isCircuitOpen_frame (clock w) (extractDomain (url cfg)) s0)
    as (_ & _ & Hq1 & Hp1).
  destruct (isCircuitOpen _ _ _) as [open s1]. cbn [snd] in Hq1, Hp1.
  destruct open; [left; apply Hsettle; congruence|].
  destruct (checkRateLimit_frame (clock w) (extractDomain (url cfg)) s1)
    as (_ & _ & Hq2 & Hp2).
  destruct (checkRateLimit _ _ _) as [free s2]. cbn [snd] in Hq2, Hp2.
  destruct free; cbn [negb].
  - left. unfold executeRequest.
    match goal with |- context [executeRequest_loop ?p ?c ?g ?a ?l ?w0] =>
      destruct (executeRequest_loop_frame p c g a l w0) as (_&_&_&_&_&->&->);
      pose proof (executeRequest_loop_lands p c g a l w0) as Hl end.
    cbn [self with_self]. split; [congruence|]. split; [congruence|]. exact Hl.
  - right. unfold queueRequest. cbn [self clock with_self].
    eexists. split; [|split; [|reflexivity]];
      cbn [requestQueue isProcessingQueue with_requestQueue]; congruence.
Qed.

Lemma places_ok_same w w' :
  flights w' = flights w → settled w' = settled w →
  requestQueue (self w') = requestQueue (self w) →
  places_ok w → places_ok w'.
Proof.
  intros Hf Hs Hq [H1 H2 H3]. unfold waiting in *.
  split; unfold waiting; rewrite ?Hf, ?Hs, ?Hq; done.
Qed.

Lemma advances_same w w' :
  flights w' = flights w → settled w' = settled w →
  requestQueue (self w') = requestQueue (self w) →
  places_ok w → advances w w'.
Proof.
  intros Hf Hs Hq Hok. split; [by apply (places_ok_same w)|].
  unfold placed, waiting. rewrite Hf, Hs, Hq. done.
Qed.

Lemma advances_trans w1 w2 w3 : advances w1 w2 → advances w2 w3 → advances w1 w3.
Proof.
  intros (_ & Hs1 & Hp1) (Hok & Hs2 & Hp2).
  split; [done|]. split; [by etrans|]. auto.
Qed.

(** A promise that is nowhere lands: it has a place, and the others keep
    theirs. *)
Lemma advances_lands caller p w w' :
  places_ok w → lands caller p w w' →
  NoDup (waiting w') →
  (∀ x, x ∈ waiting w' → x ∈ waiting w ∧ x ≠ p) →
  (∀ x, x ∈ waiting w → x ∈ waiting w' ∨ x = p) →
  flights w !! p = None → settled w !! p = None →
  advances w w' ∧ placed w' p.
Proof.
  intros [H1 H2 H3] Hl Hnd Hsub Hsup Hfp Hsp.
  destruct Hl as [(fl & _ & Hf & Hs & _)|(r & Hf & Hs & _)].
  - split; [split; [split|split]|].
    + done.
    + intros x Hx. destruct (Hsub x Hx) as [Hx' Hne].
      destruct (H2 x Hx') as [? ?]. rewrite Hf, Hs. by rewrite lookup_insert_ne.
    + intros x. rewrite Hf, Hs. destruct (decide (x = p)) as [->|Hne]; [done|].
      rewrite lookup_insert_ne by done. apply H3.
    + by rewrite Hs.
    + intros x [Hx|[Hx|Hx]].
      * left. by rewrite Hs.
      * right; left. rewrite Hf. apply lookup_insert_is_Some'. by right.
      * destruct (Hsup x Hx) as [?| ->]; [by right; right|].
        right; left. rewrite Hf, lookup_insert_eq. done.
    + right; left. rewrite Hf, lookup_insert_eq. done.
  - split; [split; [split|split]|].
    + done.
    + intros x Hx. destruct (Hsub x Hx) as [Hx' Hne].
      destruct (H2 x Hx') as [? ?]. rewrite Hf, Hs. by rewrite lookup_insert_ne.
    + intros x. rewrite Hf, Hs. intros Hx.
      destruct (decide (x = p)) as [->|Hne].
      { rewrite Hfp in Hx. by destruct Hx. }
      rewrite lookup_insert_ne by done. by apply H3.
    + rewrite Hs. by apply insert_subseteq.
    + intros x [Hx|[Hx|Hx]].
      * left. rewrite Hs. apply lookup_insert_is_Some'. by right.
      * right; left. by rewrite Hf.
      * destruct (Hsup x Hx) as [?| ->]; [by right; right|].
        left. rewrite Hs, lookup_insert_eq. done.
    + left. rewrite Hs, lookup_insert_eq. done.
Qed.

Lemma advances_executeRequest_loop p caller cfg a le w :
  places_ok w → flights w !! p = None → settled w !! p = None → p ∉ waiting w →
  advances w (executeRequest_loop p caller cfg a le w) ∧
  placed (executeRequest_loop p caller cfg a le w) p.
Proof.
  intros Hok Hfp Hsp Hwp.
  destruct (executeRequest_loop_frame p caller cfg a le w) as (_&_&_&_&_&Hq&_).
  assert (waiting (executeRequest_loop p caller cfg a le w) = waiting w) as Hw
    by (unfold waiting; by rewrite Hq).
  apply (advances_lands caller); try done.
  - apply executeRequest_loop_lands.
  - rewrite Hw. apply Hok.
  - intros x. rewrite Hw. intros Hx. split; [done|]. by intros ->.
  - intros x. rewrite Hw. auto.
Qed.

Lemma advances_resume p fl r w :
  places_ok w → flights w !! p = Some fl →
  advances w (executeRequest_resume p fl r w).
Proof.
  intros Hok Hfl.
  destruct (executeRequest_resume_frame p fl r w) as (_&_&_&_&Hq&_).
  assert (waiting (executeRequest_resume p fl r w) = waiting w) as Hw
    by (unfold waiting; by rewrite Hq).
  set (w0 := with_flights (delete p (flights w)) w).
  assert (p ∉ waiting w) as Hwp.
  { intros Hin. destruct (po_queue w Hok p Hin) as [E _]. congruence. }
  assert (places_ok w0) as Hok0.
  { destruct Hok as [H1 H2 H3]. split; [done| |].
    - intros x Hx. destruct (H2 x Hx) as [E ?]. split; [|done].
      subst w0; cbn [flights with_flights].
      apply lookup_delete_None. by right.
    - intros x. subst w0; cbn [flights with_flights settled].
      intros [y [_ Hy]%lookup_delete_Some]. by apply H3. }
  destruct (advances_lands (f_caller fl) p w0 (executeRequest_resume p fl r w))
    as [(Hok' & Hs' & Hp') Hpl]; try done.
  - apply executeRequest_resume_lands.
  - rewrite Hw. apply Hok.
  - intros x. rewrite Hw. intros Hx. split; [done|]. by intros ->.
  - intros x. rewrite Hw. auto.
  - subst w0; cbn [flights with_flights]. by rewrite lookup_delete_eq.
  - apply (po_flight w Hok). by rewrite Hfl.
  - split; [done|]. split; [done|].
    intros x Hx. destruct (decide (x = p)) as [->|Hne]; [done|].
    apply Hp'. destruct Hx as [Hx|[Hx|Hx]]; [by left| |by right; right].
    right; left. subst w0; cbn [flights with_flights].
    by rewrite lookup_delete_ne.
Qed.

Lemma advances_loop_shape w w' : places_ok w → loop_shape w w' → advances w w'.
Proof.
  intros Hok [(Hf & Hs & Hq & _)|(q & rest & Hq & Hq' & _ & Hl)].
  { by apply advances_same. }
  assert (waiting w = promise q :: waiting w') as Hw
    by (unfold waiting; by rewrite Hq, Hq').
  pose proof (po_nodup w Hok) as Hnd. rewrite Hw in Hnd.
  apply NoDup_cons in Hnd as [Hnotin Hnd].
  destruct (po_queue w Hok (promise q)) as [Hfp Hsp]; [rewrite Hw; by left|].
  apply (advances_lands FromQueue (promise q)); try done.
  - intros x Hx. split; [rewrite Hw; by right|]. by intros ->.
  - intros x. rewrite Hw. intros [->|?]%elem_of_cons; auto.
Qed.

Lemma advances_processQueue w : places_ok w → advances w (processQueue w).
Proof.
  intros Hok. destruct (processQueue_shape w) as [[-> _]|(_ & _ & Hl)].
  { by apply advances_same. }
  apply advances_loop_shape in Hl; [exact Hl|].
  by apply (places_ok_same w).
Qed.

Lemma enqueue_Permutation q l : enqueue q l ≡ₚ q :: l.
Proof.
  destruct (enqueue_position q l) as (l1 & l2 & -> & -> & _).
  by rewrite Permutation_middle.
Qed.

Lemma advances_request p cfg w :
  places_ok w → flights w !! p = None → settled w !! p = None → p ∉ waiting w →
  advances w (request p cfg w) ∧ placed (request p cfg w) p.
Proof.
  intros Hok Hfp Hsp Hwp.
  destruct (request_shape p cfg w) as [(Hq & _ & Hl)|(s & Hq & _ & ->)].
  - assert (waiting (request p cfg w) = waiting w) as Hw
      by (unfold waiting; by rewrite Hq).
    apply (advances_lands FromRequest); try done.
    + rewrite Hw. apply Hok.
    + intros x. rewrite Hw. intros Hx. split; [done|]. by intros ->.
    + intros x. rewrite Hw. auto.
  - set (q0 := {| id := generateId p; config := cfg; promise := p;
                  qr_priority := getPriorityIndex (default medium (priority cfg));
                  qr_timestamp := clock w |}) in Hq.
    assert (waiting (with_self s w) ≡ₚ p :: waiting w) as Hperm.
    { unfold waiting. cbn [self with_self]. rewrite Hq.
      by rewrite (enqueue_Permutation q0). }
    assert (places_ok (with_self s w)) as Hok1.
    { destruct Hok as [H1 H2 H3]. split.
      - rewrite Hperm. by apply NoDup_cons.
      - intros x. rewrite Hperm. cbn [flights settled with_self].
        intros [->|Hx]%elem_of_cons; [done|]. by apply H2.
      - done. }
    assert (placed (with_self s w) p) as Hpl.
    { right; right. rewrite Hperm. by left. }
    pose proof (advances_processQueue _ Hok1) as (Hok' & Hs' & Hp').
    split; [|by apply Hp'].
    split; [done|]. split; [done|]. intros x Hx. apply Hp'.
    destruct Hx as [Hx|[Hx|Hx]]; [by left|by right; left|].
    right; right. rewrite Hperm. by right.
Qed.

(** A promise not yet handed out is nowhere. *)
Lemma fresh_promise_nowhere w p :
  promises_ok w → (next_promise w ≤ p)%nat →
  flights w !! p = None ∧ settled w !! p = None ∧ p ∉ waiting w.
Proof.
  intros [Hfl Hq Hs _ _ _ _] Hle. split; [|split].
  - destruct (flights w !! p) as [fl|] eqn:E; [|done].
    destruct (Hfl p fl E). lia.
  - destruct (settled w !! p) as [r|] eqn:E; [|done].
    specialize (Hs p (mk_is_Some _ _ E)). lia.
  - unfold waiting. intros (q & -> & Hin)%list_elem_of_fmap.
    destruct (Hq q Hin). lia.
Qed.

Lemma advances_call_request cfg w :
  promises_ok w → places_ok w →
  advances w (call_request cfg w) ∧ placed (call_request cfg w) (next_promise w).
Proof.
  intros Hpr Hok. unfold call_request.
  destruct (fresh_promise_nowhere w (next_promise w) Hpr) as (? & ? & ?); [lia|].
  assert (places_ok (with_next_promise (S (next_promise w)) w)) as Hok1
    by (by apply (places_ok_same w)).
  exact (advances_request (next_promise w) cfg _ Hok1 H H0 H1).
Qed.

Lemma advances_batch_item cfg w :
  promises_ok w → places_ok w →
  advances w (batch_item cfg w) ∧ placed (batch_item cfg w) (next_promise w).
Proof.
  intros Hpr Hok. unfold batch_item.
  destruct (fresh_promise_nowhere w (next_promise w) Hpr) as (? & ? & ?); [lia|].
  set (w1 := with_wrappers _ (with_next_promise (S (next_promise w)) w)).
  assert (places_ok w1) as Hok1 by (by apply (places_ok_same w)).
  exact (advances_request (next_promise w) cfg w1 Hok1 H H0 H1).
Qed.

Lemma next_promise_batch_item cfg w :
  next_promise (batch_item cfg w) = S (next_promise w).
Proof.
  unfold batch_item.
  match goal with |- context [request ?p ?c ?w0] =>
    destruct (request_frame p c w0) as (_ & _ & ->) end. done.
Qed.

Lemma advances_call_batchRequests cfgs w :
  promises_ok w → places_ok w →
  advances w (call_batchRequests cfgs w) ∧
  next_promise (call_batchRequests cfgs w) = (next_promise w + length cfgs)%nat ∧
  ∀ p, (next_promise w ≤ p < next_promise w + length cfgs)%nat →
       placed (call_batchRequests cfgs w) p.
Proof.
  unfold call_batchRequests. revert w.
  induction cfgs as [|cfg cfgs IH]; intros w Hpr Hok.
  { cbn [foldl length]. split; [by apply advances_same|]. split; [lia|]. intros p; lia. }
  cbn [foldl length].
  destruct (advances_batch_item cfg w Hpr Hok) as [Hadv Hpl].
  destruct (IH (batch_item cfg w)) as (Hadv' & Hnext & Hpl').
  { by apply promises_ok_batch_item. }
  { apply Hadv. }
  rewrite next_promise_batch_item in Hnext, Hpl'.
  split; [by apply (advances_trans _ (batch_item cfg w))|].
  split; [lia|].
  intros p Hp. destruct (decide (p = next_promise w)) as [->|Hne].
  - by apply Hadv'.
  - apply Hpl'. lia.
Qed.

Lemma advances_step e w w' :
  promises_ok w → places_ok w → step e w = Some w' →
  advances w w' ∧
  ∀ p, (next_promise w ≤ p < next_promise w')%nat → placed w' p.
Proof.
  intros Hpr Hok Hstep. destruct e as [cfg|cfgs| |p r|i|dt]; simpl in Hstep.
  - injection Hstep as <-.
    destruct (advances_call_request cfg w Hpr Hok) as [Hadv Hpl].
    split; [done|]. intros p.
    unfold call_request at 1.
    match goal with |- context [next_promise (request ?p ?c ?w0)] =>
      destruct (request_frame p c w0) as (_ & _ & ->) end.
    cbn [next_promise with_next_promise]. intros Hp.
    by replace p with (next_promise w) by lia.
  - injection Hstep as <-.
    destruct (advances_call_batchRequests cfgs w Hpr Hok) as (Hadv & -> & Hpl).
    done.
  - injection Hstep as <-. split; [by apply advances_same|].
    cbn [next_promise with_self]. intros p; lia.
  - destruct (flights w !! p) as [fl|] eqn:Hfl; [|done]. injection Hstep as <-.
    split; [by apply advances_resume|].
    destruct (executeRequest_resume_frame p fl r w) as (_&_&->&_). intros p'; lia.
  - destruct (timers w !! i) as [[due what]|]; [|done]. simpl in Hstep.
    destruct (due <=? clock w); [|done]. injection Hstep as <-.
    destruct what.
    + match goal with |- context [processQueue_loop ?w0] =>
        destruct (processQueue_loop_frame w0) as (_ & _ & ->);
        pose proof (processQueue_loop_shape w0) as Hl end.
      split; [|cbn [next_promise with_timers]; intros p'; lia].
      apply advances_loop_shape in Hl; [exact Hl|]. by apply (places_ok_same w).
    + match goal with |- context [processQueue ?w0] =>
        pose proof (advances_processQueue w0) as Hadv end.
      split; [apply Hadv; by apply (places_ok_same w)|].
      unfold processQueue. destruct (_ || _); [cbn; intros p'; lia|].
      match goal with |- context [processQueue_loop ?w0] =>
        destruct (processQueue_loop_frame w0) as (_ & _ & ->) end.
      cbn [next_promise with_timers with_self]. intros p'; lia.
  - destruct (0 <=? dt); [|done]. injection Hstep as <-.
    split; [by apply advances_same|]. cbn [next_promise with_clock]. intros p'; lia.
Qed.

Lemma reachable_places w :
  reachable w → places_ok w ∧ ∀ p, (p < next_promise w)%nat → placed w p.
Proof.
  apply (reachable_invariant
           (λ w, places_ok w ∧ ∀ p, (p < next_promise w)%nat → placed w p)).
  - split; [split|].
    + constructor.
    + intros p Hp. by apply elem_of_nil in Hp.
    + intros p [x Hx]. cbn [flights new_World] in Hx. by rewrite lookup_empty in Hx.
    + cbn [next_promise new_World]. intros p; lia.
  - intros e w0 w1 Hreach [Hok Hpl] Hstep.
    destruct (advances_step e w0 w1 (reachable_promises_ok w0 Hreach) Hok Hstep)
      as [(Hok' & _ & Hmono) Hnew].
    split; [done|]. intros p Hp.
    destruct (decide (p < next_promise w0)%nat); [by apply Hmono, Hpl|].
    apply Hnew. lia.
Qed.

Lemma reachable_placed_iff w p :
  reachable w → (p < next_promise w)%nat ↔ placed w p.
Proof.
  intros Hreach. destruct (reachable_places w Hreach) as [Hok Hpl].
  split; [apply Hpl|].
  destruct (reachable_promises_ok w Hreach) as [Hfl Hq Hs _ _ _ _].
  intros [Hp|[[fl Hp]|Hp]].
  - by apply Hs.
  - by destruct (Hfl p fl Hp).
  - unfold waiting in Hp. apply list_elem_of_fmap in Hp as (q & -> & Hin).
    by destruct (Hq q Hin).
Qed.

(** X17.  No request is lost and none is answered twice: in every
    reachable world each promise [request] has handed out is in exactly
    one place; it has settled, or its fetch is in flight, or it waits in
    the queue, where it has one entry. *)
Theorem every_promise_is_in_one_place w :
  reachable w →
  places_ok w ∧ ∀ p, (p < next_promise w)%nat ↔ placed w p.
Proof.
  intros Hreach. split; [by apply reachable_places|].
  intros p. by apply reachable_placed_iff.
Qed.

(** X18.  A settlement is final: once a promise has settled, no later
    event changes what it settled with. *)
Theorem settlement_is_final es w w' p r :
  reachable w → run es w = Some w' →
  settled w !! p = Some r → settled w' !! p = Some r.
Proof.
  revert w. induction es as [|e es IH]; intros w Hreach Hrun Hp; simpl in Hrun.
  { by injection Hrun as <-. }
  destruct (step e w) as [w1|] eqn:Hstep; [|done]. simpl in Hrun.
  apply (IH w1); [by eapply reachable_step|done|].
  destruct (advances_step e w w1) as [(_ & Hsub & _) _]; [| |done|].
  - by apply reachable_promises_ok.
  - by apply reachable_places.
  - by apply (lookup_weaken _ _ _ _ Hp).
Qed.

(** ** One cycle of the queue loop at a time *)

Lemma pauses_delete (l : list (Z * Timer)) i x :
  l !! i = Some x →
  length (filter (λ t : Z * Timer, t.2 = Pause) l)
  = (length (filter (λ t : Z * Timer, t.2 = Pause) (delete i l))
     + if decide (x.2 = Pause) then 1 else 0)%nat.
Proof.
  intros Hi. rewrite delete_take_drop.
  rewrite <- (take_drop_middle l i x Hi) at 1.
  rewrite !filter_app, filter_cons, !length_app.
  destruct (decide (x.2 = Pause)); simpl; lia.
Qed.

Lemma queue_flights_insert (m : gmap nat Flight) p fl :
  m !! p = None →
  size (filter (λ pf : nat * Flight, f_caller pf.2 = FromQueue) (<[p := fl]> m))
  = (size (filter (λ pf : nat * Flight, f_caller pf.2 = FromQueue) m)
     + if decide (f_caller fl = FromQueue) then 1 else 0)%nat.
Proof.
  intros Hp. destruct (decide (f_caller fl = FromQueue)) as [Hq|Hq].
  - rewrite map_filter_insert_True by done.
    rewrite map_size_insert_None; [lia|]. by apply map_lookup_filter_None_2; left.
  - rewrite map_filter_insert_False by done. rewrite delete_id by done. lia.
Qed.

Lemma queue_flights_delete (m : gmap nat Flight) p fl :
  m !! p = Some fl →
  size (filter (λ pf : nat * Flight, f_caller pf.2 = FromQueue) m)
  = (size (filter (λ pf : nat * Flight, f_caller pf.2 = FromQueue) (delete p m))
     + if decide (f_caller fl = FromQueue) then 1 else 0)%nat.
Proof.
  intros Hp. rewrite <- (insert_delete_id m p fl Hp) at 1.
  apply queue_flights_insert. by rewrite lookup_delete_eq.
Qed.

Lemma drain_wakeups_lands caller p w w' :
  lands caller p w w' → flights w !! p = None →
  drain_wakeups w'
  = (drain_wakeups w + match caller with FromQueue => 1 | FromRequest => 0 end)%nat.
Proof.
  intros [(fl & Hc & Hf & _ & Ht)|(r & Hf & _ & Ht)] Hp; unfold drain_wakeups.
  - rewrite Hf, Ht, queue_flights_insert by done. rewrite Hc.
    destruct caller; simpl; lia.
  - rewrite Hf, Ht, filter_app, length_app. destruct caller; simpl; lia.
Qed.

Lemma one_cycle_resume p fl r w :
  flights w !! p = Some fl → one_cycle w → one_cycle (executeRequest_resume p fl r w).
Proof.
  intros Hfl Hone. unfold one_cycle in *.
  destruct (executeRequest_resume_frame p fl r w) as (_&_&_&_&_&->).
  rewrite <- Hone.
  rewrite (drain_wakeups_lands _ _ _ _ (executeRequest_resume_lands p fl r w))
    by (cbn [flights with_flights]; by rewrite lookup_delete_eq).
  unfold drain_wakeups at 2. rewrite (queue_flights_delete _ p fl Hfl).
  unfold drain_wakeups. cbn [flights timers with_flights].
  destruct (f_caller fl); simpl; lia.
Qed.

Lemma one_cycle_loop_shape w w' :
  places_ok w → loop_shape w w' →
  drain_wakeups w = 0%nat → isProcessingQueue (self w) = true →
  one_cycle w'.
Proof.
  intros Hok [(Hf & _ & _ & Hp & Ht)|(q & rest & Hq & _ & Hp & Hl)] H0 Hflag;
    unfold one_cycle.
  - rewrite Hp. rewrite <- H0. unfold drain_wakeups.
    rewrite Hf, Ht, filter_app, length_app.
    destruct (requestQueue (self w)); simpl; lia.
  - rewrite Hp, Hflag.
    rewrite (drain_wakeups_lands _ _ _ _ Hl); [lia|].
    apply (po_queue w Hok). unfold waiting. rewrite Hq. by left.
Qed.

Lemma one_cycle_processQueue w :
  places_ok w → one_cycle w → one_cycle (processQueue w).
Proof.
  intros Hok Hone. destruct (processQueue_shape w) as [[-> _]|(Hflag & _ & Hl)].
  { done. }
  set (w1 := with_self (with_isProcessingQueue true (self w)) w) in *.
  assert (places_ok w1) as Hok1 by (by apply (places_ok_same w)).
  apply (one_cycle_loop_shape w1 _ Hok1 Hl); [|done].
  unfold one_cycle in Hone. by rewrite Hflag in Hone.
Qed.

Lemma one_cycle_request p cfg w :
  places_ok w → flights w !! p = None → settled w !! p = None → p ∉ waiting w →
  one_cycle w → one_cycle (request p cfg w).
Proof.
  intros Hok Hfp Hsp Hwp Hone.
  destruct (request_shape p cfg w) as [(_ & Hp & Hl)|(s & Hq & Hp & Heq)].
  - unfold one_cycle in *. rewrite Hp, <- Hone.
    rewrite (drain_wakeups_lands _ _ _ _ Hl) by done. lia.
  - rewrite Heq. apply one_cycle_processQueue.
    + destruct Hok as [H1 H2 H3].
      assert (waiting (with_self s w) ≡ₚ p :: waiting w) as Hperm.
      { unfold waiting. cbn [self with_self]. rewrite Hq.
        by rewrite enqueue_Permutation. }
      split.
      * rewrite Hperm. by apply NoDup_cons.
      * intros x. rewrite Hperm. cbn [flights settled with_self].
        intros [->|Hx]%elem_of_cons; [done|]. by apply H2.
      * done.
    + unfold one_cycle in *. cbn [self with_self]. by rewrite Hp.
Qed.

Lemma one_cycle_batch_item cfg w :
  promises_ok w → places_ok w → one_cycle w → one_cycle (batch_item cfg w).
Proof.
  intros Hpr Hok Hone. unfold batch_item.
  destruct (fresh_promise_nowhere w (next_promise w) Hpr) as (? & ? & ?); [lia|].
  set (w1 := with_wrappers _ (with_next_promise (S (next_promise w)) w)).
  assert (places_ok w1) as Hok1 by (by apply (places_ok_same w)).
  by apply (one_cycle_request (next_promise w) cfg w1).
Qed.

Lemma one_cycle_call_batchRequests cfgs w :
  promises_ok w → places_ok w → one_cycle w → one_cycle (call_batchRequests cfgs w).
Proof.
  unfold call_batchRequests. revert w.
  induction cfgs as [|cfg cfgs IH]; intros w Hpr Hok Hone; [done|].
  cbn [foldl]. apply IH.
  - by apply promises_ok_batch_item.
  - by apply advances_batch_item.
  - by apply one_cycle_batch_item.
Qed.

Lemma one_cycle_step e w w' :
  promises_ok w → places_ok w → one_cycle w → step e w = Some w' → one_cycle w'.
Proof.
  intros Hpr Hok Hone Hstep. destruct e as [cfg|cfgs| |p r|i|dt]; simpl in Hstep.
  - injection Hstep as <-. unfold call_request.
    destruct (fresh_promise_nowhere w (next_promise w) Hpr) as (? & ? & ?); [lia|].
    assert (places_ok (with_next_promise (S (next_promise w)) w)) as Hok1
      by (by apply (places_ok_same w)).
    by apply (one_cycle_request (next_promise w) cfg _ Hok1).
  - injection Hstep as <-. by apply one_cycle_call_batchRequests.
  - by injection Hstep as <-.
  - destruct (flights w !! p) as [fl|] eqn:Hfl; [|done]. injection Hstep as <-.
    by apply one_cycle_resume.
  - destruct (timers w !! i) as [[due what]|] eqn:Hi; [|done]. simpl in Hstep.
    destruct (due <=? clock w); [|done]. injection Hstep as <-.
    set (w0 := with_timers (delete i (timers w)) w).
    assert (places_ok w0) as Hok0 by (by apply (places_ok_same w)).
    assert (drain_wakeups w
            = (drain_wakeups w0 + if decide (what = Pause) then 1 else 0)%nat) as Hd.
    { unfold drain_wakeups. cbn [timers flights with_timers w0].
      rewrite (pauses_delete (timers w) i (due, what) Hi). simpl. lia. }
    unfold one_cycle in Hone. destruct what.
    + rewrite decide_True in Hd by done.
      destruct (isProcessingQueue (self w)) eqn:Hflag; [|lia].
      apply (one_cycle_loop_shape w0 _ Hok0 (processQueue_loop_shape w0)); [lia|done].
    + rewrite decide_False in Hd by done.
      apply one_cycle_processQueue; [done|].
      unfold one_cycle. cbn [self with_timers w0]. lia.
  - destruct (0 <=? dt); [|done]. by injection Hstep as <-.
Qed.

Lemma reachable_one_cycle w : reachable w → one_cycle w.
Proof.
  apply (reachable_invariant one_cycle); [done|].
  intros e w0 w1 Hreach Hone Hstep.
  apply (one_cycle_step e w0); try done.
  - by apply reachable_promises_ok.
  - by apply reachable_places.
Qed.

(** X19.  One cycle of the queue loop at a time: in every reachable world,
    while the flag [isProcessingQueue] is set exactly one continuation of
    the loop of [processQueue] is pending, the fetch it awaits or its
    100 ms pause, and while the flag is clear there is none. *)
Theorem one_cycle_at_a_time w : reachable w → one_cycle w.
Proof. apply reachable_one_cycle. Qed.

(** X20.  What [getStats] reports as the length of the queue: the number of
    requests made so far that have neither settled nor a fetch in flight. *)
Theorem queueLength_counts_the_waiting w :
  reachable w →
  (queueLength (getStats (self w)) + size (flights w) + size (settled w))%nat
  = next_promise w.
Proof.
  intros Hreach. destruct (reachable_places w Hreach) as [[Hnd Hq Hf] _].
  cbn [queueLength getStats].
  assert (dom (settled w) ∪ dom (flights w) ∪ list_to_set (waiting w)
          = (set_seq 0 (next_promise w) : gset nat)) as Hset.
  { apply set_eq. intros p. rewrite elem_of_set_seq.
    rewrite (reachable_placed_iff w p Hreach). unfold placed.
    rewrite !elem_of_union, !elem_of_dom, elem_of_list_to_set.
    split; [intros H; split; [lia|tauto]|intros [_ H]; tauto]. }
  apply (f_equal size) in Hset. rewrite size_set_seq in Hset.
  rewrite !size_union in Hset.
  - rewrite !size_dom, size_list_to_set in Hset by done.
    unfold waiting in Hset. rewrite length_fmap in Hset. lia.
  - apply elem_of_disjoint. intros p. rewrite !elem_of_dom. intros Hs Hfl.
    rewrite (Hf p Hfl) in Hs. by destruct Hs.
  - apply elem_of_disjoint. intros p.
    rewrite elem_of_union, !elem_of_dom, elem_of_list_to_set.
    intros [Hs|Hfl] Hw; destruct (Hq p Hw) as [E1 E2].
    + rewrite E2 in Hs. by destruct Hs.
    + rewrite E1 in Hfl. by destruct Hfl.
Qed.

(** ** Batches answered from the cache *)

Lemma batch_item_hit cfg w :
  cache_hit (clock w) (self w) cfg →
  self (batch_item cfg w) = self w ∧ clock (batch_item cfg w) = clock w ∧
  fetched (batch_item cfg w) = fetched w ∧ flights (batch_item cfg w) = flights w ∧
  timers (batch_item cfg w) = timers w ∧
  next_promise (batch_item cfg w) = S (next_promise w) ∧
  outcomes (batch_item cfg w)
  = <[next_promise w := fulfilled (hit_record (self w) cfg)]> (outcomes w).
Proof.
  intros (k & c & Hk & Hskip & Hc & Hnow & Ht). unfold batch_item.
  rewrite (request_served_from_cache (next_promise w) cfg
             (with_wrappers (<[next_promise w := (clock w, cfg)]> (wrappers w))
                (with_next_promise (S (next_promise w)) w))
             k c Hk Hskip Hc Hnow Ht).
  unfold settle. cbn [wrappers with_wrappers with_settled].
  rewrite lookup_insert_eq. unfold batch_callback. rewrite Hk.
  cbn [clock self with_settled with_wrappers with_next_promise].
  rewrite (getFromCache_valid _ _ _ _ Hc Hnow), Ht.
  cbn. unfold hit_record. rewrite Hk. cbn. rewrite Hc. cbn.
  replace (clock w - clock w) with 0 by lia. by destruct w as [[] ?].
Qed.

Lemma call_batchRequests_hits cfgs :
  ∀ w, Forall (cache_hit (clock w) (self w)) cfgs →
    self (call_batchRequests cfgs w) = self w ∧
    clock (call_batchRequests cfgs w) = clock w ∧
    fetched (call_batchRequests cfgs w) = fetched w ∧
    flights (call_batchRequests cfgs w) = flights w ∧
    timers (call_batchRequests cfgs w) = timers w ∧
    (∀ p, (p < next_promise w)%nat →
          outcomes (call_batchRequests cfgs w) !! p = outcomes w !! p) ∧
    batchRequests_result (next_promise w) (length cfgs) (call_batchRequests cfgs w)
    = Some (hit_record (self w) <$> cfgs).
Proof.
  unfold call_batchRequests.
  induction cfgs as [|cfg cfgs IH]; intros w Hall; [done|].
  apply Forall_cons in Hall as [Hhit Hall].
  destruct (batch_item_hit cfg w Hhit) as (Hs & Hc & Hfe & Hfl & Ht & Hn & Ho).
  cbn [foldl length]. destruct (IH (batch_item cfg w)) as (-> & -> & -> & -> & -> & Hold & Hres).
  { by rewrite Hs, Hc. }
  do 5 (split; [done|]). rewrite Hn in Hold, Hres. rewrite Hs in Hres. split.
  - intros p Hp. rewrite Hold by lia. rewrite Ho. by rewrite lookup_insert_ne by lia.
  - unfold batchRequests_result in *. cbn [seq mapM].
    rewrite Hold by lia. rewrite Ho, lookup_insert_eq. cbn.
    rewrite Hres. done.
Qed.

(** X21.  A batch whose requests all find a valid, truthy entry in the
    cache is answered in the turn of the call: no fetch is made, nothing
    is queued, the state of the optimizer is unchanged, and the result
    lists for each request, in input order, a success with the cached
    payload, duration 0 and [fromCache] true. *)
Theorem batch_of_cache_hits_is_immediate cfgs w :
  Forall (cache_hit (clock w) (self w)) cfgs →
  batchRequests_result (next_promise w) (length cfgs) (call_batchRequests cfgs w)
  = Some (hit_record (self w) <$> cfgs) ∧
  fetched (call_batchRequests cfgs w) = fetched w ∧
  flights (call_batchRequests cfgs w) = flights w ∧
  timers (call_batchRequests cfgs w) = timers w ∧
  self (call_batchRequests cfgs w) = self w.
Proof.
  intros Hall.
  destruct (call_batchRequests_hits cfgs w Hall) as (? & _ & ? & ? & ? & _ & ?).
  done.
Qed.

(** ** What waits in the queue *)

Lemma request_queued_ok p cfg w :
  Forall queued_ok (requestQueue (self w)) →
  Forall queued_ok (requestQueue (self (request p cfg w))).
Proof.
  intros Hall. unfold request.
  set (c := match truthy_key cfg with Some _ => _ | None => _ end).
  assert (requestQueue c.2 = requestQueue (self w)) as Hc.
  { subst c. destruct (truthy_key cfg) as [k|]; [|done].
    destruct (negb _); [|done]. apply getFromCache_frame. }
  destruct c as [cached s0]. simpl in Hc.
  destruct (truthy cached).
  { destruct (settle_frame p (Resolved cached) (with_self s0 w))
      as (_&_&_&_&_&_&_&_&_&->&_). simpl. by rewrite Hc. }
  cbn [self clock with_self].
  destruct (isCircuitOpen_frame (clock w) (extractDomain (url cfg)) s0)
    as (_ & _ & Hq1 & _).
  destruct (isCircuitOpen _ _ _) as [open s1]. simpl in Hq1.
  destruct open.
  { match goal with |- context [settle ?p ?r ?w] =>
      destruct (settle_frame p r w) as (_&_&_&_&_&_&_&_&_&->&_) end.
    simpl. by rewrite Hq1, Hc. }
  destruct (checkRateLimit_frame (clock w) (extractDomain (url cfg)) s1)
    as (_ & _ & Hq2 & _).
  destruct (checkRateLimit (clock w) (extractDomain (url cfg)) s1)
    as [free s2] eqn:Hfree. simpl in Hq2.
  destruct free; cbn [negb].
  - unfold executeRequest.
    match goal with |- context [executeRequest_loop ?p ?c ?g ?a ?l ?w] =>
      destruct (executeRequest_loop_frame p c g a l w) as (_&_&_&_&_&->&_) end.
    simpl. by rewrite Hq2, Hq1, Hc.
  - assert (property RATE_LIMITS (extractDomain (url cfg)) ≠ undefined) as Hlim.
    { intros Hu. by rewrite (checkRateLimit_undefined _ _ _ Hu) in Hfree. }
    unfold queueRequest. cbn [self clock with_self].
    set (q0 := {| id := _; config := cfg; promise := p; qr_priority := _;
                  qr_timestamp := _ |}).
    assert (Forall queued_ok (enqueue q0 (requestQueue s2))) as Hall'.
    { apply Forall_forall. intros q [->|Hq]%elem_of_enqueue.
      - by split.
      - rewrite Hq2, Hq1, Hc in Hq. by eapply Forall_forall in Hall. }
    match goal with |- context [processQueue ?w0] =>
      destruct (processQueue_queue w0) as [-> | ->] end;
      cbn [self with_self requestQueue with_requestQueue]; [done|].
    destruct (enqueue q0 (requestQueue s2)); [done|].
    by apply Forall_cons in Hall' as [_ ?].
Qed.

Lemma step_queued_ok e w w' :
  Forall queued_ok (requestQueue (self w)) → step e w = Some w' →
  Forall queued_ok (requestQueue (self w')).
Proof.
  intros Hall Hstep.
  assert (∀ l : list QueuedRequest, Forall queued_ok l → Forall queued_ok (tail l))
    as Htail.
  { intros [|x l] Hl; [done|]. by apply Forall_cons in Hl as [_ ?]. }
  destruct e as [cfg|cfgs| |p r|i|dt]; simpl in Hstep.
  - injection Hstep as <-. by apply request_queued_ok.
  - injection Hstep as <-. unfold call_batchRequests. revert w Hall.
    induction cfgs as [|cfg cfgs IH]; intros w Hall; [done|].
    cbn [foldl]. apply IH. unfold batch_item. by apply request_queued_ok.
  - by injection Hstep as <-.
  - destruct (flights w !! p) as [fl|]; [|done]. injection Hstep as <-.
    destruct (executeRequest_resume_frame p fl r w) as (_&_&_&_&->&_). done.
  - destruct (timers w !! i) as [[due what]|]; [|done]. simpl in Hstep.
    destruct (due <=? clock w); [|done]. injection Hstep as <-.
    destruct what.
    + match goal with |- context [processQueue_loop ?w] =>
        destruct (processQueue_loop_queue w) as [-> | ->] end; auto.
    + match goal with |- context [processQueue ?w] =>
        destruct (processQueue_queue w) as [-> | ->] end; auto.
  - destruct (0 <=? dt); [|done]. by injection Hstep as <-.
Qed.

Lemma reachable_queued_ok w q :
  reachable w → q ∈ requestQueue (self w) → queued_ok q.
Proof.
  intros Hreach Hq.
  assert (Forall queued_ok (requestQueue (self w))) as Hall.
  { clear Hq. revert w Hreach.
    apply (reachable_invariant (λ w, Forall queued_ok (requestQueue (self w)))).
    - constructor.
    - intros e w0 w1 _. apply step_queued_ok. }
  by eapply Forall_forall in Hall.
Qed.

(** ** How promises settle *)

Lemma getFromCache_truthy now k s :
  truthy (getFromCache now k s).1 = true →
  ∃ c, requestCache s !! k = Some c ∧ ce_data c = (getFromCache now k s).1.
Proof.
  unfold getFromCache. destruct (requestCache s !! k) as [c|]; [|done].
  destruct (js_gt _ _); [done|]. by exists c.
Qed.

Lemma getFromCache_subseteq now k s :
  requestCache (getFromCache now k s).2 ⊆ requestCache s.
Proof.
  unfold getFromCache. destruct (requestCache s !! k) as [c|]; [|done].
  destruct (js_gt _ _); [|done]. apply delete_subseteq.
Qed.

Lemma only_admission_trans s0 w1 w2 w3 : only_admission s0 w1 w2 → only_admission s0 w2 w3 → only_admission s0 w1 w3.
Proof.
  intros [Hc1 Hs1] [Hc2 Hs2]. split; [by etrans|].
  intros p r Hp. destruct (Hs2 p r Hp) as [Hp'|?]; [|by right]. by apply Hs1.
Qed.

Lemma only_admission_same s0 w w' :
  requestCache (self w') = requestCache (self w) → settled w' = settled w →
  only_admission s0 w w'.
Proof. intros Hc Hs. split; [by rewrite Hc|]. intros p r. rewrite Hs. by left. Qed.

Lemma only_admission_settle s0 p r w :
  settled_at_admission s0 r → only_admission s0 w (settle p r w).
Proof.
  intros Hr. split.
  - unfold settle. cbn [wrappers with_settled].
    destruct (wrappers w !! p) as [[st cfg]|]; [|done].
    unfold batch_callback. destruct r as [v|e]; [|done].
    destruct (truthy_key cfg) as [k|]; [|done].
    pose proof (getFromCache_subseteq (clock w) k (self w)) as H.
    cbn [clock self with_settled]. by destruct (getFromCache (clock w) k (self w)).
  - destruct (settle_frame p r w) as (_&_&_&_&_&_&->&_). intros p' r'.
    destruct (decide (p' = p)) as [->|Hne].
    + rewrite lookup_insert_eq. intros [= <-]. by right.
    + rewrite lookup_insert_ne by done. by left.
Qed.

Lemma only_admission_executeRequest s0 p caller cfg w :
  only_admission s0 w (executeRequest p caller cfg w).
Proof.
  unfold executeRequest, executeRequest_loop.
  destruct (_ <=? _); [by apply only_admission_same|].
  assert (only_admission s0 w (settle p (Rejected (new_Error "Request failed after all retries")) w))
    as H by (apply only_admission_settle; by right).
  destruct caller; [exact H|].
  destruct H as [Hc Hs]. split; [exact Hc|exact Hs].
Qed.

Lemma only_admission_processQueue_end s0 w : only_admission s0 w (processQueue_end w).
Proof.
  destruct (processQueue_end_frame w) as (_&_&_&?&_&_&_&?&_).
  by apply only_admission_same.
Qed.

Lemma only_admission_processQueue_loop s0 w : only_admission s0 w (processQueue_loop w).
Proof.
  unfold processQueue_loop.
  destruct (requestQueue (self w)) as [|q rest]; [apply only_admission_processQueue_end|].
  set (d := extractDomain (url (config q))).
  destruct (checkRateLimit_frame (clock w) d (with_requestQueue rest (self w)))
    as (Hc1 & _).
  destruct (checkRateLimit (clock w) d (with_requestQueue rest (self w)))
    as [free s1]. cbn [snd requestCache with_requestQueue] in Hc1.
  assert (∀ s, requestCache s = requestCache (self w) →
               only_admission s0 w (processQueue_end
                              (with_self (with_requestQueue (q :: requestQueue s) s) w)))
    as Hend.
  { intros s Hs.
    match goal with |- context [processQueue_end ?w0] =>
      destruct (processQueue_end_frame w0) as (_&_&_&?&_&_&_&?&_) end.
    by apply only_admission_same. }
  destruct free; [|by apply Hend].
  destruct (isCircuitOpen_frame (clock w) d s1) as (Hc2 & _).
  destruct (isCircuitOpen (clock w) d s1) as [open s2]. cbn [snd] in Hc2.
  destruct open; cbn [negb]; [apply Hend; congruence|].
  apply (only_admission_trans s0 _ (with_self s2 w)).
  - apply only_admission_same; [cbn [self with_self]; congruence|done].
  - apply only_admission_executeRequest.
Qed.

Lemma only_admission_processQueue s0 w : only_admission s0 w (processQueue w).
Proof.
  unfold processQueue. destruct (_ || _); [by apply only_admission_same|].
  apply (only_admission_trans s0 _ (with_self (with_isProcessingQueue true (self w)) w)).
  - by apply only_admission_same.
  - apply only_admission_processQueue_loop.
Qed.

Lemma only_admission_request s0 p cfg w :
  requestCache (self w) ⊆ requestCache s0 → only_admission s0 w (request p cfg w).
Proof.
  intros Hsub. unfold request.
  set (c := match truthy_key cfg with Some _ => _ | None => _ end).
  assert (requestCache c.2 ⊆ requestCache (self w) ∧
          (truthy c.1 = true → settled_at_admission s0 (Resolved c.1))) as [Hc Hhit].
  { subst c. destruct (truthy_key cfg) as [k|]; [|done].
    destruct (negb _); [|done]. split; [apply getFromCache_subseteq|].
    intros Ht. split; [done|].
    destruct (getFromCache_truthy _ _ _ Ht) as (c & Hk & Hd).
    exists k, c. split; [|done]. by apply (lookup_weaken _ _ _ _ Hk). }
  destruct c as [cached s0']. cbn [fst snd] in Hc, Hhit.
  assert (∀ s w', requestCache s ⊆ requestCache (self w) →
                  only_admission s0 (with_self s w) w' → only_admission s0 w w') as Hvia.
  { intros s w' Hs [Hc' Hs']. split; [by etrans|exact Hs']. }
  destruct (truthy cached).
  { apply (Hvia s0'); [done|]. apply only_admission_settle. by apply Hhit. }
  cbn [self clock with_self].
  destruct (isCircuitOpen_frame (clock w) (extractDomain (url cfg)) s0') as (Hc1 & _).
  destruct (isCircuitOpen _ _ _) as [open s1]. cbn [snd] in Hc1.
  destruct open.
  { apply (Hvia s1); [by rewrite Hc1|]. apply only_admission_settle. left. by eexists. }
  destruct (checkRateLimit_frame (clock w) (extractDomain (url cfg)) s1) as (Hc2 & _).
  destruct (checkRateLimit _ _ _) as [free s2]. cbn [snd] in Hc2.
  destruct free; cbn [negb].
  - apply (Hvia s2); [by rewrite Hc2, Hc1|]. apply only_admission_executeRequest.
  - unfold queueRequest. cbn [self clock with_self].
    match goal with |- context [processQueue (with_self ?s ?w0)] =>
      apply (Hvia s); [cbn [requestCache with_requestQueue]; by rewrite Hc2, Hc1|];
      apply only_admission_processQueue end.
Qed.




(** X24.  Being turned away by an open breaker costs nothing and counts for
    nothing: the request rejects without a fetch, the breaker is left as it
    is, so the rejection is no failure and does not prolong the cooldown,
    and no slot of the limiter is used; nothing is queued and no timer is
    set. *)
Theorem open_breaker_rejection_is_free p cfg w b :
  served_from_cache cfg w = false →
  circuitBreaker (self w) !! extractDomain (url cfg) = Some b →
  isOpen b = true → clock w - lastFailure b ≤ resetTimeout →
  settled (request p cfg w) !! p
  = Some (Rejected (new_Error ("Circuit breaker is open for "
                               +:+ extractDomain (url cfg)))) ∧
  fetched (request p cfg w) = fetched w ∧
  circuitBreaker (self (request p cfg w)) = circuitBreaker (self w) ∧
  rateLimiter (self (request p cfg w)) = rateLimiter (self w) ∧
  requestQueue (self (request p cfg w)) = requestQueue (self w) ∧
  timers (request p cfg w) = timers w.
Proof.
  intros Hmiss Hb Hopen Hcool. unfold request, served_from_cache in *.
  set (c := match truthy_key cfg with Some _ => _ | None => _ end) in *.
  assert (rateLimiter c.2 = rateLimiter (self w) ∧
          circuitBreaker c.2 = circuitBreaker (self w) ∧
          requestQueue c.2 = requestQueue (self w)) as (Hrl & Hcb & Hq).
  { subst c. destruct (truthy_key cfg) as [k|]; [|done].
    destruct (negb _); [|done].
    destruct (getFromCache_frame (clock w) k (self w)) as (?&?&?&_). done. }
  destruct c as [cached s0]. simpl in Hmiss, Hrl, Hcb, Hq. rewrite Hmiss.
  cbn [self clock with_self]. unfold isCircuitOpen. rewrite Hcb, Hb, Hopen.
  destruct (_ >? _) eqn:Hexp; [apply Z.gtb_lt in Hexp; lia|].
  match goal with |- context [settle ?p ?r ?w] =>
    destruct (settle_frame p r w) as (_&_&->&->&_&_&->&->&->&->&_) end.
  simpl. by rewrite lookup_insert_eq.
Qed.

(** ** The pause of the queue loop *)

Lemma request_keeps_queue_while_running p cfg w q :
  isProcessingQueue (self w) = true → q ∈ requestQueue (self w) →
  q ∈ requestQueue (self (request p cfg w)) ∧
  isProcessingQueue (self (request p cfg w)) = true.
Proof.
  intros Hflag Hq.
  destruct (request_shape p cfg w) as [(-> & -> & _)|(s & Hs & Hp & ->)]; [done|].
  unfold processQueue. cbn [self with_self]. rewrite Hp, Hflag. cbn [orb self with_self].
  split; [|congruence]. rewrite Hs.
  apply (elem_of_Permutation_proper _ _ _ (enqueue_Permutation _ _)). by right.
Qed.

(** X25.  The loop of [processQueue] waits out its pause: when the request
    it awaited settles, its pause is set 100 ms ahead; and while the loop is
    under way nothing takes a request off the queue but the firing of that
    pause, new requests and the 1000 ms timers of [processQueue] included. *)
Theorem only_the_pause_resumes_the_loop w :
  (∀ p fl r w',
     flights w !! p = Some fl → f_caller fl = FromQueue →
     step (Fetch_settles p r) w = Some w' → flights w' !! p = None →
     timers w' = timers w ++ [(clock w + 100, Pause)] ∧
     isProcessingQueue (self w') = isProcessingQueue (self w)) ∧
  (∀ e w' q,
     isProcessingQueue (self w) = true → step e w = Some w' →
     q ∈ requestQueue (self w) → q ∉ requestQueue (self w') →
     ∃ i due, e = Timer_fires i ∧ timers w !! i = Some (due, Pause) ∧ due ≤ clock w).
Proof.
  split.
  - intros p fl r w' Hfl Hcaller Hstep Hgone. cbn [step] in Hstep.
    rewrite Hfl in Hstep. injection Hstep as <-.
    destruct (executeRequest_resume_frame p fl r w) as (_&_&_&_&_&->).
    split; [|done].
    destruct (executeRequest_resume_lands p fl r w)
      as [(fl' & _ & Hf & _)|(r' & _ & _ & Ht)].
    + rewrite Hf, lookup_insert_eq in Hgone. done.
    + rewrite Ht, Hcaller. done.
  - intros e w' q Hflag Hstep Hq Hnot.
    destruct e as [cfg|cfgs| |p r|i|dt]; simpl in Hstep.
    + injection Hstep as <-. destruct Hnot. unfold call_request.
      by apply request_keeps_queue_while_running.
    + injection Hstep as <-. destruct Hnot.
      assert (∀ w0, isProcessingQueue (self w0) = true → q ∈ requestQueue (self w0) →
                    q ∈ requestQueue (self (call_batchRequests cfgs w0))) as Hall.
      { unfold call_batchRequests. induction cfgs as [|cfg cfgs IH]; intros w0 H1 H2;
          [done|].
        cbn [foldl]. unfold batch_item at 2.
        match goal with |- context [request ?p ?c ?w1] =>
          destruct (request_keeps_queue_while_running p c w1 q H1 H2) end.
        by apply IH. }
      by apply Hall.
    + injection Hstep as <-. by destruct Hnot.
    + destruct (flights w !! p) as [fl|]; [|done]. injection Hstep as <-.
      destruct Hnot.
      destruct (executeRequest_resume_frame p fl r w) as (_&_&_&_&->&_). done.
    + destruct (timers w !! i) as [[due what]|] eqn:Hi; [|done]. simpl in Hstep.
      destruct (due <=? clock w) eqn:Hdue; [|done]. injection Hstep as <-.
      apply Z.leb_le in Hdue. destruct what; [by exists i, due|].
      destruct Hnot. unfold processQueue. cbn [self with_timers].
      by rewrite Hflag.
    + destruct (0 <=? dt); [|done]. injection Hstep as <-. by destruct Hnot.
Qed.

(** ** Progress

    What the optimizer does when nothing calls it any more: the network
    answers, timers fire, time passes. *)



(** What the answer to a fetch leads to: the request comes to its end, or
    its next attempt is in flight. *)
Lemma executeRequest_resume_cases p fl r w :
  requestQueue (self (executeRequest_resume p fl r w)) = requestQueue (self w) ∧
  (∃ cs, fetched (executeRequest_resume p fl r w) = fetched w ++ cs ∧
         Forall (λ c, fc_promise c = p) cs) ∧
  (flights (executeRequest_resume p fl r w) = delete p (flights w) ∨
   (f_attempt fl + 1 ≤ default 3 (retries (f_config fl)) ∧
    flights (executeRequest_resume p fl r w)
    = <[p := {| f_config := f_config fl; f_attempt := f_attempt fl + 1;
                f_caller := f_caller fl |}]> (delete p (flights w)))).
Proof.
  destruct (executeRequest_resume_frame p fl r w) as (_&_&_&_&Hq&_).
  split; [done|]. unfold executeRequest_resume.
  destruct (attempt_outcome r) as [e|payload].
  - destruct (no_retry e).
    + match goal with |- context [finish ?p ?c ?r ?w] =>
        destruct (finish_frame p c r w) as (_&->&->&_) end.
      split; [|by left]. exists []. by rewrite app_nil_r.
    + unfold executeRequest_loop.
      destruct (_ <=? _) eqn:Hle.
      * apply Z.leb_le in Hle. cbn [fetched flights with_fetched with_flights with_self].
        split; [|by right]. eexists. split; [done|]. by repeat constructor.
      * match goal with |- context [finish ?p ?c ?r ?w] =>
          destruct (finish_frame p c r w) as (_&->&->&_) end.
        split; [|by left]. exists []. by rewrite app_nil_r.
  - match goal with |- context [finish ?p ?c ?r ?w] =>
      destruct (finish_frame p c r w) as (_&->&->&_) end.
    split; [|by left]. exists []. by rewrite app_nil_r.
Qed.











(** ** Waiting for ever *)

Lemma checkRateLimit_false now d s :
  (checkRateLimit now d s).1 = false →
  checkRateLimit now d s = (false, s) ∧ is_Some (rateLimiter s !! d).
Proof.
  unfold checkRateLimit.
  destruct (property RATE_LIMITS d); [| |done];
    (destruct (rateLimiter s !! d); [|done];
     destruct (js_ge _ _); [done|]; destruct (js_lt _ _); [done|];
     intros _; split; [done|by eexists]).
Qed.

(** No limiter is ever removed. *)
Lemma mutation_limiters now s s' d :
  mutation now s s' → is_Some (rateLimiter s !! d) → is_Some (rateLimiter s' !! d).
Proof.
  intros Hm Hd. destruct Hm as [d0|d0|d0|d0|k0|k0 v d0 Hk0|q|fl].
  - destruct (decide (d0 = d)) as [->|Hne]; [|by rewrite checkRateLimit_other].
    destruct Hd as [l Hl]. unfold checkRateLimit.
    destruct (property RATE_LIMITS d); [| |simpl; rewrite Hl; by eexists];
      (rewrite Hl; destruct (js_ge _ _);
       [simpl; rewrite lookup_insert_eq; by eexists|];
       destruct (js_lt _ _);
       [simpl; rewrite lookup_insert_eq; by eexists|simpl; rewrite Hl; by eexists]).
  - destruct (isCircuitOpen_frame now d0 s) as (_ & -> & _). done.
  - done.
  - done.
  - destruct (getFromCache_frame now k0 s) as (-> & _). done.
  - destruct (setCache_frame now k0 v (getCacheTTL d0) s) as (-> & _). done.
  - done.
  - done.
Qed.

Lemma mutations_limiters now s s' d :
  rtc (mutation now) s s' →
  is_Some (rateLimiter s !! d) → is_Some (rateLimiter s' !! d).
Proof.
  induction 1 as [|s1 s2 s3 H12 _ IH]; [done|].
  intros H. apply IH. by eapply mutation_limiters.
Qed.

Lemma elem_of_tail {A} (x : A) l : x ∈ tail l → x ∈ l.
Proof. destruct l; simpl; [done|]. by right. Qed.

(** How [request] admits a request: it settles it or sends it at once, the
    queue staying as it is, or, the limiter of its domain refusing, it puts
    it in the queue and runs [processQueue]. *)
Lemma request_admission p cfg w :
  (requestQueue (self (request p cfg w)) = requestQueue (self w) ∧
   ∃ cs, fetched (request p cfg w) = fetched w ++ cs ∧
         Forall (λ c, fc_promise c = p) cs) ∨
  (∃ s,
     request p cfg w = processQueue (with_self s w) ∧
     requestQueue s
     = enqueue {| id := generateId p; config := cfg; promise := p;
                  qr_priority := getPriorityIndex (default medium (priority cfg));
                  qr_timestamp := clock w |} (requestQueue (self w)) ∧
     rateLimiter s = rateLimiter (self w) ∧
     is_Some (rateLimiter (self w) !! extractDomain (url cfg))).
Proof.
  unfold request.
  set (c := match truthy_key cfg with Some _ => _ | None => _ end).
  assert (requestQueue c.2 = requestQueue (self w) ∧
          rateLimiter c.2 = rateLimiter (self w)) as [Hc1 Hc2].
  { subst c. destruct (truthy_key cfg) as [k|]; [|done].
    destruct (negb _); [|done].
    destruct (getFromCache_frame (clock w) k (self w)) as (?&_&?&_). done. }
  destruct c as [cached s0]. cbn [snd] in Hc1, Hc2.
  assert (∀ r s, requestQueue s = requestQueue (self w) →
                 requestQueue (self (settle p r (with_self s w))) = requestQueue (self w) ∧
                 ∃ cs, fetched (settle p r (with_self s w)) = fetched w ++ cs ∧
                       Forall (λ c, fc_promise c = p) cs) as Hsettle.
  { intros r s Hs1.
    destruct (settle_frame p r (with_self s w)) as (_&_&_&->&_&_&_&_&_&->&_).
    split; [done|]. exists []. by rewrite app_nil_r. }
  destruct (truthy cached); [left; by apply Hsettle|].
  cbn [self clock with_self].
  destruct (isCircuitOpen_frame (clock w) (extractDomain (url cfg)) s0)
    as (_ & Hr1 & Hq1 & _).
  destruct (isCircuitOpen _ _ _) as [open s1]. cbn [snd] in Hq1, Hr1.
  destruct open; [left; apply Hsettle; congruence|].
  destruct (checkRateLimit_frame (clock w) (extractDomain (url cfg)) s1)
    as (_ & _ & Hq2 & _).
  destruct (checkRateLimit (clock w) (extractDomain (url cfg)) s1) as [free s2] eqn:Hchk.
  cbn [snd] in Hq2.
  destruct free; cbn [negb].
  - left. unfold executeRequest.
    match goal with |- context [executeRequest_loop ?p ?c ?g ?a ?l ?w0] =>
      destruct (executeRequest_loop_frame p c g a l w0) as (_&_&_&_&_&->&_);
      destruct (executeRequest_loop_other p c g a l w0 (S p)) as (_ & _ & cs & -> & Hcs);
        [lia|] end.
    cbn [self with_self fetched]. split; [congruence|]. by exists cs.
  - right. unfold queueRequest. cbn [self clock with_self].
    destruct (checkRateLimit_false (clock w) (extractDomain (url cfg)) s1) as [E Hl];
      [by rewrite Hchk|].
    rewrite Hchk in E. injection E as ->.
    eexists. split; [reflexivity|].
    cbn [requestQueue rateLimiter with_requestQueue].
    split; [congruence|]. split; [congruence|]. by rewrite <- Hc2, <- Hr1.
Qed.

(** The domain of every waiting request has a limiter. *)
Lemma request_limited p cfg w :
  (∀ q, q ∈ requestQueue (self w) →
        is_Some (rateLimiter (self w) !! extractDomain (url (config q)))) →
  ∀ q, q ∈ requestQueue (self (request p cfg w)) →
       is_Some (rateLimiter (self (request p cfg w)) !! extractDomain (url (config q))).
Proof.
  intros Hw q Hq. pose proof (request_mutations p cfg w) as Hm.
  destruct (request_admission p cfg w) as [[Hsame _]|(s & Hreq & Hqs & Hrl & Hlim)].
  - rewrite Hsame in Hq. eapply mutations_limiters; [exact Hm|]. by apply Hw.
  - assert (q ∈ enqueue {| id := generateId p; config := cfg; promise := p;
                           qr_priority := getPriorityIndex (default medium (priority cfg));
                           qr_timestamp := clock w |} (requestQueue (self w))) as Hin.
    { rewrite Hreq in Hq.
      destruct (processQueue_queue (with_self s w)) as [E|E]; rewrite E in Hq;
        cbn [self with_self] in Hq; rewrite Hqs in Hq; [done|by apply elem_of_tail]. }
    eapply mutations_limiters; [exact Hm|].
    apply elem_of_enqueue in Hin as [->|Hin]; [exact Hlim|by apply Hw].
Qed.

Lemma step_limited e w w' :
  (∀ q, q ∈ requestQueue (self w) →
        is_Some (rateLimiter (self w) !! extractDomain (url (config q)))) →
  step e w = Some w' →
  ∀ q, q ∈ requestQueue (self w') →
       is_Some (rateLimiter (self w') !! extractDomain (url (config q))).
Proof.
  intros Hw Hstep. destruct e as [cfg|cfgs| |p r|i|dt]; simpl in Hstep.
  - injection Hstep as <-. unfold call_request. by apply request_limited.
  - injection Hstep as <-. unfold call_batchRequests. revert w Hw.
    induction cfgs as [|cfg cfgs IH]; intros w Hw; [done|].
    cbn [foldl]. apply IH. unfold batch_item. by apply request_limited.
  - by injection Hstep as <-.
  - destruct (flights w !! p) as [fl|]; [|done]. injection Hstep as <-.
    destruct (executeRequest_resume_frame p fl r w) as (_&_&_&->&->&_). done.
  - destruct (timers w !! i) as [[due what]|]; [|done]. simpl in Hstep.
    destruct (due <=? clock w); [|done]. injection Hstep as <-.
    set (w1 := with_timers (delete i (timers w)) w).
    assert (∀ w2, rtc (mutation (clock w1)) (self w1) (self w2) →
                  (requestQueue (self w2) = requestQueue (self w1) ∨
                   requestQueue (self w2) = tail (requestQueue (self w1))) →
                  ∀ q, q ∈ requestQueue (self w2) →
                       is_Some (rateLimiter (self w2) !! extractDomain (url (config q))))
      as Hgen.
    { intros w2 Hm Hq q Hin. eapply mutations_limiters; [exact Hm|]. apply Hw.
      destruct Hq as [E|E]; rewrite E in Hin; [done|by apply elem_of_tail]. }
    destruct what.
    + apply Hgen; [apply processQueue_loop_mutations|apply processQueue_loop_queue].
    + apply Hgen; [apply processQueue_mutations|apply processQueue_queue].
  - destruct (0 <=? dt); [|done]. by injection Hstep as <-.
Qed.

Lemma reachable_limited w q :
  reachable w → q ∈ requestQueue (self w) →
  is_Some (rateLimiter (self w) !! extractDomain (url (config q))).
Proof.
  intros Hreach. revert q. revert w Hreach.
  apply (reachable_invariant
           (λ w, ∀ q, q ∈ requestQueue (self w) →
                      is_Some (rateLimiter (self w) !! extractDomain (url (config q))))).
  - intros q H. by apply elem_of_nil in H.
  - intros e w0 w1 _. apply step_limited.
Qed.

(** The limiter of a waiting request whose domain is not in the table: the
    domain is named like a member of [Object.prototype], and its limiter has
    no reset time. *)
Lemma waiting_inherited w q :
  reachable w → q ∈ requestQueue (self w) →
  RATE_LIMITS !! extractDomain (url (config q)) = None →
  extractDomain (url (config q)) ∈ Object_prototype ∧
  rateLimiter (self w) !! extractDomain (url (config q))
  = Some {| count := 1; resetTime := NaN |}.
Proof.
  intros Hreach Hq Hno. set (d := extractDomain (url (config q))) in *.
  destruct (reachable_queued_ok w q Hreach Hq) as [Hprop _]. fold d in Hprop.
  destruct (reachable_limited w q Hreach Hq) as [l Hl]. fold d in Hl.
  pose proof (reachable_limiter_wf w d l Hreach Hl) as Hwf. unfold limiter_wf in Hwf.
  pose proof (property_inv RATE_LIMITS d) as Hinv.
  destruct (property RATE_LIMITS d) as [rl|name|]; [congruence| |done].
  destruct Hinv as (_ & _ & Hin). split; [done|]. by rewrite Hl, Hwf.
Qed.

Lemma behind_enqueue q x q0 l : behind q x l → behind q x (enqueue q0 l).
Proof.
  intros (l1 & l2 & Hl & Hx).
  destruct (enqueue_position q0 l) as (a & b & Hab & -> & _).
  rewrite Hl in Hab. symmetry in Hab.
  apply app_eq_app in Hab as [l' [[-> Hb]|[-> ->]]].
  - destruct l' as [|y l'']; simpl in Hb.
    + subst b. exists (l1 ++ [q0]), l2.
      split; [by rewrite app_nil_r, <- app_assoc|done].
    + injection Hb as <- ->. exists l1, (l'' ++ q0 :: b).
      split; [by rewrite <- app_assoc|].
      apply elem_of_cons in Hx as [->|Hx]; [by left|]. right.
      apply elem_of_app in Hx as [Hx|Hx]; apply elem_of_app; [by left|].
      right. by right.
  - exists (a ++ q0 :: l'), l2. split; [by rewrite <- !app_assoc|done].
Qed.

(** A pass of the queue loop, the limiter of [q] having no reset time:
    [q] and the entries behind it stay in the queue, and no fetch is made
    for them. *)
Lemma processQueue_loop_behind w q x :
  RATE_LIMITS !! extractDomain (url (config q)) = None →
  extractDomain (url (config q)) ∈ Object_prototype →
  rateLimiter (self w) !! extractDomain (url (config q))
  = Some {| count := 1; resetTime := NaN |} →
  NoDup (waiting w) →
  behind q x (requestQueue (self w)) →
  behind q x (requestQueue (self (processQueue_loop w))) ∧
  ∃ cs, fetched (processQueue_loop w) = fetched w ++ cs ∧
        Forall (λ c, fc_promise c ≠ promise x) cs.
Proof.
  intros Hno Hin Hl Hnodup (l1 & l2 & Hq & Hx).
  assert (∀ w', requestQueue (self w') = requestQueue (self w) →
                fetched w' = fetched w →
                behind q x (requestQueue (self (processQueue_end w'))) ∧
                ∃ cs, fetched (processQueue_end w') = fetched w ++ cs ∧
                      Forall (λ c, fc_promise c ≠ promise x) cs) as Hend.
  { intros w' E1 E2.
    destruct (processQueue_end_frame w') as (_&_&->&_&_&_&_&_&_&_&->&_).
    rewrite E1, E2, Hq. split; [by exists l1, l2|]. exists []. by rewrite app_nil_r. }
  unfold processQueue_loop. rewrite Hq.
  destruct l1 as [|h l1]; cbn [app].
  - rewrite (checkRateLimit_inherited _ _ _ Hno Hin).
    cbn [rateLimiter with_requestQueue]. rewrite Hl. cbn [js_ge resetTime].
    apply Hend; cbn [self with_self requestQueue with_requestQueue fetched]; done.
  - destruct (checkRateLimit_frame (clock w) (extractDomain (url (config h)))
                (with_requestQueue (l1 ++ q :: l2) (self w))) as (_ & _ & Hq1 & _).
    destruct (checkRateLimit _ _ _) as [free s1]. cbn [snd requestQueue with_requestQueue] in Hq1.
    destruct free;
      [|apply Hend; cbn [self with_self requestQueue with_requestQueue fetched];
        [by rewrite Hq1, Hq|done]].
    destruct (isCircuitOpen_frame (clock w) (extractDomain (url (config h))) s1)
      as (_ & _ & Hq2 & _).
    destruct (isCircuitOpen _ _ _) as [open s2]. cbn [snd] in Hq2.
    destruct open; cbn [negb];
      [apply Hend; cbn [self with_self requestQueue with_requestQueue fetched];
        [by rewrite Hq2, Hq1, Hq|done]|].
    unfold executeRequest.
    assert (promise x ≠ promise h) as Hne.
    { unfold waiting in Hnodup. rewrite Hq in Hnodup. cbn [app fmap list_fmap] in Hnodup.
      apply NoDup_cons in Hnodup as [Hnotin _]. intros E. apply Hnotin. rewrite <- E.
      apply list_elem_of_fmap. exists x. split; [done|].
      apply elem_of_app. by right. }
    destruct (executeRequest_loop_other (promise h) FromQueue (config h) 0 None
                (with_self s2 w) (promise x) Hne) as (_ & _ & cs & -> & Hcs).
    match goal with |- context [executeRequest_loop ?p ?c ?g ?a ?l ?w0] =>
      destruct (executeRequest_loop_frame p c g a l w0) as (_&_&_&_&_&->&_) end.
    cbn [self with_self fetched]. rewrite Hq2, Hq1. split; [by exists l1, l2|].
    exists cs. split; [done|]. eapply Forall_impl; [exact Hcs|]. simpl. congruence.
Qed.

Lemma processQueue_behind w q x :
  RATE_LIMITS !! extractDomain (url (config q)) = None →
  extractDomain (url (config q)) ∈ Object_prototype →
  rateLimiter (self w) !! extractDomain (url (config q))
  = Some {| count := 1; resetTime := NaN |} →
  NoDup (waiting w) →
  behind q x (requestQueue (self w)) →
  behind q x (requestQueue (self (processQueue w))) ∧
  ∃ cs, fetched (processQueue w) = fetched w ++ cs ∧
        Forall (λ c, fc_promise c ≠ promise x) cs.
Proof.
  intros Hno Hin Hl Hnodup Hb. unfold processQueue.
  destruct (_ || _).
  - split; [done|]. exists []. by rewrite app_nil_r.
  - by apply (processQueue_loop_behind
                (with_self (with_isProcessingQueue true (self w)) w)).
Qed.

(** [request] for a new promise keeps them there as well. *)
Lemma request_behind p cfg w q x :
  RATE_LIMITS !! extractDomain (url (config q)) = None →
  extractDomain (url (config q)) ∈ Object_prototype →
  rateLimiter (self w) !! extractDomain (url (config q))
  = Some {| count := 1; resetTime := NaN |} →
  NoDup (waiting w) → p ∉ waiting w →
  behind q x (requestQueue (self w)) →
  behind q x (requestQueue (self (request p cfg w))) ∧
  ∃ cs, fetched (request p cfg w) = fetched w ++ cs ∧
        Forall (λ c, fc_promise c ≠ promise x) cs.
Proof.
  intros Hno Hin Hl Hnodup Hp Hb.
  assert (promise x ≠ p) as Hne.
  { intros <-. apply Hp. destruct Hb as (l1 & l2 & Hq & Hx).
    unfold waiting. rewrite Hq. apply list_elem_of_fmap. exists x. split; [done|].
    apply elem_of_app. by right. }
  destruct (request_admission p cfg w) as [[Hsame (cs & Hcs & Hall)]|(s & -> & Hqs & Hrl & _)].
  - rewrite Hsame. split; [done|]. exists cs. split; [done|].
    eapply Forall_impl; [exact Hall|]. simpl. congruence.
  - apply (processQueue_behind (with_self s w)).
    + done.
    + done.
    + cbn [self with_self]. by rewrite Hrl.
    + unfold waiting. cbn [self with_self]. rewrite Hqs.
      rewrite enqueue_Permutation. cbn [fmap list_fmap]. apply NoDup_cons. done.
    + cbn [self with_self]. rewrite Hqs. by apply behind_enqueue.
Qed.

Lemma behind_elem_of q x l : behind q x l → q ∈ l ∧ x ∈ l.
Proof.
  intros (l1 & l2 & -> & Hx). split; apply elem_of_app; right; [by left|done].
Qed.

(** Whatever happens, an entry whose domain is named like a member of
    [Object.prototype] stays in the queue, with the entries behind it, and
    no fetch is made for any of them. *)
Lemma step_behind e w w' q x :
  reachable w →
  RATE_LIMITS !! extractDomain (url (config q)) = None →
  behind q x (requestQueue (self w)) →
  step e w = Some w' →
  behind q x (requestQueue (self w')) ∧
  ∃ cs, fetched w' = fetched w ++ cs ∧ Forall (λ c, fc_promise c ≠ promise x) cs.
Proof.
  intros Hreach Hno Hb Hstep.
  assert (∀ cfg w0,
            reachable w0 → behind q x (requestQueue (self w0)) →
            ∀ w1, self w1 = self w0 → fetched w1 = fetched w0 →
                  (∀ p, (p < next_promise w0)%nat → (p < next_promise w1)%nat) →
                  behind q x (requestQueue (self (request (next_promise w0) cfg w1))) ∧
                  ∃ cs, fetched (request (next_promise w0) cfg w1) = fetched w0 ++ cs ∧
                        Forall (λ c, fc_promise c ≠ promise x) cs) as Hrequest.
  { intros cfg w0 Hreach0 Hb0 w1 Hself Hfetched _.
    destruct (behind_elem_of _ _ _ Hb0) as [Hq0 _].
    destruct (waiting_inherited w0 q Hreach0 Hq0 Hno) as [Hin Hl].
    destruct (reachable_places w0 Hreach0) as [[Hnodup _ _] _].
    destruct (fresh_promise_nowhere w0 (next_promise w0)
                (reachable_promises_ok w0 Hreach0)) as (_ & _ & Hfresh); [lia|].
    rewrite <- Hfetched.
    apply request_behind; try done; unfold waiting; by rewrite Hself. }
  destruct e as [cfg|cfgs| |p r|i|dt]; simpl in Hstep.
  - injection Hstep as <-. unfold call_request.
    apply (Hrequest cfg w Hreach Hb); [done|done|simpl; lia].
  - injection Hstep as <-. unfold call_batchRequests.
    revert w Hreach Hb.
    induction cfgs as [|cfg cfgs IH]; intros w Hreach Hb.
    { split; [done|]. exists []. by rewrite app_nil_r. }
    cbn [foldl].
    assert (reachable (batch_item cfg w)) as Hreach1
      by (by apply (reachable_step (Call_batchRequests [cfg]) w)).
    destruct (Hrequest cfg w Hreach Hb
                (with_wrappers (<[next_promise w := (clock w, cfg)]> (wrappers w))
                   (with_next_promise (S (next_promise w)) w)))
      as (Hb1 & cs1 & Hcs1 & Hall1); [done|done|simpl; lia|].
    fold (batch_item cfg w) in Hb1, Hcs1.
    destruct (IH (batch_item cfg w) Hreach1 Hb1) as (Hb2 & cs2 & Hcs2 & Hall2).
    split; [done|]. exists (cs1 ++ cs2).
    split; [by rewrite Hcs2, Hcs1, app_assoc|]. by apply Forall_app.
  - injection Hstep as <-. split; [done|]. exists []. by rewrite app_nil_r.
  - destruct (flights w !! p) as [fl|] eqn:Hp; [|done]. injection Hstep as <-.
    destruct (executeRequest_resume_cases p fl r w) as (-> & (cs & Hcs & Hall) & _).
    split; [done|]. exists cs. split; [done|].
    eapply Forall_impl; [exact Hall|]. simpl. intros c -> E.
    destruct (reachable_places w Hreach) as [[_ Hqueue _] _].
    destruct (behind_elem_of _ _ _ Hb) as [_ Hx].
    destruct (Hqueue (promise x)) as [Hf _].
    { apply list_elem_of_fmap. by exists x. }
    rewrite <- E in Hf. congruence.
  - destruct (timers w !! i) as [[due what]|]; [|done]. simpl in Hstep.
    destruct (due <=? clock w); [|done]. injection Hstep as <-.
    destruct (behind_elem_of _ _ _ Hb) as [Hq0 _].
    destruct (waiting_inherited w q Hreach Hq0 Hno) as [Hin Hl].
    destruct (reachable_places w Hreach) as [[Hnodup _ _] _].
    destruct what.
    + by apply (processQueue_loop_behind (with_timers (delete i (timers w)) w)).
    + by apply (processQueue_behind (with_timers (delete i (timers w)) w)).
  - destruct (0 <=? dt); [|done]. injection Hstep as <-.
    split; [done|]. exists []. by rewrite app_nil_r.
Qed.

Lemma waits_for_ever es :
  ∀ w w' q x,
    reachable w →
    RATE_LIMITS !! extractDomain (url (config q)) = None →
    behind q x (requestQueue (self w)) →
    run es w = Some w' →
    behind q x (requestQueue (self w')) ∧
    flights w' !! promise x = None ∧ settled w' !! promise x = None ∧
    ∃ cs, fetched w' = fetched w ++ cs ∧ Forall (λ c, fc_promise c ≠ promise x) cs.
Proof.
  induction es as [|e es IH]; intros w w' q x Hreach Hno Hb Hrun; simpl in Hrun.
  - injection Hrun as <-. split; [done|].
    destruct (reachable_places w Hreach) as [[_ Hqueue _] _].
    destruct (behind_elem_of _ _ _ Hb) as [_ Hx].
    destruct (Hqueue (promise x)) as [Hf Hs].
    { apply list_elem_of_fmap. by exists x. }
    split; [done|]. split; [done|]. exists []. by rewrite app_nil_r.
  - destruct (step e w) as [w1|] eqn:Hstep; [|done]. simpl in Hrun.
    destruct (step_behind e w w1 q x Hreach Hno Hb Hstep) as (Hb1 & cs1 & Hcs1 & Hall1).
    destruct (IH w1 w' q x) as (Hb2 & Hf & Hs & cs2 & Hcs2 & Hall2);
      [by eapply reachable_step|done|done|done|].
    split; [done|]. split; [done|]. split; [done|]. exists (cs1 ++ cs2).
    split; [by rewrite Hcs2, Hcs1, app_assoc|]. by apply Forall_app.
Qed.

(** ** Batches, to their end *)










(** ** The rate limit, to its end *)




(** ** What the cache and the queue hold, as callers see it *)

(** X3.  An entry past its time counts as absent: a request with its key
    is not answered from the cache, it does exactly what it would do with
    the entry deleted from the cache, and when the call returns the entry
    is gone. *)
Theorem expired_entry_counts_as_absent p cfg w k c :
  truthy_key cfg = Some k → default false (skipCache cfg) = false →
  requestCache (self w) !! k = Some c →
  js_gt (clock w) (deadline c) = true →
  served_from_cache cfg w = false ∧
  request p cfg w
  = request p cfg
      (with_self (with_requestCache (delete k (requestCache (self w))) (self w)) w) ∧
  requestCache (self (request p cfg w)) !! k = None.
Proof.
  intros Hk Hskip Hc Hexp.
  set (w0 := with_self (with_requestCache (delete k (requestCache (self w))) (self w)) w).
  assert (request p cfg w = request p cfg w0) as Heq.
  { unfold request. rewrite Hk, Hskip. cbn [negb].
    unfold getFromCache. rewrite Hc, Hexp.
    cbn [self with_self requestCache with_requestCache clock w0].
    rewrite lookup_delete_eq. reflexivity. }
  split; [|split; [exact Heq|]].
  - unfold served_from_cache. rewrite Hk, Hskip. cbn [negb].
    unfold getFromCache. by rewrite Hc, Hexp.
  - rewrite Heq.
    destruct (only_admission_request (self w0) p cfg w0) as [Hsub _]; [done|].
    eapply lookup_weaken_None; [|exact Hsub].
    cbn [self with_self requestCache with_requestCache w0]. apply lookup_delete_eq.
Qed.

(** X22.  What waits in the queue, in every reachable world.  Each entry
    carries the priority number of its configuration and is for a domain
    under which the lookup in the rate-limit table finds something, and
    the limiter of that domain exists.  The domain is one of the five of
    the table, or it is named like a member of [Object.prototype]: then
    its limiter is [{count: 1, resetTime: NaN}], and the entry and every
    entry behind it in the queue stay in the queue whatever happens, never
    in flight, never settled, never fetched. *)
Theorem only_rate_limited_requests_wait w q :
  reachable w → q ∈ requestQueue (self w) →
  queued_ok q ∧
  is_Some (rateLimiter (self w) !! extractDomain (url (config q))) ∧
  (RATE_LIMITS !! extractDomain (url (config q)) = None →
   extractDomain (url (config q)) ∈ Object_prototype ∧
   rateLimiter (self w) !! extractDomain (url (config q))
   = Some {| count := 1; resetTime := NaN |} ∧
   ∀ x es w',
     behind q x (requestQueue (self w)) → run es w = Some w' →
     behind q x (requestQueue (self w')) ∧
     flights w' !! promise x = None ∧ settled w' !! promise x = None ∧
     ∃ cs, fetched w' = fetched w ++ cs ∧
           Forall (λ c, fc_promise c ≠ promise x) cs).
Proof.
  intros Hreach Hq. split; [by apply (reachable_queued_ok w)|].
  split; [by apply reachable_limited|]. intros Hno.
  destruct (waiting_inherited w q Hreach Hq Hno) as [Hin Hl].
  split; [done|]. split; [done|]. intros x es w' Hb Hrun.
  by apply (waits_for_ever es w w' q x).
Qed.

End Optimizer.

(** * Concrete runs on the sample platform *)

(** C6, witness: the default [retries = 3] against an endpoint that always
    answers HTTP 500 makes the four attempts 0, 1, 2, 3. *)
Lemma C6_retries_plus_one_attempts_witness :
  ∃ w' a e,
    run sample_hostname sample_id
        (answers 0 [(10, http_500); (20, http_500); (30, http_500); (40, http_500)])
        (executeRequest 0 FromRequest (get "https://ip-api.com/json") new_World)
      = Some w' ∧
    attempt_of <$> fetched w'
      = (attempt_of <$> fetched new_World) ++ attempts 0 0 4 ∧
    flights w' !! 0%nat = None ∧
    last [(10, http_500); (20, http_500); (30, http_500); (40, http_500)] = Some a ∧
    attempt_outcome a.2 = inl e ∧
    settled w' !! 0%nat = Some (Rejected e).
Proof.
  apply (C6_retries_plus_one_attempts sample_hostname sample_id 0 FromRequest
           (get "https://ip-api.com/json") new_World
           [(10, http_500); (20, http_500); (30, http_500); (40, http_500)]).
  - simpl. lia.
  - reflexivity.
  - repeat constructor; simpl; lia.
Defined.

(** C4, counterexample: one request with the default [retries = 3] whose
    four attempts all answer HTTP 500 leaves four failures on the breaker of
    its domain, not one. *)
Lemma C4_four_failures_for_one_request :
  (λ w', (settled w' !! 0%nat, failure_count "ip-api.com" (self w')))
    <$> run sample_hostname sample_id
          (Call_request (get "https://ip-api.com/json")
             :: answers 0 [(10, http_500); (10, http_500); (10, http_500); (10, http_500)])
          new_World
  = Some (Some (Rejected (new_Error "HTTP 500: Internal Server Error")), 4)
  ∧ 4 ≠ 0 + 1.
Proof. split; [vm_compute; reflexivity | lia]. Qed.

(** C4, witness: the same request, one failure per attempt: the count of
    ip-api.com is 0, 1, 2, 3 while the attempts 0, 1, 2, 3 are in flight, and
    4 when the request rejects. *)
Lemma C4_one_failure_per_attempt_witness :
  let script := [(10, http_500); (10, http_500); (10, http_500); (10, http_500)] in
  let cfg := get "https://ip-api.com/json" in
  let W := executeRequest 0 FromRequest cfg new_World in
  ((λ k, (λ wk, (failure_count "ip-api.com" (self wk), f_attempt <$> flights wk !! 0%nat))
           <$> run sample_hostname sample_id (answers 0 (take k script)) W)
     <$> [0; 1; 2; 3; 4]%nat
   = [Some (0, Some 0); Some (1, Some 1); Some (2, Some 2); Some (3, Some 3);
      Some (4, None)]) ∧
  (∀ k, (k ≤ length script)%nat →
     ∃ wk,
       run sample_hostname sample_id (answers 0 (take k script)) W = Some wk ∧
       failure_count (extractDomain sample_hostname (url cfg)) (self wk)
         = failure_count (extractDomain sample_hostname (url cfg)) (self new_World)
           + Z.of_nat k ∧
       ((k < length script)%nat →
        flights wk !! 0%nat
          = Some {| f_config := cfg; f_attempt := Z.of_nat k; f_caller := FromRequest |} ∧
        settled wk = settled new_World)) ∧
  ∃ w' a e,
    run sample_hostname sample_id (answers 0 script) W = Some w' ∧
    failure_count (extractDomain sample_hostname (url cfg)) (self w')
      = failure_count (extractDomain sample_hostname (url cfg)) (self new_World)
        + (3 + 1) ∧
    last script = Some a ∧
    attempt_outcome a.2 = inl e ∧
    settled w' !! 0%nat = Some (Rejected e).
Proof.
  intros script cfg W. split; [vm_compute; reflexivity|].
  apply (C4_one_failure_per_attempt sample_hostname sample_id 0 FromRequest
           cfg new_World script).
  - simpl. lia.
  - reflexivity.
  - repeat constructor; simpl; lia.
Defined.

(** C1, the scenario of the specification: requests queued in the order
    low, high, medium while the domain is rate-limited wait in the order
    high, medium, low and are sent in that order. *)
Lemma low_high_medium_drains_high_medium_low :
  urls_queued <$> run sample_hostname sample_id low_high_medium new_World
  = Some [url (geo "high"); url (geo "medium"); url (geo "low")] ∧
  urls_fetched
    <$> run sample_hostname sample_id (low_high_medium ++ drain_three 2 3 1) new_World
  = Some [url (geo "first"); url (geo "high"); url (geo "medium"); url (geo "low")].
Proof. split; vm_compute; reflexivity. Qed.

(** C1, failing input: a medium-priority request queued before a
    high-priority one stays before it, and is sent first. *)
Theorem C1_high_waits_behind_medium :
  urls_queued <$> run sample_hostname sample_id medium_high new_World
  = Some [url (geo "medium"); url (geo "high")] ∧
  urls_fetched
    <$> run sample_hostname sample_id (medium_high ++ drain_two 1 2) new_World
  = Some [url (geo "first"); url (geo "medium"); url (geo "high")].
Proof. split; vm_compute; reflexivity. Qed.





(** The scenario of the specification: quota one request per second, two
    requests at time 0.  The first is fetched at once, the second waits in
    the queue and is fetched when the timer fires one second later. *)
Lemma second_request_waits_for_window :
  (λ w, (urls_queued w, (λ c, (fc_time c, fc_url c)) <$> fetched w))
    <$> run sample_hostname sample_id
          [Call_request (geo "a"); Call_request (geo "b")] new_World
  = Some ([url (geo "b")], [(0, url (geo "a"))]) ∧
  (λ w, (urls_queued w, (λ c, (fc_time c, fc_url c)) <$> fetched w))
    <$> run sample_hostname sample_id
          [Call_request (geo "a"); Call_request (geo "b");
           Time_passes 1000; Timer_fires 0] new_World
  = Some ([], [(0, url (geo "a")); (1000, url (geo "b"))]).
Proof. split; vm_compute; reflexivity. Qed.

(** C5, counterexample.  Requests whose URL does not parse are filed under
    "unknown"; after their failed attempts the breaker of "unknown" is open
    and the next such request (promise 2) is rejected with the circuit-open
    error, without a fetch. *)
Lemma C5_unknown_breaker_trips :
  (λ w, (extractDomain sample_hostname (url malformed), settled w !! 2%nat,
         circuitBreaker (self w) !! "unknown", fc_promise <$> fetched w))
    <$> run sample_hostname sample_id malformed_story new_World
  = Some ("unknown",
          Some (Rejected (new_Error "Circuit breaker is open for unknown")),
          Some {| failures := 8; lastFailure := 0; isOpen := true |},
          [0; 0; 0; 0; 1; 1; 1; 1]%nat).
Proof. vm_compute. reflexivity. Qed.

(** C5, witness: a string without a scheme. *)
Lemma C5_unknown_domain_witness :
  sample_hostname (url malformed) = None ∧
  extractDomain sample_hostname (url malformed) = "unknown" ∧
  (∀ now s, checkRateLimit now "unknown" s = (true, s)) ∧
  (∀ p w, requestQueue (self (request sample_hostname sample_id p malformed w))
          = requestQueue (self w)) ∧
  (∀ now s, failureThreshold ≤ failure_count "unknown" s + 1 →
     isOpen <$> circuitBreaker (recordFailure now "unknown" s) !! "unknown"
     = Some true) ∧
  (∀ p w b,
     served_from_cache malformed w = false →
     circuitBreaker (self w) !! "unknown" = Some b → isOpen b = true →
     clock w - lastFailure b ≤ resetTimeout →
     settled (request sample_hostname sample_id p malformed w) !! p
     = Some (Rejected (new_Error "Circuit breaker is open for unknown")) ∧
     fetched (request sample_hostname sample_id p malformed w) = fetched w ∧
     flights (request sample_hostname sample_id p malformed w) = flights w).
Proof.
  split; [reflexivity|].
  apply (C5_unknown_domain sample_hostname sample_id malformed). reflexivity.
Defined.

(** C7, failing input.  The first request with cache key "k" is answered
    with the JSON document [0], which is written to the cache; the second
    request with the same key, one second later and within the 30 minutes
    the entry lives, is not answered from the cache: it is fetched again
    (attempt 0 of promise 1 is in flight). *)
Theorem C7_falsy_payload_fetched_again :
  (λ w, (requestCache (self w) !! "k", fc_promise <$> fetched w,
         settled w !! 1%nat, f_attempt <$> flights w !! 1%nat))
    <$> run sample_hostname sample_id
          (same_key_twice (with_cacheKey "k" ip_api) (JNumber 0)) new_World
  = Some (Some {| ce_data := JNumber 0; ce_timestamp := 25; ttl := ms 1800000 |},
          [0; 1]%nat, None, Some 0).
Proof. vm_compute. reflexivity. Qed.

(** With a truthy payload the second request is answered from the cache
    without a fetch. *)
Lemma same_key_twice_served_from_cache :
  (λ w, (fc_promise <$> fetched w, settled w !! 1%nat, flights w !! 1%nat))
    <$> run sample_hostname sample_id
          (same_key_twice (with_cacheKey "k" ip_api) (JString "Oslo")) new_World
  = Some ([0]%nat, Some (Resolved (JString "Oslo")), None).
Proof. vm_compute. reflexivity. Qed.



(** The records that batch resolves with. *)
Lemma batch_of_three_result :
  batchRequests_result 0 3
    <$> run sample_hostname sample_id
          (Call_batchRequests batch_of_three :: batch_of_three_answers) new_World
  = Some (Some
      [ {| success := true; data := Some (JString "Oslo"); error := None;
           duration := 40; fromCache := Some false |};
        {| success := false; data := None; error := Some "HTTP 404: Not Found";
           duration := 30; fromCache := None |};
        {| success := false; data := None;
           error := Some "Failed to parse URL from not a url";
           duration := 30; fromCache := None |} ]).
Proof. vm_compute. reflexivity. Qed.

(** C9, counterexample.  The request of the batch carries the cache key
    "k"; its answer, the JSON document [0], is fetched from the network and
    written to the cache, and the record says [fromCache: false].  So does
    the record of a request whose cache key is the empty string, which the
    code takes for no key at all: nothing is written to the cache. *)
Lemma C9_falsy_payload_not_flagged :
  (λ w, (fc_promise <$> fetched w, requestCache (self w) !! "k",
         batchRequests_result 0 1 w))
    <$> run sample_hostname sample_id (batch_of_one "k" (JNumber 0)) new_World
  = Some ([0]%nat,
          Some {| ce_data := JNumber 0; ce_timestamp := 25; ttl := ms 1800000 |},
          Some [{| success := true; data := Some (JNumber 0); error := None;
                   duration := 25; fromCache := Some false |}]) ∧
  (λ w, (fc_promise <$> fetched w, requestCache (self w) !! "",
         batchRequests_result 0 1 w))
    <$> run sample_hostname sample_id (batch_of_one "" (JString "Oslo")) new_World
  = Some ([0]%nat, None,
          Some [{| success := true; data := Some (JString "Oslo"); error := None;
                   duration := 25; fromCache := Some false |}]).
Proof. split; vm_compute; reflexivity. Qed.

(** C9, witness: the same batch answered with a JSON string. *)
Lemma C9_fromCache_after_fetch_witness :
  ∃ w',
    step sample_hostname sample_id (Fetch_settles 0 (http_200 (JString "Oslo")))
         (call_batchRequests sample_hostname sample_id
            [with_cacheKey "k" ip_api] new_World)
    = Some w' ∧
    settled w' !! 0%nat = Some (Resolved (JString "Oslo")) ∧
    outcomes w' !! 0%nat
    = Some (fulfilled
              {| success := true; data := Some (JString "Oslo"); error := None;
                 duration :=
                   clock (call_batchRequests sample_hostname sample_id
                            [with_cacheKey "k" ip_api] new_World) - 0;
                 fromCache := Some true |}).
Proof.
  eexists. split; [vm_compute; reflexivity|].
  apply (C9_fromCache_after_fetch sample_hostname sample_id
           (call_batchRequests sample_hostname sample_id
              [with_cacheKey "k" ip_api] new_World)
           0 {| f_config := with_cacheKey "k" ip_api; f_attempt := 0;
                f_caller := FromRequest |}
           0 (with_cacheKey "k" ip_api) "k"
           (http_200 (JString "Oslo")) (JString "Oslo")).
  - exists [Call_batchRequests [with_cacheKey "k" ip_api]]. reflexivity.
  - vm_compute. reflexivity.
  - vm_compute. reflexivity.
  - reflexivity.
  - reflexivity.
  - reflexivity.
  - vm_compute. reflexivity.
Defined.

(** C10, failing input.  A request with [skipCache: true] and cache key "k"
    is answered with the JSON document [false], which is written to the
    cache.  A later request with the same key that does not skip the cache,
    within the life of the entry, is not answered with it: it is fetched
    again. *)
Theorem C10_falsy_payload_of_skipping_request_fetched_again :
  (λ w, (requestCache (self w) !! "k", fc_promise <$> fetched w,
         settled w !! 1%nat, f_attempt <$> flights w !! 1%nat))
    <$> run sample_hostname sample_id
          (same_key_twice (with_skipCache true (with_cacheKey "k" ip_api))
             (JBool false)) new_World
  = Some (Some {| ce_data := JBool false; ce_timestamp := 25; ttl := ms 1800000 |},
          [0; 1]%nat, None, Some 0).
Proof. vm_compute. reflexivity. Qed.

(** With a truthy payload the later request is answered with what the
    skipping request stored, without a fetch. *)
Lemma skipping_request_fills_cache :
  (λ w, (requestCache (self w) !! "k", fc_promise <$> fetched w,
         settled w !! 1%nat, flights w !! 1%nat))
    <$> run sample_hostname sample_id
          (same_key_twice (with_skipCache true (with_cacheKey "k" ip_api))
             (JString "Oslo")) new_World
  = Some (Some {| ce_data := JString "Oslo"; ce_timestamp := 25; ttl := ms 1800000 |},
          [0]%nat, Some (Resolved (JString "Oslo")), None).
Proof. vm_compute. reflexivity. Qed.

(** X1, witness: the queue after the requests low, high, medium. *)
Lemma queue_ordered_by_rank_witness :
  by_priority
    (requestQueue
       (self (call_request sample_hostname sample_id (with_priority medium (geo "medium"))
                (call_request sample_hostname sample_id (with_priority high (geo "high"))
                   (call_request sample_hostname sample_id (with_priority low (geo "low"))
                      (call_request sample_hostname sample_id (geo "first")
                         new_World)))))).
Proof.
  apply (queue_ordered_by_rank sample_hostname sample_id).
  exists low_high_medium. vm_compute. reflexivity.
Defined.

(** X2, witness: a valid entry under "k" at time 1000. *)
Lemma cache_hit_touches_nothing_witness :
  settled
    (request sample_hostname sample_id 0 (with_cacheKey "k" ip_api)
       (with_clock 1000
          (with_self
             (setCache 25 "k" (JString "Oslo") (ms 1800000) new_APIOptimizer) new_World)))
    !! 0%nat
  = Some (Resolved (JString "Oslo")).
Proof.
  apply (cache_hit_touches_nothing sample_hostname sample_id 0 (with_cacheKey "k" ip_api)
           (with_clock 1000
              (with_self
                 (setCache 25 "k" (JString "Oslo") (ms 1800000) new_APIOptimizer) new_World))
           "k" {| ce_data := JString "Oslo"; ce_timestamp := 25; ttl := ms 1800000 |});
    vm_compute; reflexivity.
Defined.

(** X3, witness: an entry written at time 25 with 900000 ms to live; a
    request with its key at time 900026 is sent to the network. *)
Lemma expired_entry_counts_as_absent_witness :
  let W := with_clock 900026
             (with_self (setCache 25 "k" (JString "Oslo") (ms 900000) new_APIOptimizer)
                new_World) in
  (served_from_cache (with_cacheKey "k" ip_api) W = false ∧
   request sample_hostname sample_id 0 (with_cacheKey "k" ip_api) W
   = request sample_hostname sample_id 0 (with_cacheKey "k" ip_api)
       (with_self (with_requestCache (delete "k" (requestCache (self W))) (self W)) W) ∧
   requestCache (self (request sample_hostname sample_id 0 (with_cacheKey "k" ip_api) W))
     !! "k" = None) ∧
  fc_promise <$> fetched (request sample_hostname sample_id 0 (with_cacheKey "k" ip_api) W)
  = [0%nat].
Proof.
  intros W. split; [|vm_compute; reflexivity].
  apply (expired_entry_counts_as_absent sample_hostname sample_id 0
           (with_cacheKey "k" ip_api) W "k"
           {| ce_data := JString "Oslo"; ce_timestamp := 25; ttl := ms 900000 |});
    vm_compute; reflexivity.
Defined.

(** X4, witness: the first attempt of a request with three retries left
    times out. *)
Lemma abort_and_404_are_not_retried_witness :
  ∃ w',
    step sample_hostname sample_id
         (Fetch_settles 0 (Failed {| name := "AbortError";
                                     message := "The operation was aborted." |}))
         (call_request sample_hostname sample_id ip_api new_World)
    = Some w' ∧
    flights w' !! 0%nat = None ∧
    fetched w' = fetched (call_request sample_hostname sample_id ip_api new_World) ∧
    settled w' !! 0%nat
    = Some (Rejected {| name := "AbortError"; message := "The operation was aborted." |}) ∧
    failure_count (extractDomain sample_hostname (url ip_api)) (self w')
    = failure_count (extractDomain sample_hostname (url ip_api))
        (self (call_request sample_hostname sample_id ip_api new_World)) + 1.
Proof.
  apply (abort_and_404_are_not_retried sample_hostname sample_id 0
           {| f_config := ip_api; f_attempt := 0; f_caller := FromRequest |});
    vm_compute; reflexivity.
Defined.

(** * Concrete runs for the further properties *)

(** X5, witness: after the five failed attempts of [breaker_story] the
    breaker of ip-api.com holds five failures, is open, and its last
    failure is dated at the time of the world. *)
Lemma circuitBreakers_consistent_witness :
  let W := default new_World
             (run sample_hostname sample_id (take 13 breaker_story) new_World) in
  breaker_ok (clock W) {| failures := 5; lastFailure := 50; isOpen := true |}.
Proof.
  intros W.
  apply (circuitBreakers_consistent sample_hostname sample_id W "ip-api.com").
  - exists (take 13 breaker_story). vm_compute. reflexivity.
  - vm_compute. reflexivity.
Defined.

(** X6, witness: after [burst] the limiter of ip-api.com counts the two
    requests of its second window; after one request to the host
    "constructor" the limiter of that name has no reset time and refuses
    from then on. *)
Lemma rateLimiters_well_formed_witness :
  let W := default new_World (run sample_hostname sample_id burst new_World) in
  let V := default new_World
             (run sample_hostname sample_id [Call_request to_constructor] new_World) in
  (limiter_wf (clock W) "ip-api.com" {| count := 2; resetTime := num 120000 |} ∧
   1 ≤ 2 ≤ 45 ∧ 120000 ≤ clock W + 60000) ∧
  (rateLimiter (self V) !! "constructor" = Some {| count := 1; resetTime := NaN |} ∧
   limiter_wf (clock V) "constructor" {| count := 1; resetTime := NaN |} ∧
   ∀ now s, rateLimiter s = rateLimiter (self V) →
            checkRateLimit now "constructor" s = (false, s)).
Proof.
  intros W V. split.
  - split; [|vm_compute; split; [split|]; discriminate].
    apply (rateLimiters_well_formed sample_hostname sample_id W "ip-api.com").
    + exists burst. vm_compute. reflexivity.
    + vm_compute. reflexivity.
  - split; [vm_compute; reflexivity|].
    destruct (rateLimiters_well_formed sample_hostname sample_id V "constructor"
                {| count := 1; resetTime := NaN |}) as [H1 H2].
    + exists [Call_request to_constructor]. vm_compute. reflexivity.
    + vm_compute. reflexivity.
    + split; [exact H1|]. apply H2. vm_compute. reflexivity.
Defined.

(** X7, witness: an entry written at time 25 with a quarter of an hour to
    live. *)
Lemma setCache_then_getFromCache_witness :
  (900025 ≤ 25 + 900000 →
   getFromCache 900025 "k" (setCache 25 "k" (JString "Oslo") (ms 900000) new_APIOptimizer)
   = (JString "Oslo", setCache 25 "k" (JString "Oslo") (ms 900000) new_APIOptimizer)) ∧
  (25 + 900000 < 900025 →
   getFromCache 900025 "k" (setCache 25 "k" (JString "Oslo") (ms 900000) new_APIOptimizer)
   = (JNull,
      with_requestCache
        (delete "k"
           (requestCache (setCache 25 "k" (JString "Oslo") (ms 900000) new_APIOptimizer)))
        (setCache 25 "k" (JString "Oslo") (ms 900000) new_APIOptimizer))).
Proof.
  apply (setCache_then_getFromCache 25 900025 "k" (JString "Oslo") 900000
           new_APIOptimizer).
  lia.
Defined.

(** X8, witness: a write at time 2000 into [crowded].  The write brings the
    cache to 1003 entries and the cleanup runs: the entry under "0", which
    expired at time 1000, is removed, the entry under "7" stays, and the
    1002 entries left, more than the ceiling, are all valid. *)
Lemma setCache_removes_only_expired_witness :
  let s' := setCache 2000 "k" (JString "Oslo") (ms 900000) crowded in
  (size (requestCache crowded) = 1002%nat ∧
   size (<[ "k" := {| ce_data := JString "Oslo"; ce_timestamp := 2000;
                      ttl := ms 900000 |}]> (requestCache crowded)) = 1003%nat ∧
   cacheSize (getStats s') = 1002%nat) ∧
  requestCache s' !! "k"
  = Some {| ce_data := JString "Oslo"; ce_timestamp := 2000; ttl := ms 900000 |} ∧
  requestCache s' !! "7"
  = Some {| ce_data := JNumber 7; ce_timestamp := 0; ttl := ms 5000 |} ∧
  requestCache s' !! "0" = None ∧
  (∀ k' c, requestCache s' !! k' = Some c → valid 2000 c) ∧
  (∀ k' c, k' ≠ "k" → requestCache s' !! k' = Some c →
           requestCache crowded !! k' = Some c).
Proof.
  intros s'.
  destruct (setCache_removes_only_expired 2000 "k" (JString "Oslo") (ms 900000) crowded)
    as (H1 & H2 & H3 & H4 & _ & H6); [vm_compute; reflexivity|].
  split; [repeat split; vm_compute; reflexivity|].
  split; [exact H1|]. split.
  { apply H3; [discriminate|vm_compute; reflexivity|vm_compute; reflexivity]. }
  split.
  { apply (H4 "0" {| ce_data := JNumber 0; ce_timestamp := 0; ttl := ms 1000 |});
      [discriminate|vm_compute; reflexivity|vm_compute; discriminate|].
    apply Nat.ltb_lt. vm_compute. reflexivity. }
  split; [|exact H2].
  apply H6. apply Nat.ltb_lt. vm_compute. reflexivity.
Defined.

(** X9, witness: the entry the first request of [same_key_twice] leaves in
    the cache, and the entry an answer from the host "constructor" leaves
    there. *)
Lemma cache_entries_well_formed_witness :
  let W := default new_World
             (run sample_hostname sample_id
                (same_key_twice (with_cacheKey "k" ip_api) (JString "Oslo")) new_World) in
  let V := default new_World
             (run sample_hostname sample_id
                [Call_request (with_cacheKey "c" to_constructor);
                 Time_passes 5; Fetch_settles 0 (http_200 (JString "Oslo"))]
                new_World) in
  let c := {| ce_data := JString "Oslo"; ce_timestamp := 25; ttl := ms 1800000 |} in
  let v := {| ce_data := JString "Oslo"; ce_timestamp := 5;
              ttl := member "constructor" |} in
  (requestCache (self W) !! "k" = Some c ∧
   entry_ok (clock W) "k" c ∧
   (∀ now, now ≤ 25 + 15 * 60 * 1000 → valid now c) ∧
   (∀ now, 25 + 60 * 60 * 1000 < now → ¬ valid now c)) ∧
  (requestCache (self V) !! "c" = Some v ∧
   entry_ok (clock V) "c" v ∧
   ∀ now s, requestCache s !! "c" = Some v →
            getFromCache now "c" s = (JString "Oslo", s)).
Proof.
  intros W V c v.
  assert (requestCache (self W) !! "k" = Some c) as HW by (vm_compute; reflexivity).
  assert (requestCache (self V) !! "c" = Some v) as HV by (vm_compute; reflexivity).
  split.
  - destruct (cache_entries_well_formed sample_hostname sample_id W "k" c)
      as (Hok & Hms & _); [|exact HW|].
    { exists (same_key_twice (with_cacheKey "k" ip_api) (JString "Oslo")).
      vm_compute. reflexivity. }
    destruct (Hms 1800000 eq_refl) as [Hv Hn].
    split; [exact HW|]. split; [exact Hok|]. split; [exact Hv|exact Hn].
  - destruct (cache_entries_well_formed sample_hostname sample_id V "c" v)
      as (Hok & _ & Hmember); [|exact HV|].
    { exists [Call_request (with_cacheKey "c" to_constructor);
              Time_passes 5; Fetch_settles 0 (http_200 (JString "Oslo"))].
      vm_compute. reflexivity. }
    split; [exact HV|]. split; [exact Hok|]. apply (Hmember "constructor" eq_refl).
Defined.

(** X10, witness: the entry written by the first request of
    [same_key_twice] is still there after the second. *)
Lemma valid_entry_survives_witness :
  let W := default new_World
             (run sample_hostname sample_id
                (take 4 (same_key_twice (with_cacheKey "k" ip_api) (JString "Oslo")))
                new_World) in
  let W' := call_request sample_hostname sample_id (with_cacheKey "k" ip_api) W in
  ∃ c', requestCache (self W') !! "k" = Some c' ∧
        (c' = {| ce_data := JString "Oslo"; ce_timestamp := 25; ttl := ms 1800000 |} ∨
         (ce_timestamp c' = clock W' ∧ valid (clock W') c' ∧
          ∀ n, ttl c' = ms n → 0 < n)).
Proof.
  intros W W'.
  apply (valid_entry_survives sample_hostname sample_id
           (Call_request (with_cacheKey "k" ip_api)) W W' "k").
  - reflexivity.
  - discriminate.
  - vm_compute. reflexivity.
  - vm_compute. reflexivity.
Defined.

(** X12, witness: a retry count of -1. *)
Lemma negative_retries_send_nothing_witness :
  fetched (executeRequest 0 FromRequest (with_retries (-1) ip_api) new_World)
  = fetched new_World ∧
  flights (executeRequest 0 FromRequest (with_retries (-1) ip_api) new_World)
  = flights new_World ∧
  settled (executeRequest 0 FromRequest (with_retries (-1) ip_api) new_World) !! 0%nat
  = Some (Rejected (new_Error "Request failed after all retries")) ∧
  circuitBreaker (self (executeRequest 0 FromRequest (with_retries (-1) ip_api) new_World))
  = circuitBreaker (self new_World).
Proof.
  apply (negative_retries_send_nothing 0 FromRequest (with_retries (-1) ip_api) new_World).
  simpl. lia.
Defined.

(** X13, witness: a request with nine retries whose first five attempts have
    failed, so that the breaker of ip-api.com is open; the sixth attempt
    answers HTTP 500 and the seventh is made at once. *)
Lemma retry_is_immediate_and_unchecked_witness :
  let W := default new_World
             (run sample_hostname sample_id
                (Call_request (with_retries 9 ip_api)
                   :: answers 0 (replicate 5 (10, http_500))) new_World) in
  let fl := {| f_config := with_retries 9 ip_api; f_attempt := 5;
               f_caller := FromRequest |} in
  (isOpen <$> circuitBreaker (self W) !! "ip-api.com" = Some true) ∧
  ∃ w', step sample_hostname sample_id (Fetch_settles 0 http_500) W = Some w' ∧
        fetched w'
        = fetched W ++ [{| fc_time := clock W; fc_promise := 0;
                           fc_url := url (f_config fl);
                           fc_attempt := f_attempt fl + 1 |}] ∧
        flights w' !! 0%nat
        = Some {| f_config := f_config fl; f_attempt := f_attempt fl + 1;
                  f_caller := f_caller fl |} ∧
        settled w' = settled W ∧ timers w' = timers W ∧
        rateLimiter (self w') = rateLimiter (self W) ∧
        requestQueue (self w') = requestQueue (self W) ∧
        self w'
        = recordFailure (clock W) (extractDomain sample_hostname (url (f_config fl)))
            (self W) ∧
        circuitBreaker (self w') !! extractDomain sample_hostname (url (f_config fl))
        = Some {| failures :=
                    failure_count (extractDomain sample_hostname (url (f_config fl)))
                      (self W) + 1;
                  lastFailure := clock W;
                  isOpen :=
                    if failureThreshold
                       <=? failure_count
                             (extractDomain sample_hostname (url (f_config fl)))
                             (self W) + 1
                    then true
                    else from_option isOpen false
                           (circuitBreaker (self W)
                              !! extractDomain sample_hostname (url (f_config fl))) |}.
Proof.
  intros W fl. split; [vm_compute; reflexivity|].
  apply (retry_is_immediate_and_unchecked sample_hostname sample_id 0 fl
           http_500 (new_Error "HTTP 500: Internal Server Error") W).
  - vm_compute. reflexivity.
  - vm_compute. reflexivity.
  - vm_compute. reflexivity.
  - vm_compute. reflexivity.
Defined.

(** X14, witness: two answers HTTP 500, then a success. *)
Lemma retry_until_success_witness :
  ∃ w',
    run sample_hostname sample_id
        (answers 0 ([(10, http_500); (10, http_500)] ++ [(10, http_200 (JString "Oslo"))]))
        (executeRequest 0 FromRequest (with_cacheKey "k" ip_api) new_World)
    = Some w' ∧
    attempt_of <$> fetched w'
      = (attempt_of <$> fetched new_World)
          ++ attempts 0 0 (S (length [(10, http_500); (10, http_500)])) ∧
    flights w' !! 0%nat = None ∧
    settled w' !! 0%nat = Some (Resolved (JString "Oslo")) ∧
    circuitBreaker (self w')
      !! extractDomain sample_hostname (url (with_cacheKey "k" ip_api)) = None ∧
    ∀ k, truthy_key (with_cacheKey "k" ip_api) = Some k →
         requestCache (self w') !! k
         = Some {| ce_data := JString "Oslo"; ce_timestamp := clock w';
                   ttl := getCacheTTL
                            (extractDomain sample_hostname
                               (url (with_cacheKey "k" ip_api))) |}.
Proof.
  apply (retry_until_success sample_hostname sample_id 0 FromRequest
           (with_cacheKey "k" ip_api) new_World [(10, http_500); (10, http_500)]
           10 (http_200 (JString "Oslo")) (JString "Oslo")).
  - simpl. lia.
  - repeat constructor; simpl; lia.
  - lia.
  - reflexivity.
Defined.


(** The queue of that world holds "b". *)
Lemma request_is_sent_past_the_queue_queue :
  urls_queued
    <$> run sample_hostname sample_id (two_to_geo ++ [Time_passes 1000]) new_World
  = Some [url (geo "b")].
Proof. vm_compute. reflexivity. Qed.

(** X16, witness: "b" at the head of the queue in the millisecond in which
    "a" has used the only slot of the window. *)
Lemma blocked_head_blocks_the_queue_witness :
  let W := default new_World (run sample_hostname sample_id two_to_geo new_World) in
  requestQueue (self (processQueue_loop sample_hostname W)) = queued_b :: [] ∧
  fetched (processQueue_loop sample_hostname W) = fetched W ∧
  flights (processQueue_loop sample_hostname W) = flights W ∧
  settled (processQueue_loop sample_hostname W) = settled W ∧
  isProcessingQueue (self (processQueue_loop sample_hostname W)) = false ∧
  timers (processQueue_loop sample_hostname W)
  = timers W ++ [(clock W + 1000, Reprocess)] ∧
  circuitBreaker (self (processQueue_loop sample_hostname W))
  = circuitBreaker (self W) ∧
  rateLimiter (self (processQueue_loop sample_hostname W))
  = rateLimiter
      (checkRateLimit (clock W)
         (extractDomain sample_hostname (url (config queued_b))) (self W)).2.
Proof.
  intros W. apply (blocked_head_blocks_the_queue sample_hostname W queued_b []).
  - vm_compute. reflexivity.
  - left. vm_compute. reflexivity.
Defined.

(** X17, witness: after [low_high_medium] promise 0 has its fetch in flight
    and promises 1, 2 and 3 wait in the queue. *)
Lemma every_promise_is_in_one_place_witness :
  let W := default new_World
             (run sample_hostname sample_id low_high_medium new_World) in
  places_ok W ∧ ∀ p, (p < next_promise W)%nat ↔ placed W p.
Proof.
  intros W. apply (every_promise_is_in_one_place sample_hostname sample_id W).
  exists low_high_medium. vm_compute. reflexivity.
Defined.

(** X18, witness: promise 0 has resolved with "Oslo"; a second request is
    made and fails. *)
Lemma settlement_is_final_witness :
  let W := default new_World
             (run sample_hostname sample_id answered_then_more.1 new_World) in
  let W' := default new_World (run sample_hostname sample_id answered_then_more.2 W) in
  settled W' !! 0%nat = Some (Resolved (JString "Oslo")).
Proof.
  intros W W'.
  apply (settlement_is_final sample_hostname sample_id answered_then_more.2 W W' 0
           (Resolved (JString "Oslo"))).
  - exists answered_then_more.1. vm_compute. reflexivity.
  - vm_compute. reflexivity.
  - vm_compute. reflexivity.
Defined.

(** X19, witness: the loop has sent "high" from the queue and awaits its
    answer. *)
Lemma one_cycle_at_a_time_witness :
  let W := default new_World
             (run sample_hostname sample_id
                (low_high_medium ++ take 3 (drain_three 2 3 1)) new_World) in
  one_cycle W.
Proof.
  intros W. apply (one_cycle_at_a_time sample_hostname sample_id W).
  exists (low_high_medium ++ take 3 (drain_three 2 3 1)). vm_compute. reflexivity.
Defined.

(** In that world the flag is set and one continuation is pending. *)
Lemma one_cycle_at_a_time_running :
  (λ w, (isProcessingQueue (self w), drain_wakeups w))
    <$> run sample_hostname sample_id
          (low_high_medium ++ take 3 (drain_three 2 3 1)) new_World
  = Some (true, 1%nat).
Proof. vm_compute. reflexivity. Qed.

(** X20, witness: four requests made, three waiting, one in flight. *)
Lemma queueLength_counts_the_waiting_witness :
  let W := default new_World
             (run sample_hostname sample_id low_high_medium new_World) in
  (queueLength (getStats (self W)) + size (flights W) + size (settled W))%nat
  = next_promise W.
Proof.
  intros W. apply (queueLength_counts_the_waiting sample_hostname sample_id W).
  exists low_high_medium. vm_compute. reflexivity.
Defined.

(** X21, witness: a batch of two requests with the key "k" against
    [cached_oslo]. *)
Lemma batch_of_cache_hits_is_immediate_witness :
  let cfgs := [with_cacheKey "k" ip_api; with_cacheKey "k" (geo "reverse")] in
  batchRequests_result (next_promise cached_oslo) (length cfgs)
    (call_batchRequests sample_hostname sample_id cfgs cached_oslo)
  = Some (hit_record (self cached_oslo) <$> cfgs) ∧
  fetched (call_batchRequests sample_hostname sample_id cfgs cached_oslo)
  = fetched cached_oslo ∧
  flights (call_batchRequests sample_hostname sample_id cfgs cached_oslo)
  = flights cached_oslo ∧
  timers (call_batchRequests sample_hostname sample_id cfgs cached_oslo)
  = timers cached_oslo ∧
  self (call_batchRequests sample_hostname sample_id cfgs cached_oslo)
  = self cached_oslo.
Proof.
  intros cfgs.
  apply (batch_of_cache_hits_is_immediate sample_hostname sample_id cfgs cached_oslo).
  assert (∀ cfg, truthy_key cfg = Some "k" → default false (skipCache cfg) = false →
                 cache_hit (clock cached_oslo) (self cached_oslo) cfg) as Hhit.
  { intros cfg H1 H2.
    exists "k", {| ce_data := JString "Oslo"; ce_timestamp := 25; ttl := ms 1800000 |}.
    split; [exact H1|]. split; [exact H2|]. split; [vm_compute; reflexivity|].
    split; [vm_compute; reflexivity|reflexivity]. }
  apply Forall_cons. split; [by apply Hhit|].
  apply Forall_cons. split; [by apply Hhit|]. apply Forall_nil. done.
Defined.

(** The records of that batch. *)
Lemma batch_of_cache_hits_result :
  hit_record (self cached_oslo)
    <$> [with_cacheKey "k" ip_api; with_cacheKey "k" (geo "reverse")]
  = [ {| success := true; data := Some (JString "Oslo"); error := None;
         duration := 0; fromCache := Some true |};
      {| success := true; data := Some (JString "Oslo"); error := None;
         duration := 0; fromCache := Some true |} ].
Proof. vm_compute. reflexivity. Qed.

(** X22, witness: the entry for "b" that waits after [two_to_geo], and
    the second of two requests for the host "constructor". *)
Lemma only_rate_limited_requests_wait_witness :
  let W := default new_World
             (run sample_hostname sample_id
                [Call_request to_constructor; Call_request to_constructor] new_World) in
  let q := {| id := sample_id 1; config := to_constructor; promise := 1;
              qr_priority := 1; qr_timestamp := 0 |} in
  queued_ok sample_hostname queued_b ∧
  requestQueue (self W) = [q] ∧
  rateLimiter (self W) !! "constructor" = Some {| count := 1; resetTime := NaN |} ∧
  ∀ es w',
    run sample_hostname sample_id es W = Some w' →
    q ∈ requestQueue (self w') ∧
    flights w' !! 1%nat = None ∧ settled w' !! 1%nat = None ∧
    ∃ cs, fetched w' = fetched W ++ cs ∧ Forall (λ c, fc_promise c ≠ 1%nat) cs.
Proof.
  intros W q. split.
  - apply (only_rate_limited_requests_wait sample_hostname sample_id
             (default new_World (run sample_hostname sample_id two_to_geo new_World))
             queued_b).
    + exists two_to_geo. vm_compute. reflexivity.
    + assert (requestQueue
                (self (default new_World
                         (run sample_hostname sample_id two_to_geo new_World)))
              = [queued_b]) as -> by (vm_compute; reflexivity).
      by left.
  - assert (requestQueue (self W) = [q]) as Hq by (vm_compute; reflexivity).
    split; [exact Hq|].
    destruct (only_rate_limited_requests_wait sample_hostname sample_id W q)
      as (_ & _ & Hwait).
    + exists [Call_request to_constructor; Call_request to_constructor].
      vm_compute. reflexivity.
    + rewrite Hq. by left.
    + destruct Hwait as (_ & Hl & Hever); [vm_compute; reflexivity|].
      split; [exact Hl|]. intros es w' Hrun.
      destruct (Hever q es w') as ((l1 & l2 & E & _) & Hrest); [|exact Hrun|].
      { exists [], []. rewrite Hq. split; [done|by left]. }
      split; [|exact Hrest]. rewrite E. apply elem_of_app. right. by left.
Defined.


(** X24, witness: a request to ip-api.com ten milliseconds after the fifth
    failure. *)
Lemma open_breaker_rejection_is_free_witness :
  let W := breaker_world 60 {| failures := 5; lastFailure := 50; isOpen := true |} in
  settled (request sample_hostname sample_id 7 ip_api W) !! 7%nat
  = Some (Rejected (new_Error ("Circuit breaker is open for "
                               +:+ extractDomain sample_hostname (url ip_api)))) ∧
  fetched (request sample_hostname sample_id 7 ip_api W) = fetched W ∧
  circuitBreaker (self (request sample_hostname sample_id 7 ip_api W))
  = circuitBreaker (self W) ∧
  rateLimiter (self (request sample_hostname sample_id 7 ip_api W))
  = rateLimiter (self W) ∧
  requestQueue (self (request sample_hostname sample_id 7 ip_api W))
  = requestQueue (self W) ∧
  timers (request sample_hostname sample_id 7 ip_api W) = timers W.
Proof.
  intros W.
  apply (open_breaker_rejection_is_free sample_hostname sample_id 7 ip_api W
           {| failures := 5; lastFailure := 50; isOpen := true |}).
  - reflexivity.
  - vm_compute. reflexivity.
  - reflexivity.
  - vm_compute. discriminate.
Defined.

(** The loop has sent "high" from the queue: when its answer comes the
    pause is set 100 ms ahead, and "medium" and "low" stay in the queue. *)
Lemma pause_after_served_request :
  (λ w, (timers w, isProcessingQueue (self w), urls_queued w, clock w))
    <$> run sample_hostname sample_id
          (low_high_medium ++ take 4 (drain_three 2 3 1)) new_World
  = Some ([(1000, Reprocess); (1000, Reprocess); (1100, Pause)], true,
          [url (geo "medium"); url (geo "low")], 1000).
Proof. vm_compute. reflexivity. Qed.

(** X25, witness: the answer to "high", which the loop sent from the queue
    of [low_high_medium]. *)
Lemma only_the_pause_resumes_the_loop_witness :
  let W := default new_World
             (run sample_hostname sample_id
                (low_high_medium ++ take 3 (drain_three 2 3 1)) new_World) in
  let fl := {| f_config := with_priority high (geo "high"); f_attempt := 0;
               f_caller := FromQueue |} in
  let W' := executeRequest_resume sample_hostname 2 fl (http_200 (JString "1")) W in
  timers W' = timers W ++ [(clock W + 100, Pause)] ∧
  isProcessingQueue (self W') = isProcessingQueue (self W).
Proof.
  intros W fl W'.
  apply (proj1 (only_the_pause_resumes_the_loop sample_hostname sample_id W)
           2%nat fl (http_200 (JString "1")) W').
  - vm_compute. reflexivity.
  - reflexivity.
  - vm_compute. reflexivity.
  - vm_compute. reflexivity.
Defined.
